(** * audio_utils::mutex — the instrumented mutex runtime

    A shallow embedding of [audio_utils/include/audio_utils/mutex.h]:
    the bounded held stack ([atomic_stack]), the per-thread descriptor
    ([thread_mutex_info]), the wait-chain traversal of [thread_registry],
    the per-category statistics ([mutex_stat]) and the lock, unlock and
    timed try-lock paths of [mutex_impl], with the guards, condition
    variable waits and wait scopes built on them; and of the reader task of
    [audio_utils/include/audio_utils/FdToString.h].

    Conventions.
    - [size_t] and the [uint64_t] counters are integers in [Z] whose
      wrap-around at 2^64 is written out ([to_size_t], [to_uint64]).
    - A [MutexHandle] ([void*]) is the address as a [Z]; [nullptr] is 0.
    - A [MutexOrder] is its underlying unsigned value.
    - A function returning a [const item_payload_pair_t&] returns a
      [pair_ref]: either a slot of [pairs_] or the static [invalid_] pair.
    - The accumulators [wait_sum_ns] and [wait_sumsq_ns] are IEEE binary64
      numbers, Rocq's primitive floats.
    - What the operating system answers (whether the native mutex could be
      taken, what the clocks read) is an [oracle] handed to each operation;
      every native call is recorded in [os_log]. *)

From Stdlib Require Import ZArith Floats.
From stdpp Require Import base list gmap strings sorting.

Open Scope Z_scope.

(** ** Machine integers *)

Definition size_modulus : Z := 2 ^ 64.
Definition SIZE_MAX : Z := size_modulus - 1.
Definition INT64_MAX : Z := 2 ^ 63 - 1.
Definition INT64_MIN : Z := - 2 ^ 63.

(** Value of an unsigned 64-bit result ([size_t], [uint64_t]). *)
Definition to_size_t (z : Z) : Z := z mod size_modulus.
Definition to_uint64 (z : Z) : Z := z mod size_modulus.

(** [static_cast<ssize_t>] of a [size_t], and the value of a signed 64-bit
    result. *)
Definition to_ssize_t (z : Z) : Z := (z + 2 ^ 63) mod size_modulus - 2 ^ 63.
Definition to_int64 (z : Z) : Z := (z + 2 ^ 63) mod size_modulus - 2 ^ 63.

(** Modelled from the spec: [safe_add_sat] is declared in
    [audio_utils/safe_math.h], which is not among the sources. The deadline
    is "computed from now+timeout"; the name says that the sum saturates at
    the bounds of [int64_t] instead of overflowing. *)
Definition safe_add_sat (a b : Z) : Z :=
  if INT64_MAX <? a + b then INT64_MAX
  else if a + b <? INT64_MIN then INT64_MIN
  else a + b.

(** [AccumulatorType value_ns = wait_ns]: an [int64_t] converted to
    [double], rounded to nearest even. *)
Definition double_of_int64 (z : Z) : float :=
  SF2Prim (binary_normalize prec emax z 0 false).

Definition kInvalidTid : Z := -1.
Definition nullptr : Z := 0.

(** ** Attributes: the configuration traits of [mutex_impl] *)

Class Attributes := {
  order_names_ : list string;
  order_size_ : Z;
  order_default_ : Z;
  mutex_tracking_enabled_ : bool;
  mutex_stack_depth_ : Z;
  abort_on_order_check_ : bool;
  abort_on_recursion_check_ : bool;
  abort_on_invalid_unlock_ : bool;
}.

Definition gMutexNames : list string := [
  "Spatializer_Mutex"; "AudioPolicyEffects_Mutex"; "EffectHandle_Mutex";
  "EffectBase_PolicyMutex"; "AudioPolicyService_Mutex"; "CommandThread_Mutex";
  "AudioCommand_Mutex"; "UidPolicy_Mutex"; "AudioFlinger_Mutex";
  "DeviceEffectManager_Mutex"; "DeviceEffectProxy_ProxyMutex";
  "DeviceEffectHandle_Mutex"; "PatchCommandThread_Mutex"; "ThreadBase_Mutex";
  "AudioFlinger_ClientMutex"; "EffectChain_Mutex"; "EffectBase_Mutex";
  "AudioFlinger_HardwareMutex"; "MelReporter_Mutex";
  "AudioFlinger_UnregisteredWritersMutex"; "AsyncCallbackThread_Mutex";
  "ConfigEvent_Mutex"; "OutputTrack_TrackMetadataMutex";
  "PassthruPatchRecord_ReadMutex"; "PatchCommandThread_ListenerMutex";
  "PlaybackThread_AudioTrackCbMutex";
  "AudioPolicyService_NotificationClientsMutex"; "MediaLogNotifier_Mutex";
  "OtherMutex" ]%string.

(** [MutexOrder], by underlying value. *)
Module MutexOrder.
Definition kThreadBase_Mutex : Z := 13.
Definition kEffectChain_Mutex : Z := 15.
Definition kOtherMutex : Z := 28.
Definition kSize : Z := 29.
End MutexOrder.

#[export] Instance AudioMutexAttributes : Attributes := {|
  order_names_ := gMutexNames;
  order_size_ := MutexOrder.kSize;
  order_default_ := MutexOrder.kOtherMutex;
  mutex_tracking_enabled_ := true;
  mutex_stack_depth_ := 16;
  abort_on_order_check_ := true;
  abort_on_recursion_check_ := true;
  abort_on_invalid_unlock_ := true;
|}.

(** ** atomic_stack<Item, Payload, N> *)

(** [std::pair<thread_atomic<Item>, thread_atomic<Payload>>], here with
    [Item = void*] and [Payload = MutexOrder]. *)
Definition item_payload_pair_t : Type := Z * Z.

(** [invalid_{}]: the zero-initialised pair. *)
Definition invalid_ : item_payload_pair_t := (nullptr, 0).

Record atomic_stack := mk_atomic_stack {
  top_ : Z;                           (* thread_atomic<size_t> top_ *)
  true_top_ : Z;                      (* thread_atomic<size_t> true_top_ *)
  pairs_ : list item_payload_pair_t;  (* item_payload_pair_t pairs_[N] *)
}.

(** [pairs_[i]] read as an rvalue. An index outside the array is undefined
    in the source; here it reads the zero pair. *)
Definition at_ (pairs : list item_payload_pair_t) (i : Z) : item_payload_pair_t :=
  default invalid_ (pairs !! Z.to_nat i).

(** The result of a function returning [const item_payload_pair_t&]. *)
Inductive pair_ref :=
  | slot_ref (i : Z)     (* pairs_[i] *)
  | invalid_ref.         (* invalid_ *)

#[export] Instance pair_ref_eq_dec : EqDecision pair_ref.
Proof. solve_decision. Defined.

Definition deref (s : atomic_stack) (r : pair_ref) : item_payload_pair_t :=
  match r with
  | slot_ref i => at_ (pairs_ s) i
  | invalid_ref => invalid_
  end.

Section atomic_stack.
(** The template parameter [N]. *)
Variable N : Z.

(** A default-constructed stack: [top_ = 0], [true_top_ = 0], [pairs_[N]{}]. *)
Definition atomic_stack_init : atomic_stack :=
  {| top_ := 0; true_top_ := 0; pairs_ := replicate (Z.to_nat N) invalid_ |}.

(** [void push(const Item& item, const Payload& payload)].
    A store outside the array is undefined in the source; here it leaves
    the array as it is. *)
Definition push (s : atomic_stack) (item payload : Z) : atomic_stack :=
  let location := top_ s in
  let increment := 1 in
  let '(location, increment) :=
    if N <=? location then (to_size_t (N - 1), 0) else (location, increment) in
  {| pairs_ := <[Z.to_nat location := (item, payload)]> (pairs_ s);
     true_top_ := to_size_t (true_top_ s + 1);
     top_ := to_size_t (top_ s + increment) |}.

(** The scan of [remove]: [for (size_t i = top_; i > 0; )] testing
    [item == pairs_[--i].first]; the index of the match, if any. [fuel] is
    the number of iterations left, [i] itself on entry. *)
Fixpoint remove_scan (pairs : list item_payload_pair_t) (item : Z)
    (i : Z) (fuel : nat) : option Z :=
  match fuel with
  | O => None
  | S fuel' =>
      let i := i - 1 in
      if (at_ pairs i).1 =? item then Some i
      else remove_scan pairs item i fuel'
  end.

(** The shift of [remove]: [while (i < limit)] copying [pairs_[i + 1]]
    into [pairs_[i]]. *)
Fixpoint shift_down (pairs : list item_payload_pair_t)
    (i limit : Z) (fuel : nat) : list item_payload_pair_t :=
  match fuel with
  | O => pairs
  | S fuel' =>
      if i <? limit
      then shift_down (<[Z.to_nat i := at_ pairs (i + 1)]> pairs) (i + 1) limit fuel'
      else pairs
  end.

(** [bool remove(const Item& item)]: the result and the stack afterwards. *)
Definition remove (s : atomic_stack) (item : Z) : bool * atomic_stack :=
  if true_top_ s =? 0 then (false, s)
  else
    let true_top := to_size_t (true_top_ s - 1) in
    match remove_scan (pairs_ s) item (top_ s) (Z.to_nat (top_ s)) with
    | Some i =>
        let limit := to_size_t (top_ s - 1) in
        (true,
         {| pairs_ := shift_down (pairs_ s) i limit (Z.to_nat (limit - i));
            top_ := to_size_t (top_ s - 1);
            true_top_ := true_top |})
    | None =>
        if top_ s <=? true_top
        then (true, {| pairs_ := pairs_ s; top_ := top_ s; true_top_ := true_top |})
        else (false, {| pairs_ := pairs_ s; top_ := top_ s; true_top_ := top_ s |})
    end.

(** [const item_payload_pair_t& top(size_t offset = 0) const] *)
Definition top (s : atomic_stack) (offset : Z) : pair_ref :=
  let top := to_ssize_t (top_ s) - to_ssize_t offset in
  if (0 <? top) && (top <=? to_ssize_t N) then slot_ref (top - 1)
  else invalid_ref.

(** [const item_payload_pair_t& bottom(size_t offset = 0) const] *)
Definition bottom (s : atomic_stack) (offset : Z) : pair_ref :=
  if offset <? top_ s then slot_ref offset else invalid_ref.

Definition capacity : Z := N.
Definition true_size (s : atomic_stack) : Z := true_top_ s.
Definition size (s : atomic_stack) : Z := top_ s.
Definition invalid (s : atomic_stack) : pair_ref := invalid_ref.

(** The tracked entries, bottom first: [pairs_[0 .. top_)]. *)
Definition items (s : atomic_stack) : list item_payload_pair_t :=
  take (Z.to_nat (top_ s)) (pairs_ s).
End atomic_stack.

(** ** thread_mutex_info<MutexHandle, Order, N> *)

Module other_wait_reason_t.
Inductive t := none | cv | join | queue.

#[export] Instance eq_dec : EqDecision t.
Proof. solve_decision. Defined.
End other_wait_reason_t.

Record other_wait_info := mk_other_wait_info {
  owi_tid_ : Z;                          (* tid_ = kInvalidTid *)
  owi_reason_ : other_wait_reason_t.t;   (* reason_ = none *)
  owi_order_ : Z;                        (* order_ = (Order)-1 *)
}.

Record thread_mutex_info := mk_thread_mutex_info {
  tid_ : Z;                              (* me *)
  mutex_wait_ : Z;                       (* mutex waiting for *)
  other_wait_info_ : other_wait_info;
  mutexes_held_ : atomic_stack;          (* mutexes held *)
}.

Section thread_mutex_info.
Variable N : Z.

(** [thread_mutex_info(pid_t tid)] *)
Definition thread_mutex_info_init (tid : Z) : thread_mutex_info :=
  {| tid_ := tid;
     mutex_wait_ := nullptr;
     other_wait_info_ :=
       {| owi_tid_ := kInvalidTid;
          owi_reason_ := other_wait_reason_t.none;
          owi_order_ := 2 ^ 32 - 1 |};
     mutexes_held_ := atomic_stack_init N |}.

Definition set_mutexes_held (t : thread_mutex_info) (s : atomic_stack) :=
  {| tid_ := tid_ t; mutex_wait_ := mutex_wait_ t;
     other_wait_info_ := other_wait_info_ t; mutexes_held_ := s |}.

Definition set_other_wait_info (t : thread_mutex_info) (o : other_wait_info) :=
  {| tid_ := tid_ t; mutex_wait_ := mutex_wait_ t;
     other_wait_info_ := o; mutexes_held_ := mutexes_held_ t |}.

(** [void reset_waiter(MutexHandle waiter = nullptr)] *)
Definition reset_waiter (t : thread_mutex_info) (waiter : Z) : thread_mutex_info :=
  {| tid_ := tid_ t; mutex_wait_ := waiter;
     other_wait_info_ := other_wait_info_ t; mutexes_held_ := mutexes_held_ t |}.

(** The loop of [check_held]: [for (size_t i = 0; i < size; ++i)], with
    [fuel = size - i] iterations left. *)
Fixpoint check_held_loop (s : atomic_stack) (mutex order : Z)
    (i : Z) (fuel : nat) : pair_ref :=
  match fuel with
  | O => invalid s
  | S fuel' =>
      let top := top N s i in
      let top_order := (deref s top).2 in
      if top_order <? order then invalid s        (* ok *)
      else if order <? top_order then top           (* inverted order *)
      else if (deref s top).1 =? mutex then top     (* recursive mutex *)
      else check_held_loop s mutex order (i + 1) fuel'
  end.

(** [check_held(MutexHandle mutex, Order order) const] *)
Definition check_held (t : thread_mutex_info) (mutex order : Z) : pair_ref :=
  let size := size (mutexes_held_ t) in
  check_held_loop (mutexes_held_ t) mutex order 0 (Z.to_nat size).

(** [void push_held(MutexHandle mutex, Order order)] *)
Definition push_held (t : thread_mutex_info) (mutex order : Z) : thread_mutex_info :=
  set_mutexes_held t (push N (mutexes_held_ t) mutex order).

(** [bool remove_held(MutexHandle mutex)] *)
Definition remove_held (t : thread_mutex_info) (mutex : Z) : bool * thread_mutex_info :=
  let '(r, s) := remove (mutexes_held_ t) mutex in (r, set_mutexes_held t s).

(** [void push_held_for_cv(MutexHandle mutex, Order order)] *)
Definition push_held_for_cv (t : thread_mutex_info) (mutex order : Z) :=
  let t := push_held t mutex order in
  set_other_wait_info t
    {| owi_tid_ := kInvalidTid;
       owi_reason_ := owi_reason_ (other_wait_info_ t);
       owi_order_ := owi_order_ (other_wait_info_ t) |}.

(** [bool remove_held_for_cv(MutexHandle mutex, Order order, pid_t notifier_tid)] *)
Definition remove_held_for_cv (t : thread_mutex_info) (mutex order notifier_tid : Z) :=
  let t := set_other_wait_info t
    {| owi_order_ := order;
       owi_reason_ := other_wait_reason_t.cv;
       owi_tid_ := notifier_tid |} in
  remove_held t mutex.

(** [add_wait_join], [remove_wait_join], [add_wait_queue], [remove_wait_queue] *)
Definition add_wait_join (t : thread_mutex_info) (waiting_tid : Z) :=
  set_other_wait_info t
    {| owi_reason_ := other_wait_reason_t.join;
       owi_tid_ := waiting_tid;
       owi_order_ := owi_order_ (other_wait_info_ t) |}.

Definition remove_wait_join (t : thread_mutex_info) :=
  set_other_wait_info t
    {| owi_tid_ := kInvalidTid;
       owi_reason_ := owi_reason_ (other_wait_info_ t);
       owi_order_ := owi_order_ (other_wait_info_ t) |}.

Definition add_wait_queue (t : thread_mutex_info) (waiting_tid : Z) :=
  set_other_wait_info t
    {| owi_reason_ := other_wait_reason_t.queue;
       owi_tid_ := waiting_tid;
       owi_order_ := owi_order_ (other_wait_info_ t) |}.

Definition remove_wait_queue (t : thread_mutex_info) := remove_wait_join t.

(** [bool empty() const] *)
Definition empty (t : thread_mutex_info) : bool :=
  (mutex_wait_ t =? nullptr) && (size (mutexes_held_ t) =? 0).
End thread_mutex_info.

(** ** deadlock_info_t and thread_registry::deadlock_detection *)

Record deadlock_info_t := mk_deadlock_info {
  di_tid : Z;                                   (* tid checked *)
  has_cycle : bool;
  other_wait_reason : other_wait_reason_t.t;
  chain : list (Z * string);                    (* wait chain of tids and names *)
}.

(** [explicit deadlock_info_t(pid_t tid_param)] *)
Definition deadlock_info_init (tid : Z) : deadlock_info_t :=
  {| di_tid := tid; has_cycle := false;
     other_wait_reason := other_wait_reason_t.none; chain := [] |}.

Definition push_chain (d : deadlock_info_t) (e : Z * string) : deadlock_info_t :=
  {| di_tid := di_tid d; has_cycle := has_cycle d;
     other_wait_reason := other_wait_reason d; chain := chain d ++ [e] |}.

Definition set_has_cycle (d : deadlock_info_t) (b : bool) : deadlock_info_t :=
  {| di_tid := di_tid d; has_cycle := b;
     other_wait_reason := other_wait_reason d; chain := chain d |}.

Definition set_other_wait_reason (d : deadlock_info_t)
    (r : other_wait_reason_t.t) : deadlock_info_t :=
  {| di_tid := di_tid d; has_cycle := has_cycle d;
     other_wait_reason := r; chain := chain d |}.

(** The copy returned by [copy_map()]: the entries of the
    [unordered_map<pid_t, weak_ptr<ThreadInfo>>] in the order its iteration
    visits them, each with what [weak_ptr::lock()] yields ([None] for an
    expired pointer). Keys are unique in the source. *)
Definition registry_map_t : Type := list (Z * option thread_mutex_info).

(** [tid_to_info(registry_map, tid)]: [None] stands for the null
    [shared_ptr]. *)
Definition tid_to_info (registry_map : registry_map_t) (tid : Z)
    : option thread_mutex_info :=
  match list_find (λ e, e.1 = tid) registry_map with
  | Some (_, (_, weak_info)) => weak_info
  | None => None
  end.

Section deadlock_detection.
Variable N : Z.
Variable mutex_names : list string.

(** The inner loop filling [mutex_to_tid] from one stack, bottom up:
    [for (size_t i = 0; i < size; ++i)]. *)
Fixpoint collect_held (stack : atomic_stack) (tid2 : Z) (i : Z) (fuel : nat)
    (mutex_to_tid : gmap Z (Z * Z)) : gmap Z (Z * Z) :=
  match fuel with
  | O => mutex_to_tid
  | S fuel' =>
      let mutex_order_pair := deref stack (bottom stack i) in
      let mutex_ptr := mutex_order_pair.1 in
      let order := mutex_order_pair.2 in
      collect_held stack tid2 (i + 1) fuel'
        (if mutex_ptr =? nullptr then mutex_to_tid
         else <[mutex_ptr := (tid2, order)]> mutex_to_tid)
  end.

(** The outer loop over the registry copy; the second component is
    [subset]. *)
Fixpoint build_mutex_to_tid (registry_map : registry_map_t)
    (acc : gmap Z (Z * Z) * bool) : gmap Z (Z * Z) * bool :=
  match registry_map with
  | [] => acc
  | (tid2, weak_info) :: rest =>
      match weak_info with
      | None => build_mutex_to_tid rest acc
      | Some info =>
          let stack := mutexes_held_ info in
          let size := Z.min (size stack) (capacity N) in
          let subset := acc.2 || negb (size =? true_size stack) in
          build_mutex_to_tid rest
            (collect_held stack tid2 0 (Z.to_nat size) acc.1, subset)
      end
  end.

(** The label appended to the chain. *)
Definition chain_label (reason : other_wait_reason_t.t) (order : Z) : string :=
  let name :=
    if order <? Z.of_nat (length mutex_names)
    then default "unknown"%string (mutex_names !! Z.to_nat order)
    else "unknown"%string in
  match reason with
  | other_wait_reason_t.cv => ("cv-" ++ name)%string
  | other_wait_reason_t.join => "join"%string
  | other_wait_reason_t.queue => "queue"%string
  | other_wait_reason_t.none => name
  end.

(** The traversal [for (pid_t tid2 = tid; true;)]. Every round that goes
    on adds a registered tid to [visited], so [fuel] rounds with [fuel]
    above the number of registry entries are never used up; [None] says
    they were. *)
Fixpoint traverse (fuel : nat) (registry_map : registry_map_t)
    (mutex_to_tid : gmap Z (Z * Z)) (visited : gset Z)
    (m other_wait_tid : Z) (other_wait_reason : other_wait_reason_t.t)
    (other_wait_order : Z) (deadlock_info : deadlock_info_t)
    : option deadlock_info_t :=
  match fuel with
  | O => None
  | S fuel' =>
      let step (tid2 order : Z) (reason : other_wait_reason_t.t)
               (deadlock_info : deadlock_info_t) :=
        (* add to chain *)
        let deadlock_info :=
          push_chain deadlock_info (tid2, chain_label reason order) in
        if decide (tid2 ∈ visited) then
          Some (set_has_cycle deadlock_info true)    (* cycle detected *)
        else
          let visited := {[tid2]} ∪ visited in
          match tid_to_info registry_map tid2 with
          | None => Some deadlock_info    (* thread may have disappeared *)
          | Some tinfo =>
              traverse fuel' registry_map mutex_to_tid visited
                (mutex_wait_ tinfo)
                (owi_tid_ (other_wait_info_ tinfo))
                (owi_reason_ (other_wait_info_ tinfo))
                (owi_order_ (other_wait_info_ tinfo))
                deadlock_info
          end in
      match (if m =? nullptr then None else mutex_to_tid !! m) with
      | Some (tid2, order) =>
          (* waiting on mutex held by another tid *)
          step tid2 order other_wait_reason_t.none deadlock_info
      | None =>
          if negb (other_wait_tid =? kInvalidTid) then
            (* condition variable waiting on tid *)
            step other_wait_tid other_wait_order other_wait_reason
              (set_other_wait_reason deadlock_info other_wait_reason)
          else Some deadlock_info         (* no mutex or cv info *)
      end
  end.

(** [deadlock_info_t deadlock_detection(pid_t tid, const StringArray&
    mutex_names)], on the copy of the registry it starts by taking. *)
Definition deadlock_detection (registry_map : registry_map_t) (tid : Z)
    : option deadlock_info_t :=
  let deadlock_info := deadlock_info_init tid in
  match tid_to_info registry_map tid with
  | None => Some deadlock_info
  | Some tinfo_original_tid =>
      let m := mutex_wait_ tinfo_original_tid in
      let other_wait_tid := owi_tid_ (other_wait_info_ tinfo_original_tid) in
      if (m =? nullptr) && (other_wait_tid =? kInvalidTid) then Some deadlock_info
      else
        let other_wait_reason := owi_reason_ (other_wait_info_ tinfo_original_tid) in
        let other_wait_order := owi_order_ (other_wait_info_ tinfo_original_tid) in
        let '(mutex_to_tid, subset) := build_mutex_to_tid registry_map (∅, false) in
        traverse (S (length registry_map)) registry_map mutex_to_tid {[tid]}
          m other_wait_tid other_wait_reason other_wait_order deadlock_info
  end.
End deadlock_detection.

(** ** mutex_stat<uint64_t, double> *)

Record mutex_stat := mk_mutex_stat {
  locks : Z;               (* number of times locked *)
  unlocks : Z;             (* number of times unlocked *)
  waits : Z;               (* number of locks that waited *)
  wait_sum_ns : float;     (* sum of time waited *)
  wait_sumsq_ns : float;   (* sumsq of time waited *)
}.

Definition mutex_stat_init : mutex_stat :=
  {| locks := 0; unlocks := 0; waits := 0;
     wait_sum_ns := 0%float; wait_sumsq_ns := 0%float |}.

(** [++locks], [++unlocks], [++waits] *)
Definition inc_locks (st : mutex_stat) : mutex_stat :=
  {| locks := to_uint64 (locks st + 1); unlocks := unlocks st; waits := waits st;
     wait_sum_ns := wait_sum_ns st; wait_sumsq_ns := wait_sumsq_ns st |}.

Definition inc_unlocks (st : mutex_stat) : mutex_stat :=
  {| locks := locks st; unlocks := to_uint64 (unlocks st + 1); waits := waits st;
     wait_sum_ns := wait_sum_ns st; wait_sumsq_ns := wait_sumsq_ns st |}.

Definition inc_waits (st : mutex_stat) : mutex_stat :=
  {| locks := locks st; unlocks := unlocks st; waits := to_uint64 (waits st + 1);
     wait_sum_ns := wait_sum_ns st; wait_sumsq_ns := wait_sumsq_ns st |}.

(** [void add_wait_time(WaitTimeType wait_ns)] *)
Definition add_wait_time (st : mutex_stat) (wait_ns : Z) : mutex_stat :=
  let value_ns := double_of_int64 wait_ns in
  {| locks := locks st; unlocks := unlocks st; waits := waits st;
     wait_sum_ns := (wait_sum_ns st + value_ns)%float;
     wait_sumsq_ns := (wait_sumsq_ns st + value_ns * value_ns)%float |}.

(** [CounterType uncontested = locks - waits], the figure [to_string]
    prints. *)
Definition uncontested (st : mutex_stat) : Z := to_uint64 (locks st - waits st).

(** ** The native mutex and clocks *)

Record timespec := mk_timespec { tv_sec : Z; tv_nsec : Z }.

(** The clock [systemTime] is asked for: [SYSTEM_TIME_REALTIME] for the
    deadline, its default (monotonic) clock for the wait time. *)
Inductive clock_t := SYSTEM_TIME_REALTIME | SYSTEM_TIME_MONOTONIC.

(** The calls made on the underlying [std::mutex m_] and on the clocks. *)
Inductive os_call :=
  | std_mutex_try_lock (handle : Z)                        (* m_.try_lock() *)
  | std_mutex_lock (handle : Z)                            (* m_.lock() *)
  | std_mutex_unlock (handle : Z)                          (* m_.unlock() *)
  | pthread_mutex_timedlock (handle : Z) (ts : timespec)
  | systemTime (clock : clock_t).

#[export] Instance timespec_eq_dec : EqDecision timespec.
Proof. solve_decision. Defined.
#[export] Instance clock_eq_dec : EqDecision clock_t.
Proof. solve_decision. Defined.
#[export] Instance os_call_eq_dec : EqDecision os_call.
Proof. solve_decision. Defined.

(** What the operating system answers during one operation. *)
Record oracle := mk_oracle {
  try_lock_result : bool;       (* m_.try_lock() *)
  timedlock_result : Z;         (* pthread_mutex_timedlock(): 0 or an errno *)
  realtime_now : Z;             (* systemTime(SYSTEM_TIME_REALTIME) *)
  time_begin : Z;               (* systemTime() when the scoped stat is built *)
  time_end : Z;                 (* systemTime() when it is destroyed *)
}.

(** ** mutex_impl<Attributes> *)

(** A mutex object: where it lives (never the null address) and the order
    it was constructed with. The constructor aborts unless the order is below
    [order_size_]; [stat_] then refers to an element of the statistics
    array. *)
Record mutex := mk_mutex {
  address : positive;
  order_ : Z;
}.

(** [&m] as a [MutexHandle]. *)
Definition handle_of (m : mutex) : Z := Z.pos (address m).

(** The process: the statistics array, the thread-local descriptors by
    tid (the registry holds a weak pointer to each) and the native calls
    made so far, oldest first. *)
Record world := mk_world {
  mutex_stat_array : list mutex_stat;
  thread_infos : gmap Z thread_mutex_info;
  os_log : list os_call;
}.

(** An operation either completes with a value or dies in
    [LOG_ALWAYS_FATAL]; both leave a state of the process behind. *)
Inductive outcome (A : Type) :=
  | Done (a : A) (w : world)
  | Fatal (w : world).
Arguments Done {A} a w.
Arguments Fatal {A} w.

Definition world_of {A} (o : outcome A) : world :=
  match o with Done _ w => w | Fatal w => w end.

Definition M (A : Type) : Type := world → outcome A.

#[export] Instance M_ret : MRet M := λ A a w, Done a w.
#[export] Instance M_bind : MBind M := λ A B f c w,
  match c w with
  | Done a w' => f a w'
  | Fatal w' => Fatal w'
  end.

Definition fatal {A} : M A := λ w, Fatal w.

Definition native (c : os_call) : M unit := λ w,
  Done () {| mutex_stat_array := mutex_stat_array w;
             thread_infos := thread_infos w;
             os_log := os_log w ++ [c] |}.

Section mutex_impl.
Context {Attr : Attributes}.

Definition world_init : world :=
  {| mutex_stat_array := replicate (Z.to_nat order_size_) mutex_stat_init;
     thread_infos := ∅;
     os_log := [] |}.

(** [get_thread_mutex_info()] on thread [tid]: the descriptor is made and
    registered the first time the thread asks for it. *)
Definition get_thread_mutex_info (tid : Z) : M thread_mutex_info := λ w,
  match thread_infos w !! tid with
  | Some info => Done info w
  | None =>
      let info := thread_mutex_info_init mutex_stack_depth_ tid in
      Done info {| mutex_stat_array := mutex_stat_array w;
                   thread_infos := <[tid := info]> (thread_infos w);
                   os_log := os_log w |}
  end.

Definition put_thread_mutex_info (tid : Z) (info : thread_mutex_info) : M unit := λ w,
  Done () {| mutex_stat_array := mutex_stat_array w;
             thread_infos := <[tid := info]> (thread_infos w);
             os_log := os_log w |}.

(** A write through [get_thread_mutex_info()->...]. *)
Definition update_thread_mutex_info (tid : Z)
    (f : thread_mutex_info → thread_mutex_info) : M unit :=
  info ← get_thread_mutex_info tid;
  put_thread_mutex_info tid (f info).

(** A write through [stat_], the element of the statistics array at the
    mutex's order. *)
Definition update_stat (m : mutex) (f : mutex_stat → mutex_stat) : M unit := λ w,
  Done () {| mutex_stat_array := alter f (Z.to_nat (order_ m)) (mutex_stat_array w);
             thread_infos := thread_infos w;
             os_log := os_log w |}.

(** [lock_scoped_stat_enabled]: the members of the scope object. *)
Record lock_scoped_stat_t := mk_lock_scoped_stat {
  time_ : Z;
  discard_wait_time_ : bool;
}.

(** [explicit lock_scoped_stat_enabled(mutex& m)] *)
Definition lock_scoped_stat_ctor (tid : Z) (m : mutex) (e : oracle)
    : M lock_scoped_stat_t :=
  if mutex_tracking_enabled_ then
    native (systemTime SYSTEM_TIME_MONOTONIC);;
    update_stat m inc_waits;;
    update_thread_mutex_info tid (λ t, reset_waiter t (handle_of m));;
    mret {| time_ := time_begin e; discard_wait_time_ := false |}
  else mret {| time_ := 0; discard_wait_time_ := false |}.

(** [void ignoreWaitTime()] *)
Definition ignoreWaitTime (ls : lock_scoped_stat_t) : lock_scoped_stat_t :=
  {| time_ := time_ ls; discard_wait_time_ := true |}.

(** [~lock_scoped_stat_enabled()] *)
Definition lock_scoped_stat_dtor (tid : Z) (m : mutex) (e : oracle)
    (ls : lock_scoped_stat_t) : M unit :=
  if mutex_tracking_enabled_ then
    (if discard_wait_time_ ls then mret ()
     else
       native (systemTime SYSTEM_TIME_MONOTONIC);;
       update_stat m (λ st, add_wait_time st (to_int64 (time_end e - time_ ls))));;
    update_thread_mutex_info tid (λ t, reset_waiter t nullptr)
  else mret ().

(** [static void pre_unlock(mutex& m)] *)
Definition pre_unlock (tid : Z) (m : mutex) : M unit :=
  if mutex_tracking_enabled_ then
    update_stat m inc_unlocks;;
    info ← get_thread_mutex_info tid;
    let '(success, info) := remove_held info (handle_of m) in
    update_thread_mutex_info tid (λ _, info);;
    if abort_on_invalid_unlock_ && negb success then fatal else mret ()
  else mret ().

(** [static void pre_lock(mutex& m)]: before we lock, we check order and
    recursion. *)
Definition pre_lock (tid : Z) (m : mutex) : M unit :=
  if mutex_tracking_enabled_ then
    if negb abort_on_order_check_ && negb abort_on_recursion_check_ then mret ()
    else
      info ← get_thread_mutex_info tid;
      let p := deref (mutexes_held_ info)
                 (check_held mutex_stack_depth_ info (handle_of m) (order_ m)) in
      if p.1 =? nullptr then mret ()     (* no problematic mutex *)
      else
        let p_order := p.2 in
        let m_order := order_ m in
        if abort_on_order_check_ && (m_order <? p_order) then fatal  (* lock inversion *)
        else if abort_on_recursion_check_ && (p_order =? m_order) then fatal (* lock recursion *)
        else mret ()
  else mret ().

(** [static void post_lock(mutex& m)] *)
Definition post_lock (tid : Z) (m : mutex) : M unit :=
  if mutex_tracking_enabled_ then
    update_stat m inc_locks;;
    update_thread_mutex_info tid
      (λ t, push_held mutex_stack_depth_ t (handle_of m) (order_ m))
  else mret ().

(** [void lock()] *)
Definition lock (tid : Z) (m : mutex) (e : oracle) : M unit :=
  pre_lock tid m;;
  native (std_mutex_try_lock (handle_of m));;
  (if negb (try_lock_result e) then
     ls ← lock_scoped_stat_ctor tid m e;
     native (std_mutex_lock (handle_of m));;
     lock_scoped_stat_dtor tid m e ls
   else mret ());;
  post_lock tid m.

(** [void unlock()] *)
Definition unlock (tid : Z) (m : mutex) : M unit :=
  pre_unlock tid m;;
  native (std_mutex_unlock (handle_of m)).

(** [bool try_lock(int64_t timeout_ns = 0)] *)
Definition try_lock (tid : Z) (m : mutex) (timeout_ns : Z) (e : oracle) : M bool :=
  pre_lock tid m;;
  if timeout_ns <=? 0 then
    native (std_mutex_try_lock (handle_of m));;
    if negb (try_lock_result e) then mret false
    else post_lock tid m;; mret true
  else
    native (systemTime SYSTEM_TIME_REALTIME);;
    let deadline_ns := safe_add_sat timeout_ns (realtime_now e) in
    let ts := {| tv_sec := deadline_ns `quot` 1000000000;
                 tv_nsec := deadline_ns `rem` 1000000000 |} in
    ls ← lock_scoped_stat_ctor tid m e;
    native (pthread_mutex_timedlock (handle_of m) ts);;
    if negb (timedlock_result e =? 0) then
      let ls := ignoreWaitTime ls in   (* didn't get lock, don't count wait time *)
      lock_scoped_stat_dtor tid m e ls;;
      mret false
    else
      lock_scoped_stat_dtor tid m e ls;;
      post_lock tid m;;
      mret true.

(** The operations one thread after another applies to the process. *)
Inductive mutex_op :=
  | op_lock (tid : Z) (m : mutex) (e : oracle)
  | op_unlock (tid : Z) (m : mutex)
  | op_try_lock (tid : Z) (m : mutex) (timeout_ns : Z) (e : oracle).

Definition run_op (op : mutex_op) : M unit :=
  match op with
  | op_lock tid m e => lock tid m e
  | op_unlock tid m => unlock tid m
  | op_try_lock tid m timeout_ns e => try_lock tid m timeout_ns e;; mret ()
  end.

Fixpoint run_ops (ops : list mutex_op) : M unit :=
  match ops with
  | [] => mret ()
  | op :: ops' => run_op op;; run_ops ops'
  end.
End mutex_impl.

(** The statistics of one category. *)
Definition stat_of (w : world) (order : Z) : mutex_stat :=
  default mutex_stat_init (mutex_stat_array w !! Z.to_nat order).

(** The held stack of a thread, empty before its first mutex operation. *)
Definition held_of {Attr : Attributes} (w : world) (tid : Z) : atomic_stack :=
  match thread_infos w !! tid with
  | Some info => mutexes_held_ info
  | None => atomic_stack_init mutex_stack_depth_
  end.

(** ** Sequences of stack operations *)

Inductive stack_op :=
  | op_push (item payload : Z)
  | op_remove (item : Z).

Definition run_stack_op (N : Z) (s : atomic_stack) (op : stack_op) : atomic_stack :=
  match op with
  | op_push item payload => push N s item payload
  | op_remove item => (remove s item).2
  end.

Definition run_stack_ops (N : Z) (ops : list stack_op) (s : atomic_stack) : atomic_stack :=
  foldl (run_stack_op N) s ops.

(** ** Vocabulary of the statements *)

(** The array has its [N] slots and the physical top lies within it. *)
Definition stack_wf (N : Z) (s : atomic_stack) : Prop :=
  length (pairs_ s) = Z.to_nat N ∧ 0 ≤ top_ s ≤ N.

(** The orders and the handles on a held stack, bottom first. *)
Definition orders (s : atomic_stack) : list Z := (items s).*2.
Definition handles (s : atomic_stack) : list Z := (items s).*1.

(** How [check_held] looks at one entry: it [conflicts] with the proposed
    acquisition (the entry is returned), or the scan [passes] it and goes
    on; an entry of lower order ends the scan. *)
Definition conflicts (mutex order : Z) (p : item_payload_pair_t) : Prop :=
  order < p.2 ∨ (p.2 = order ∧ p.1 = mutex).
Definition passes (mutex order : Z) (p : item_payload_pair_t) : Prop :=
  p.2 = order ∧ p.1 ≠ mutex.

(** An entry of strictly greater order, or of the proposed handle. *)
Definition flagged (mutex order : Z) (p : item_payload_pair_t) : Prop :=
  order < p.2 ∨ p.1 = mutex.

(** [item] sits in slot [i], and in no tracked slot above it. *)
Definition topmost_match (s : atomic_stack) (item i : Z) : Prop :=
  0 ≤ i < size s ∧ (at_ (pairs_ s) i).1 = item ∧
  ∀ j, i < j < size s → (at_ (pairs_ s) j).1 ≠ item.

(** [item] sits in no tracked slot. *)
Definition no_match (s : atomic_stack) (item : Z) : Prop :=
  ∀ j, 0 ≤ j < size s → (at_ (pairs_ s) j).1 ≠ item.

(** The invariant of the two counters, with a bound on the logical size
    that keeps [++true_top_] from wrapping. *)
Definition sizes_inv (N bound : Z) (s : atomic_stack) : Prop :=
  stack_wf N s ∧ top_ s ≤ true_top_ s ≤ bound.

(** The tids the registry copy has an entry for. *)
Definition registry_tids (registry_map : registry_map_t) : gset Z :=
  list_to_set registry_map.*1.

(** What an action may leave untouched: the native calls made so far, the
    statistics, the held stacks of all threads. *)
Definition same_log (w w' : world) : Prop := os_log w' = os_log w.
Definition same_stats (w w' : world) : Prop := mutex_stat_array w' = mutex_stat_array w.
Definition same_held {Attr : Attributes} (w w' : world) : Prop :=
  ∀ t, held_of w' t = held_of w t.

(** The held stacks after thread [tid] has had [g] applied to its own. *)
Definition held_updated {Attr : Attributes} (tid : Z)
    (g : atomic_stack → atomic_stack) (w w' : world) : Prop :=
  ∀ t, held_of w' t = if bool_decide (t = tid) then g (held_of w tid) else held_of w t.

(** The native calls an action makes when run from [w], oldest first. *)
Definition native_calls {A} (c : M A) (w : world) : list os_call :=
  drop (length (os_log w)) (os_log (world_of (c w))).

(** The [timespec] that [try_lock] hands to [pthread_mutex_timedlock]. *)
Definition deadline_timespec (timeout_ns now : Z) : timespec :=
  let deadline_ns := safe_add_sat timeout_ns now in
  {| tv_sec := deadline_ns `quot` 1000000000;
     tv_nsec := deadline_ns `rem` 1000000000 |}.

(** What the instrumentation keeps true of a held stack: the array and the
    physical top are in range, the orders of the tracked entries do not
    decrease from bottom to top, and no tracked handle is null. *)
Definition tracked_ok (N : Z) (s : atomic_stack) : Prop :=
  stack_wf N s ∧ 0 ≤ true_top_ s ≤ SIZE_MAX ∧
  (∀ j k, 0 ≤ j → j ≤ k → k < top_ s →
     (at_ (pairs_ s) j).2 ≤ (at_ (pairs_ s) k).2) ∧
  (∀ j, 0 ≤ j < top_ s → (at_ (pairs_ s) j).1 ≠ nullptr).

(** No tracked order exceeds [order]. *)
Definition fits (s : atomic_stack) (order : Z) : Prop :=
  ∀ j, 0 ≤ j < top_ s → (at_ (pairs_ s) j).2 ≤ order.

(** [tracked_ok], and no two tracked entries are the same pair. *)
Definition distinct_ok (N : Z) (s : atomic_stack) : Prop :=
  tracked_ok N s ∧
  ∀ j k, 0 ≤ j → j < k → k < top_ s → at_ (pairs_ s) j ≠ at_ (pairs_ s) k.

(** The held stack of every thread has the property [P]. *)
Definition world_ok {Attr : Attributes} (P : atomic_stack → Prop) (w : world) : Prop :=
  ∀ t, P (held_of w t).

(** What one operation that returns does to the record of its mutex's
    category when tracking is on: [lock] counts a wait (with its time) if the
    first attempt failed, then the lock; [unlock] counts the unlock;
    [try_lock] counts the lock if it got it, and with a positive timeout a
    wait whether it got it or not. *)
Definition stat_step (op : mutex_op) (st : mutex_stat) : mutex_stat :=
  match op with
  | op_lock _ _ e =>
      inc_locks
        (if try_lock_result e then st
         else add_wait_time (inc_waits st) (to_int64 (time_end e - time_begin e)))
  | op_unlock _ _ => inc_unlocks st
  | op_try_lock _ _ timeout_ns e =>
      if timeout_ns <=? 0 then
        if try_lock_result e then inc_locks st else st
      else if timedlock_result e =? 0 then
        inc_locks (add_wait_time (inc_waits st) (to_int64 (time_end e - time_begin e)))
      else inc_waits st
  end.

Definition mutex_of (op : mutex_op) : mutex :=
  match op with
  | op_lock _ m _ | op_unlock _ m | op_try_lock _ m _ _ => m
  end.

(** A [try_lock] with a positive timeout that expired. *)
Definition expired (op : mutex_op) : bool :=
  match op with
  | op_try_lock _ _ timeout_ns e => (0 <? timeout_ns) && negb (timedlock_result e =? 0)
  | _ => false
  end.

(** How many operations of a run expired on a mutex of the category. *)
Definition expired_in (order : Z) (ops : list mutex_op) : Z :=
  Z.of_nat (length (filter
    (λ op, expired op = true ∧ Z.to_nat (order_ (mutex_of op)) = Z.to_nat order) ops)).

(** The counters of a category after at most [n] operations, [expired_n] of
    which expired. *)
Definition counters_ok (n expired_n : Z) (st : mutex_stat) : Prop :=
  0 ≤ locks st ≤ n ∧ 0 ≤ waits st ≤ n ∧ waits st ≤ locks st + expired_n.

(** ** Runs of a stack against the handles really held *)

(** The handles a thread holds, counted or tracked: the logical size counts
    them all, the tracked handles are among them and pairwise different. *)
Definition tracks (N : Z) (held : gset Z) (s : atomic_stack) : Prop :=
  stack_wf N s ∧
  true_top_ s = Z.of_nat (base.size held) ∧
  NoDup (handles s) ∧
  ∀ h, h ∈ handles s → h ∈ held.

(** The handles held after a run in which every push is of a handle not
    held and every remove of a handle held; [None] for any other run. *)
Fixpoint held_after (held : gset Z) (ops : list stack_op) : option (gset Z) :=
  match ops with
  | [] => Some held
  | op_push item _ :: ops' =>
      if decide (item ∈ held) then None else held_after ({[item]} ∪ held) ops'
  | op_remove item :: ops' =>
      if decide (item ∈ held) then held_after (held ∖ {[item]}) ops' else None
  end.

(** What the calls of [remove] in a run return, in order. *)
Fixpoint remove_results (N : Z) (ops : list stack_op) (s : atomic_stack) : list bool :=
  match ops with
  | [] => []
  | op_push item payload :: ops' => remove_results N ops' (push N s item payload)
  | op_remove item :: ops' => (remove s item).1 :: remove_results N ops' (remove s item).2
  end.

(** ** The wait graph walked by [deadlock_detection] *)

Section wait_graph.
Variable mutex_names : list string.
Variable registry_map : registry_map_t.
Variable mutex_to_tid : gmap Z (Z * Z).

(** The edge leaving a descriptor, with the label it gets in the chain: to
    the thread the helper map gives as holder of the mutex the descriptor is
    blocked on, else to the thread its condition-variable, join or queue wait
    names. *)
Definition wait_edge (tinfo : thread_mutex_info) : option (Z * string) :=
  match (if mutex_wait_ tinfo =? nullptr then None
         else mutex_to_tid !! mutex_wait_ tinfo) with
  | Some (tid2, order) =>
      Some (tid2, chain_label mutex_names other_wait_reason_t.none order)
  | None =>
      let o := other_wait_info_ tinfo in
      if owi_tid_ o =? kInvalidTid then None
      else Some (owi_tid_ o, chain_label mutex_names (owi_reason_ o) (owi_order_ o))
  end.

(** The edge leaving a tid: none if the registry copy has no live descriptor
    for it. *)
Definition wait_edge_of (tid : Z) : option (Z * string) :=
  match tid_to_info registry_map tid with
  | Some tinfo => wait_edge tinfo
  | None => None
  end.

(** [c] is a walk along wait edges that starts at [tid]. *)
Fixpoint is_wait_path (tid : Z) (c : list (Z * string)) : Prop :=
  match c with
  | [] => True
  | e :: c' => wait_edge_of tid = Some e ∧ is_wait_path e.1 c'
  end.
End wait_graph.

(** The helper map [deadlock_detection] builds from a registry copy. *)
Definition helper_map (N : Z) (registry_map : registry_map_t) : gmap Z (Z * Z) :=
  (build_mutex_to_tid N registry_map (∅, false)).1.

(** The [subset] flag it computes on the way. *)
Definition helper_subset (N : Z) (registry_map : registry_map_t) : bool :=
  (build_mutex_to_tid N registry_map (∅, false)).2.

(** ** Condition variables, guards and wait scopes *)

Section scopes.
Context {Attr : Attributes}.

(** [explicit cv_wait_scoped_stat_enabled(mutex& m, pid_t notifier_tid =
    kInvalidTid)]; the disabled variant does nothing. *)
Definition cv_wait_scoped_stat_ctor (tid : Z) (m : mutex) (notifier_tid : Z) : M unit :=
  if mutex_tracking_enabled_ then
    update_stat m inc_unlocks;;
    (* metadata that we relinquish lock. *)
    info ← get_thread_mutex_info tid;
    let '(success, info) :=
      remove_held_for_cv info (handle_of m) (order_ m) notifier_tid in
    update_thread_mutex_info tid (λ _, info);;
    if abort_on_invalid_unlock_ && negb success then fatal else mret ()
  else mret ().

(** [~cv_wait_scoped_stat_enabled()] *)
Definition cv_wait_scoped_stat_dtor (tid : Z) (m : mutex) : M unit :=
  if mutex_tracking_enabled_ then
    update_stat m inc_locks;;
    (* metadata that we are reacquiring lock. *)
    update_thread_mutex_info tid
      (λ t, push_held_for_cv mutex_stack_depth_ t (handle_of m) (order_ m))
  else mret ().

(** [condition_variable::wait(unique_lock<Mutex>& lock, pid_t notifier_tid)]
    and its [wait_for] and [wait_until] variants: the scope object [ws] lives
    around [cv_.wait(lock.std_unique_lock())], which goes to the native
    condition variable and touches neither the statistics nor a
    descriptor. *)
Definition condition_variable_wait (tid : Z) (m : mutex) (notifier_tid : Z) : M unit :=
  cv_wait_scoped_stat_ctor tid m notifier_tid;;
  cv_wait_scoped_stat_dtor tid m.

(** [scoped_join_wait_check sjw(tid)] around [body]. *)
Definition scoped_join_wait_check {A} (tid waiting_tid : Z) (body : M A) : M A :=
  update_thread_mutex_info tid (λ t, add_wait_join t waiting_tid);;
  a ← body;
  update_thread_mutex_info tid remove_wait_join;;
  mret a.

(** [scoped_queue_wait_check sjw(tid)] around [body]. *)
Definition scoped_queue_wait_check {A} (tid waiting_tid : Z) (body : M A) : M A :=
  update_thread_mutex_info tid (λ t, add_wait_queue t waiting_tid);;
  a ← body;
  update_thread_mutex_info tid remove_wait_queue;;
  mret a.

(** [lock_guard l(m)] around [body]: the constructor locks, the destructor
    unlocks. *)
Definition lock_guard {A} (tid : Z) (m : mutex) (e : oracle) (body : M A) : M A :=
  lock tid m e;;
  a ← body;
  unlock tid m;;
  mret a.
End scopes.

(** The descriptor of a thread, as [get_thread_mutex_info()] hands it out:
    made on first use. *)
Definition info_of {Attr : Attributes} (w : world) (tid : Z) : thread_mutex_info :=
  default (thread_mutex_info_init mutex_stack_depth_ tid) (thread_infos w !! tid).

(** No descriptor changed; the descriptor of [tid] had [f] applied. *)
Definition same_infos {Attr : Attributes} (w w' : world) : Prop :=
  ∀ t, info_of w' t = info_of w t.
Definition info_updated {Attr : Attributes} (tid : Z)
    (f : thread_mutex_info → thread_mutex_info) (w w' : world) : Prop :=
  ∀ t, info_of w' t = if bool_decide (t = tid) then f (info_of w tid) else info_of w t.

(** What an operation that returns does to the descriptor of its thread
    when tracking is on. *)
Definition info_step {Attr : Attributes} (op : mutex_op)
    (t : thread_mutex_info) : thread_mutex_info :=
  match op with
  | op_lock _ m e =>
      push_held mutex_stack_depth_
        (if try_lock_result e then t else reset_waiter t nullptr)
        (handle_of m) (order_ m)
  | op_unlock _ m => (remove_held t (handle_of m)).2
  | op_try_lock _ m timeout_ns e =>
      if timeout_ns <=? 0 then
        if try_lock_result e
        then push_held mutex_stack_depth_ t (handle_of m) (order_ m) else t
      else if timedlock_result e =? 0 then
        push_held mutex_stack_depth_ (reset_waiter t nullptr) (handle_of m) (order_ m)
      else reset_waiter t nullptr
  end.

Definition tid_of (op : mutex_op) : Z :=
  match op with
  | op_lock tid _ _ | op_unlock tid _ | op_try_lock tid _ _ _ => tid
  end.

(** A registry copy that has the live descriptor of every thread of the
    process and nothing else. *)
Definition registry_copy_of (w : world) (registry_map : registry_map_t) : Prop :=
  ∀ tid, tid_to_info registry_map tid = thread_infos w !! tid.

(** A descriptor that says its thread waits for nothing. *)
Definition quiet (t : thread_mutex_info) : Prop :=
  mutex_wait_ t = nullptr ∧ owi_tid_ (other_wait_info_ t) = kInvalidTid.

(** ** Counting the operations of a run *)

(** Whether an operation that returned got the mutex, released it, built a
    [lock_scoped_stat_t] (which counts a wait). *)
Definition acquired (op : mutex_op) : bool :=
  match op with
  | op_lock _ _ _ => true
  | op_unlock _ _ => false
  | op_try_lock _ _ timeout_ns e =>
      if timeout_ns <=? 0 then try_lock_result e else timedlock_result e =? 0
  end.

Definition released (op : mutex_op) : bool :=
  match op with
  | op_unlock _ _ => true
  | _ => false
  end.

Definition waited (op : mutex_op) : bool :=
  match op with
  | op_lock _ _ e => negb (try_lock_result e)
  | op_unlock _ _ => false
  | op_try_lock _ _ timeout_ns _ => 0 <? timeout_ns
  end.

(** How many operations of a run on a mutex of the category satisfy [p]. *)
Definition count_in (p : mutex_op → bool) (order : Z) (ops : list mutex_op) : Z :=
  Z.of_nat (length (filter
    (λ op, p op = true ∧ Z.to_nat (order_ (mutex_of op)) = Z.to_nat order) ops)).

(** ** Threads blocked in [lock] *)

(** [lock()] up to where the thread sits in [m_.lock()]: the first attempt
    has failed, the scope object [ls] is built and the blocking call is
    made; [lock()] goes on from here when that call returns. *)
Definition lock_blocked {Attr : Attributes} (tid : Z) (m : mutex) (e : oracle)
    : M lock_scoped_stat_t :=
  pre_lock tid m;;
  native (std_mutex_try_lock (handle_of m));;
  ls ← lock_scoped_stat_ctor tid m e;
  native (std_mutex_lock (handle_of m));;
  mret ls.

(** A registry copy taken in [w]: every live entry is the descriptor of its
    thread, and the threads of [live] have a live entry. *)
Definition snapshot_of {Attr : Attributes} (w : world) (registry_map : registry_map_t)
    (live : list Z) : Prop :=
  (∀ t info, (t, Some info) ∈ registry_map → info = info_of w t) ∧
  (∀ t, t ∈ live → tid_to_info registry_map t = Some (info_of w t)).

(** * audio_utils/FdToString.h: the reader task of [createWriter] *)

Module FdToString.

(** ['\n'] *)
Definition newline : Ascii.ascii := Ascii.ascii_of_nat 10.

(** [sv.find(c, 0)]; [None] stands for [npos]. *)
Fixpoint find (sv : list Ascii.ascii) (c : Ascii.ascii) : option nat :=
  match sv with
  | [] => None
  | x :: sv' => if decide (x = c) then Some 0%nat else S <$> find sv' c
  end.

(** The locals of the reader that live across its rounds. *)
Record reader := mk_reader {
  out : list Ascii.ascii;
  requiresPrefix : bool;
}.

(** [while ((ind = sv.find('\n', 0)) != npos)], with [fuel] rounds at
    most; each round shortens [sv]. *)
Fixpoint prefix_loop (fuel : nat) (prefix sv : list Ascii.ascii) (r : reader)
    : list Ascii.ascii * reader :=
  match fuel with
  | O => (sv, r)
  | S fuel' =>
      match find sv newline with
      | None => (sv, r)
      | Some ind =>
          let out1 := if requiresPrefix r then out r ++ prefix else out r in
          let out2 := out1 ++ take (ind + 1)%nat sv in
          prefix_loop fuel' prefix (drop (ind + 1)%nat sv)
            {| out := out2; requiresPrefix := true |}
      end
  end.

(** What a round does with the [red > 0] bytes it has read. *)
Definition on_data (prefix sv : list Ascii.ascii) (r : reader) : reader :=
  if negb (bool_decide (prefix = [])) then
    let '(sv, r) := prefix_loop (length sv) prefix sv r in
    if (0 <? length sv)%nat
    then {| out := out r ++ sv; requiresPrefix := false |}
    else r
  else {| out := out r ++ sv; requiresPrefix := requiresPrefix r |}.

(** The reader, on what the successive calls of [read] deliver until the
    loop breaks (deadline reached, [poll] failing or timing out, [read]
    failing): a round that reads nothing goes on to the next. *)
Definition reader_task (prefix : list Ascii.ascii) (reads : list (list Ascii.ascii))
    : list Ascii.ascii :=
  out (foldl (λ r sv, if (length sv =? 0)%nat then r else on_data prefix sv r)
             {| out := []; requiresPrefix := true |} reads).

(** The text of lines, each with its newline; and the same with [prefix]
    before each line, the first only if [first] says so. *)
Definition unlines (ls : list (list Ascii.ascii)) : list Ascii.ascii :=
  concat ((λ l, l ++ [newline]) <$> ls).

Fixpoint prefixed (prefix : list Ascii.ascii) (first : bool)
    (ls : list (list Ascii.ascii)) : list Ascii.ascii :=
  match ls with
  | [] => []
  | l :: ls' =>
      (if first then prefix else []) ++ l ++ [newline] ++ prefixed prefix true ls'
  end.
End FdToString.

(** * Properties *)

(** ** Machine integers *)

Lemma to_size_t_id z : 0 ≤ z ≤ SIZE_MAX → to_size_t z = z.
Proof. unfold to_size_t, SIZE_MAX, size_modulus. intros. apply Z.mod_small. lia. Qed.

Lemma to_uint64_id z : 0 ≤ z ≤ SIZE_MAX → to_uint64 z = z.
Proof. apply to_size_t_id. Qed.

Lemma to_ssize_t_id z : INT64_MIN ≤ z ≤ INT64_MAX → to_ssize_t z = z.
Proof.
  unfold to_ssize_t, INT64_MIN, INT64_MAX, size_modulus. intros.
  rewrite Z.mod_small; lia.
Qed.

Lemma safe_add_sat_exact a b :
  INT64_MIN ≤ a + b ≤ INT64_MAX → safe_add_sat a b = a + b.
Proof.
  unfold safe_add_sat. intros.
  destruct (Z.ltb_spec INT64_MAX (a + b)); [lia|].
  destruct (Z.ltb_spec (a + b) INT64_MIN); [lia|done].
Qed.

Lemma safe_add_sat_range a b : INT64_MIN ≤ safe_add_sat a b ≤ INT64_MAX.
Proof.
  unfold safe_add_sat.
  destruct (Z.ltb_spec INT64_MAX (a + b)); [unfold INT64_MIN, INT64_MAX; lia|].
  destruct (Z.ltb_spec (a + b) INT64_MIN); [unfold INT64_MIN, INT64_MAX; lia|lia].
Qed.

(** ** atomic_stack *)

Lemma at_insert_eq pairs i p :
  0 ≤ i → (Z.to_nat i < length pairs)%nat → at_ (<[Z.to_nat i := p]> pairs) i = p.
Proof. intros. unfold at_. by rewrite list_lookup_insert_eq. Qed.

Lemma at_insert_ne pairs i j p :
  0 ≤ i → 0 ≤ j → i ≠ j → at_ (<[Z.to_nat i := p]> pairs) j = at_ pairs j.
Proof. intros. unfold at_. rewrite list_lookup_insert_ne; [done|lia]. Qed.

Lemma atomic_stack_init_wf N : 0 ≤ N → stack_wf N (atomic_stack_init N).
Proof. intros. split; simpl; [by rewrite length_replicate|lia]. Qed.

Lemma items_lookup s i :
  0 ≤ i < top_ s → (Z.to_nat (top_ s) ≤ length (pairs_ s))%nat →
  items s !! Z.to_nat i = Some (at_ (pairs_ s) i).
Proof.
  intros Hi Hlen. unfold items, at_.
  rewrite lookup_take_lt by lia.
  destruct (pairs_ s !! Z.to_nat i) eqn:E; [done|].
  apply lookup_ge_None in E. lia.
Qed.

Section push_facts.
Context (N : Z).

(** What [push] does below capacity. *)
Lemma push_below s item payload :
  0 ≤ top_ s < N → N ≤ SIZE_MAX → 0 ≤ true_top_ s < SIZE_MAX →
  push N s item payload =
    {| pairs_ := <[Z.to_nat (top_ s) := (item, payload)]> (pairs_ s);
       true_top_ := true_top_ s + 1;
       top_ := top_ s + 1 |}.
Proof.
  intros Ht HN Htt. unfold push.
  destruct (Z.leb_spec N (top_ s)); [lia|].
  rewrite !to_size_t_id by lia. done.
Qed.

(** What [push] does at capacity. *)
Lemma push_full s item payload :
  top_ s = N → 0 < N ≤ SIZE_MAX → 0 ≤ true_top_ s < SIZE_MAX →
  push N s item payload =
    {| pairs_ := <[Z.to_nat (N - 1) := (item, payload)]> (pairs_ s);
       true_top_ := true_top_ s + 1;
       top_ := N |}.
Proof.
  intros Ht HN Htt. unfold push.
  destruct (Z.leb_spec N (top_ s)); [|lia].
  rewrite Ht, Z.add_0_r, !to_size_t_id by lia. done.
Qed.
End push_facts.

(** C3. On a stack whose physical size already equals the capacity [N],
    [push(handle, order)] stores the pair in slot [N - 1], replacing the
    topmost entry, leaves every other slot and the physical top [N] as they
    were, and adds one to the logical size. On a stack whose physical size is
    below [N] it stores the pair at the physical top and adds one to both
    sizes. (The capacity is a positive [size_t] and the logical size is below
    [SIZE_MAX], so that adding one does not wrap.) *)
Theorem push_capacity_behaviour (N : Z) (s : atomic_stack) (item payload : Z) :
  0 < N ≤ SIZE_MAX → stack_wf N s → 0 ≤ true_size s < SIZE_MAX →
  let s' := push N s item payload in
  (size s = capacity N →
     at_ (pairs_ s') (N - 1) = (item, payload) ∧
     (∀ j, 0 ≤ j → j ≠ N - 1 → at_ (pairs_ s') j = at_ (pairs_ s) j) ∧
     size s' = N ∧
     true_size s' = true_size s + 1) ∧
  (size s < capacity N →
     at_ (pairs_ s') (size s) = (item, payload) ∧
     (∀ j, 0 ≤ j → j ≠ size s → at_ (pairs_ s') j = at_ (pairs_ s) j) ∧
     size s' = size s + 1 ∧
     true_size s' = true_size s + 1).
Proof.
  intros HN [Hlen Htop] Htt s'. subst s'. unfold size, true_size, capacity in *.
  split; intros Hs.
  - rewrite push_full by (done || lia). simpl.
    split_and!; [apply at_insert_eq; lia| |done|done].
    intros j Hj Hne. apply at_insert_ne; lia.
  - rewrite push_below by (done || lia). simpl.
    split_and!; [apply at_insert_eq; lia| |done|done].
    intros j Hj Hne. apply at_insert_ne; lia.
Qed.

Lemma push_capacity_behaviour_witness :
  let s := run_stack_ops 2 [op_push 11 3; op_push 12 5] (atomic_stack_init 2) in
  let s' := push 2 s 13 7 in
  (size s = capacity 2 →
     at_ (pairs_ s') (2 - 1) = (13, 7) ∧
     (∀ j, 0 ≤ j → j ≠ 2 - 1 → at_ (pairs_ s') j = at_ (pairs_ s) j) ∧
     size s' = 2 ∧
     true_size s' = true_size s + 1) ∧
  (size s < capacity 2 →
     at_ (pairs_ s') (size s) = (13, 7) ∧
     (∀ j, 0 ≤ j → j ≠ size s → at_ (pairs_ s') j = at_ (pairs_ s) j) ∧
     size s' = size s + 1 ∧
     true_size s' = true_size s + 1).
Proof.
  apply (push_capacity_behaviour 2
           (run_stack_ops 2 [op_push 11 3; op_push 12 5] (atomic_stack_init 2)) 13 7).
  - unfold SIZE_MAX, size_modulus. lia.
  - split; vm_compute; [reflexivity|split; discriminate].
  - vm_compute. split; [discriminate|reflexivity].
Defined.

Lemma remove_on_logically_empty_aux s item :
  true_top_ s = 0 → remove s item = (false, s).
Proof. unfold remove. by intros ->. Qed.

(** C10. On a stack whose logical size is zero, [remove(handle)] returns
    false for any handle and hands the stack back as it was: physical size,
    logical size and every stored entry. *)
Theorem remove_on_logically_empty (s : atomic_stack) (item : Z) :
  true_size s = 0 → remove s item = (false, s).
Proof. unfold true_size. apply remove_on_logically_empty_aux. Qed.

Lemma remove_on_logically_empty_witness :
  true_size (atomic_stack_init 16) = 0 ∧
  remove (atomic_stack_init 16) 4242 = (false, atomic_stack_init 16).
Proof.
  split; [reflexivity|].
  apply (remove_on_logically_empty (atomic_stack_init 16) 4242). reflexivity.
Defined.

(** *** The two loops of [remove] *)

(** The scan stops at the highest slot below [i] holding [item]. *)
Lemma remove_scan_Some pairs item fuel k :
  remove_scan pairs item (Z.of_nat fuel) fuel = Some k →
  0 ≤ k < Z.of_nat fuel ∧ (at_ pairs k).1 = item ∧
  ∀ j, k < j < Z.of_nat fuel → (at_ pairs j).1 ≠ item.
Proof.
  induction fuel as [|fuel IH]; simpl; [done|].
  replace (Z.of_nat (S fuel) - 1) with (Z.of_nat fuel) by lia.
  destruct (Z.eqb_spec (at_ pairs (Z.of_nat fuel)).1 item) as [Heq|Hne].
  - intros [= <-]. split_and!; [lia|lia|done|]. intros j Hj. lia.
  - intros Hk. destruct (IH Hk) as (Hr & Hm & Habove).
    split_and!; [lia|lia|done|]. intros j Hj.
    destruct (decide (j = Z.of_nat fuel)) as [->|]; [done|]. apply Habove. lia.
Qed.

Lemma remove_scan_None pairs item fuel :
  remove_scan pairs item (Z.of_nat fuel) fuel = None →
  ∀ j, 0 ≤ j < Z.of_nat fuel → (at_ pairs j).1 ≠ item.
Proof.
  induction fuel as [|fuel IH]; simpl; [intros _ j Hj; lia|].
  replace (Z.of_nat (S fuel) - 1) with (Z.of_nat fuel) by lia.
  destruct (Z.eqb_spec (at_ pairs (Z.of_nat fuel)).1 item) as [Heq|Hne]; [done|].
  intros Hk j Hj.
  destruct (decide (j = Z.of_nat fuel)) as [->|]; [done|]. apply (IH Hk). lia.
Qed.

(** A scan that is bound to succeed does. *)
Lemma remove_scan_found pairs item fuel k :
  0 ≤ k < Z.of_nat fuel → (at_ pairs k).1 = item →
  (∀ j, k < j < Z.of_nat fuel → (at_ pairs j).1 ≠ item) →
  remove_scan pairs item (Z.of_nat fuel) fuel = Some k.
Proof.
  intros Hk Hm Habove.
  destruct (remove_scan pairs item (Z.of_nat fuel) fuel) as [k'|] eqn:E.
  - apply remove_scan_Some in E as (Hk' & Hm' & Habove').
    f_equal. destruct (Z.lt_trichotomy k k') as [Hlt|[->|Hgt]]; [|done|].
    + by destruct (Habove k' ltac:(lia)).
    + by destruct (Habove' k ltac:(lia)).
  - by destruct (remove_scan_None _ _ _ E k Hk).
Qed.

(** The shift moves the slots [(i, limit]] down by one and leaves the
    others, the old slot [limit] included. *)
Lemma shift_down_spec fuel : ∀ pairs i limit,
  0 ≤ i → fuel = Z.to_nat (limit - i) → (Z.to_nat limit < length pairs)%nat →
  let pairs' := shift_down pairs i limit fuel in
  length pairs' = length pairs ∧
  ∀ j, 0 ≤ j →
    at_ pairs' j = if (i <=? j) && (j <? limit) then at_ pairs (j + 1) else at_ pairs j.
Proof.
  induction fuel as [|fuel IH]; intros pairs i limit Hi Hfuel Hlen; simpl.
  - split; [done|]. intros j Hj.
    destruct (Z.leb_spec i j), (Z.ltb_spec j limit); simpl; try done. lia.
  - destruct (Z.ltb_spec i limit) as [Hlt|]; [|lia].
    destruct (IH (<[Z.to_nat i := at_ pairs (i + 1)]> pairs) (i + 1) limit)
      as [Hlen' Hat]; [lia|lia|by rewrite length_insert|].
    rewrite length_insert in Hlen'. split; [done|].
    intros j Hj. rewrite (Hat j Hj).
    destruct (Z.leb_spec (i + 1) j), (Z.ltb_spec j limit),
             (Z.leb_spec i j); simpl; try lia; try (apply at_insert_ne; lia).
    assert (j = i) as -> by lia. apply at_insert_eq; lia.
Qed.

(** *** [remove]: the three ways out *)

Section remove_facts.
Context (N : Z) (s : atomic_stack) (item : Z).
Hypothesis HN : N ≤ SIZE_MAX.
Hypothesis Hwf : stack_wf N s.
Hypothesis Htt : 0 < true_size s ≤ SIZE_MAX.

Lemma remove_found i :
  topmost_match s item i →
  remove s item =
    (true, {| pairs_ := shift_down (pairs_ s) i (top_ s - 1) (Z.to_nat (top_ s - 1 - i));
              top_ := top_ s - 1;
              true_top_ := true_top_ s - 1 |}).
Proof using HN Hwf Htt.
  destruct Hwf as [Hlen Htop].
  intros (Hi & Hm & Habove). unfold true_size, size, remove in *.
  destruct (Z.eqb_spec (true_top_ s) 0); [lia|].
  rewrite <- (Z2Nat.id (top_ s)) at 1 by lia.
  rewrite (remove_scan_found _ _ _ i) by (rewrite ?Z2Nat.id; (done || lia)).
  rewrite !to_size_t_id by lia. done.
Qed.

Lemma remove_not_found :
  no_match s item →
  remove s item =
    if top_ s <? true_top_ s
    then (true, {| pairs_ := pairs_ s; top_ := top_ s; true_top_ := true_top_ s - 1 |})
    else (false, {| pairs_ := pairs_ s; top_ := top_ s; true_top_ := top_ s |}).
Proof using HN Hwf Htt.
  destruct Hwf as [Hlen Htop].
  intros Hno. unfold true_size, size, remove in *.
  destruct (Z.eqb_spec (true_top_ s) 0); [lia|].
  destruct (remove_scan (pairs_ s) item (top_ s) (Z.to_nat (top_ s))) as [k|] eqn:E.
  - rewrite <- (Z2Nat.id (top_ s)) in E at 1 by lia.
    apply remove_scan_Some in E as (Hk & Hm & _).
    destruct (Hno k); [unfold size; lia|done].
  - rewrite !to_size_t_id by lia.
    destruct (Z.leb_spec (top_ s) (true_top_ s - 1)), (Z.ltb_spec (top_ s) (true_top_ s));
      (done || lia).
Qed.

(** One of the two always applies. *)
Lemma match_or_not : (∃ i, topmost_match s item i) ∨ no_match s item.
Proof using Hwf.
  destruct Hwf as [Hlen Htop]. unfold topmost_match, no_match, size.
  destruct (remove_scan (pairs_ s) item (top_ s) (Z.to_nat (top_ s))) as [k|] eqn:E;
    rewrite <- (Z2Nat.id (top_ s)) in E at 1 by lia.
  - left. exists k. apply remove_scan_Some in E. rewrite Z2Nat.id in E by lia. done.
  - right. intros j Hj. apply (remove_scan_None _ _ _ E). lia.
Qed.
End remove_facts.

(** C4. On a stack that is not logically empty, [remove(handle)] looks for
    the handle from the physical top downward.
    - If slot [i] is the topmost match: every entry above [i] moves down one
      slot (entries below [i] stay), both sizes drop by one, and the result is
      true.
    - If no tracked slot matches: the entries and the physical size stay; the
      result is true exactly when the logical size exceeded the physical size
      (the logical size then drops by one), and otherwise the result is false
      and the logical size is set to the physical size. *)
Theorem remove_behaviour (N : Z) (s : atomic_stack) (item : Z) :
  N ≤ SIZE_MAX → stack_wf N s → 0 < true_size s ≤ SIZE_MAX →
  let r := (remove s item).1 in
  let s' := (remove s item).2 in
  (∀ i, topmost_match s item i →
     r = true ∧
     size s' = size s - 1 ∧
     true_size s' = true_size s - 1 ∧
     (∀ j, 0 ≤ j < i → at_ (pairs_ s') j = at_ (pairs_ s) j) ∧
     (∀ j, i ≤ j < size s - 1 → at_ (pairs_ s') j = at_ (pairs_ s) (j + 1))) ∧
  (no_match s item →
     r = bool_decide (size s < true_size s) ∧
     pairs_ s' = pairs_ s ∧
     size s' = size s ∧
     true_size s' = (if r then true_size s - 1 else size s)).
Proof.
  intros HN Hwf Htt r s'. subst r s'. split.
  - intros i Hi. rewrite (remove_found N s item HN Hwf Htt i Hi). simpl.
    destruct Hwf as [Hlen Htop]. destruct Hi as (Hi & _). unfold size, true_size in *.
    destruct (shift_down_spec (Z.to_nat (top_ s - 1 - i)) (pairs_ s) i (top_ s - 1))
      as [_ Hat]; [lia|done|lia|].
    split_and!; [done|done|done| |].
    + intros j Hj. rewrite Hat by lia.
      destruct (Z.leb_spec i j); [lia|done].
    + intros j Hj. rewrite Hat by lia.
      destruct (Z.leb_spec i j), (Z.ltb_spec j (top_ s - 1)); simpl; (done || lia).
  - intros Hno. rewrite (remove_not_found N s item HN Hwf Htt Hno).
    unfold size, true_size.
    destruct (Z.ltb_spec (top_ s) (true_top_ s)); simpl.
    + by rewrite bool_decide_eq_true_2.
    + by rewrite bool_decide_eq_false_2 by lia.
Qed.

Lemma remove_behaviour_witness :
  let s := run_stack_ops 2 [op_push 11 3; op_push 12 5; op_push 13 7] (atomic_stack_init 2) in
  (remove s 11).1 = true ∧
  size (remove s 11).2 = size s - 1 ∧
  true_size (remove s 11).2 = true_size s - 1 ∧
  at_ (pairs_ (remove s 11).2) 0 = at_ (pairs_ s) 1.
Proof.
  intros s.
  destruct (remove_behaviour 2 s 11) as [Hfound _].
  - unfold SIZE_MAX, size_modulus. lia.
  - split; vm_compute; [reflexivity|split; discriminate].
  - vm_compute. split; [reflexivity|discriminate].
  - destruct (Hfound 0) as (Hr & Hsz & Htsz & _ & Hshift).
    + split_and!; [lia|reflexivity|reflexivity|].
      intros j Hj. change (size s) with 2 in Hj.
      assert (j = 1) as -> by lia. vm_compute. discriminate.
    + split_and!; [done|done|done|]. apply (Hshift 0). vm_compute. split; [discriminate|reflexivity].
Defined.

(** *** The sizes along a run *)

Lemma push_sizes_inv N bound s item payload :
  0 < N ≤ SIZE_MAX → bound < SIZE_MAX →
  sizes_inv N bound s → sizes_inv N (bound + 1) (push N s item payload).
Proof.
  intros HN Hb [[Hlen Htop] Htt].
  destruct (decide (top_ s = N)) as [Heq|Hne].
  - rewrite push_full by lia. repeat split; simpl; rewrite ?length_insert; lia.
  - rewrite push_below by lia. repeat split; simpl; rewrite ?length_insert; lia.
Qed.

Lemma remove_sizes_inv N bound s item :
  N ≤ SIZE_MAX → bound ≤ SIZE_MAX →
  sizes_inv N bound s → sizes_inv N bound (remove s item).2.
Proof.
  intros HN Hb [Hwf Htt].
  destruct (decide (true_top_ s = 0)) as [Hz|Hnz].
  { by rewrite remove_on_logically_empty_aux. }
  assert (0 < true_size s ≤ SIZE_MAX) as Hpos.
  { unfold true_size. destruct Hwf as [_ ?]. lia. }
  destruct (match_or_not N s item Hwf) as [[i Hi]|Hno].
  - rewrite (remove_found N s item HN Hwf Hpos i Hi). simpl.
    destruct Hwf as [Hlen Htop]. destruct Hi as (Hi & _). unfold size in Hi.
    destruct (shift_down_spec (Z.to_nat (top_ s - 1 - i)) (pairs_ s) i (top_ s - 1))
      as [Hlen' _]; [lia|done|lia|].
    repeat split; simpl; lia.
  - rewrite (remove_not_found N s item HN Hwf Hpos Hno).
    destruct Hwf as [Hlen Htop].
    destruct (Z.ltb_spec (top_ s) (true_top_ s)); repeat split; simpl; lia.
Qed.

Lemma run_stack_ops_sizes_inv N ops : ∀ bound s,
  0 < N ≤ SIZE_MAX → bound + Z.of_nat (length ops) ≤ SIZE_MAX →
  sizes_inv N bound s →
  sizes_inv N (bound + Z.of_nat (length ops)) (run_stack_ops N ops s).
Proof.
  unfold run_stack_ops.
  induction ops as [|op ops IH]; intros bound s HN Hb Hinv; simpl.
  - by rewrite Z.add_0_r.
  - simpl length in Hb.
    replace (bound + Z.of_nat (S (length ops)))
      with ((bound + 1) + Z.of_nat (length ops)) by lia.
    apply IH; [done|lia|].
    destruct op as [item payload|item]; simpl.
    + apply push_sizes_inv; [done|lia|done].
    + destruct (remove_sizes_inv N bound s item) as [Hwf Htt]; [lia|lia|done|].
      split; [done|lia].
Qed.

(** C9. Along every run of [push] and [remove] on a stack that starts
    empty, after each completed operation the logical size is at least the
    physical size and the physical size is at most the capacity [N]. (The
    run is shorter than 2^64 operations, so [++true_top_] never wraps.) *)
Theorem sizes_invariant (N : Z) (ops : list stack_op) (k : nat) :
  0 < N ≤ SIZE_MAX → Z.of_nat (length ops) ≤ SIZE_MAX →
  let s := run_stack_ops N (take k ops) (atomic_stack_init N) in
  size s ≤ true_size s ∧ size s ≤ capacity N.
Proof.
  intros HN Hlen s.
  destruct (run_stack_ops_sizes_inv N (take k ops) 0 (atomic_stack_init N))
    as [[_ Htop] Htt]; [done| | |].
  - rewrite length_take. lia.
  - split; [by apply atomic_stack_init_wf; lia|simpl; lia].
  - unfold size, true_size, capacity. fold s in Htop, Htt. lia.
Qed.

Lemma sizes_invariant_witness :
  let ops := [op_push 11 3; op_push 12 5; op_push 13 7; op_remove 12; op_remove 11] in
  let s := run_stack_ops 2 (take 4 ops) (atomic_stack_init 2) in
  size s ≤ true_size s ∧ size s ≤ capacity 2.
Proof.
  apply (sizes_invariant 2
           [op_push 11 3; op_push 12 5; op_push 13 7; op_remove 12; op_remove 11] 4).
  - unfold SIZE_MAX, size_modulus. lia.
  - unfold SIZE_MAX, size_modulus. simpl. lia.
Defined.

(** ** deadlock_detection *)

Lemma tid_to_info_registered registry_map tid tinfo :
  tid_to_info registry_map tid = Some tinfo → tid ∈ registry_tids registry_map.
Proof.
  unfold tid_to_info, registry_tids.
  destruct (list_find _ registry_map) as [[i [tid' weak]]|] eqn:E; [|done].
  intros _. apply list_find_Some in E as (Hl & Htid & _). simpl in Htid. subst tid'.
  apply elem_of_list_to_set, list_elem_of_fmap.
  exists (tid, weak). split; [done|]. by eapply list_elem_of_lookup_2.
Qed.

(** The traversal returns: each round that goes on marks a registered tid
    that was not marked before. *)
Lemma traverse_returns mutex_names registry_map mutex_to_tid fuel :
  ∀ visited m other_wait_tid other_wait_reason other_wait_order deadlock_info,
  (base.size (registry_tids registry_map ∖ visited) < fuel)%nat →
  is_Some (traverse mutex_names fuel registry_map mutex_to_tid visited
             m other_wait_tid other_wait_reason other_wait_order deadlock_info).
Proof.
  induction fuel as [|fuel IH]; intros visited m owt owr owo info Hsize; [lia|].
  assert (∀ tid2 order reason info',
    is_Some (if decide (tid2 ∈ visited)
             then Some (set_has_cycle (push_chain info' (tid2, chain_label mutex_names reason order)) true)
             else match tid_to_info registry_map tid2 with
                  | None => Some (push_chain info' (tid2, chain_label mutex_names reason order))
                  | Some tinfo =>
                      traverse mutex_names fuel registry_map mutex_to_tid ({[tid2]} ∪ visited)
                        (mutex_wait_ tinfo) (owi_tid_ (other_wait_info_ tinfo))
                        (owi_reason_ (other_wait_info_ tinfo))
                        (owi_order_ (other_wait_info_ tinfo))
                        (push_chain info' (tid2, chain_label mutex_names reason order))
                  end)) as Hstep.
  { intros tid2 order reason info'.
    destruct (decide (tid2 ∈ visited)) as [Hin|Hnotin]; [by eexists|].
    destruct (tid_to_info registry_map tid2) as [tinfo|] eqn:E; [|by eexists].
    apply IH. apply tid_to_info_registered in E.
    assert (registry_tids registry_map ∖ ({[tid2]} ∪ visited)
              ⊂ registry_tids registry_map ∖ visited) as Hsub.
    { split.
      - intros x [Hx Hnot]%elem_of_difference. apply elem_of_difference.
        split; [done|]. intros Hv. apply Hnot, elem_of_union. by right.
      - intros Hsup. specialize (Hsup tid2).
        rewrite !elem_of_difference, elem_of_union, elem_of_singleton in Hsup.
        destruct Hsup as [_ Hnot]; [done|]. apply Hnot. by left. }
    apply subset_size in Hsub. lia. }
  cbn [traverse].
  destruct (if m =? nullptr then None else mutex_to_tid !! m) as [[tid2 order]|].
  - exact (Hstep tid2 order other_wait_reason_t.none info).
  - destruct (negb (owt =? kInvalidTid)); [|by eexists].
    exact (Hstep owt owo owr (set_other_wait_reason info owr)).
Qed.

(** [deadlock_detection] returns on every registry copy and every tid. *)
Lemma deadlock_detection_returns N mutex_names registry_map tid :
  is_Some (deadlock_detection N mutex_names registry_map tid).
Proof.
  unfold deadlock_detection.
  destruct (tid_to_info registry_map tid) as [tinfo|] eqn:E; [|by eexists].
  destruct (_ && _); [by eexists|].
  destruct (build_mutex_to_tid N registry_map (∅, false)) as [mutex_to_tid subset].
  apply traverse_returns.
  pose proof (subseteq_size (registry_tids registry_map ∖ {[tid]}) (registry_tids registry_map)
                (subseteq_difference_l _ _ _ (reflexivity _))) as Hle.
  assert (base.size (registry_tids registry_map) ≤ length registry_map)%nat; [|lia].
  unfold registry_tids. clear.
  induction registry_map as [|[t i] l IH].
  { change (base.size (∅ : gset Z) ≤ 0)%nat. by rewrite size_empty. }
  change (base.size ({[t]} ∪ list_to_set l.*1 : gset Z) ≤ S (length l))%nat.
  pose proof (size_union_alt ({[t]} : gset Z) (list_to_set l.*1)) as Hu.
  pose proof (subseteq_size (list_to_set l.*1 ∖ {[t]} : gset Z) (list_to_set l.*1)
                (subseteq_difference_l _ _ _ (reflexivity _))).
  rewrite size_singleton in Hu. lia.
Qed.

(** C8. When the descriptor of the target thread exists and has a null
    waiting handle and an invalid auxiliary-wait tid, [deadlock_detection]
    returns a [deadlock_info_t] with an empty chain and [has_cycle = false]
    (the freshly constructed record for that tid). *)
Theorem deadlock_detection_not_waiting (N : Z) (mutex_names : list string)
    (registry_map : registry_map_t) (tid : Z) (tinfo : thread_mutex_info) :
  tid_to_info registry_map tid = Some tinfo →
  mutex_wait_ tinfo = nullptr →
  owi_tid_ (other_wait_info_ tinfo) = kInvalidTid →
  ∃ deadlock_info,
    deadlock_detection N mutex_names registry_map tid = Some deadlock_info ∧
    chain deadlock_info = [] ∧
    has_cycle deadlock_info = false ∧
    deadlock_info = deadlock_info_init tid.
Proof.
  intros Hinfo Hm Hother. exists (deadlock_info_init tid).
  unfold deadlock_detection. rewrite Hinfo, Hm, Hother. done.
Qed.

Lemma deadlock_detection_not_waiting_witness :
  let idle := push_held 16 (thread_mutex_info_init 16 7) 4096 13 in
  let blocked := reset_waiter (thread_mutex_info_init 16 8) 4096 in
  ∃ deadlock_info,
    deadlock_detection 16 gMutexNames [(8, Some blocked); (7, Some idle)] 7
      = Some deadlock_info ∧
    chain deadlock_info = [] ∧
    has_cycle deadlock_info = false ∧
    deadlock_info = deadlock_info_init 7.
Proof.
  intros idle blocked.
  apply (deadlock_detection_not_waiting 16 gMutexNames
           [(8, Some blocked); (7, Some idle)] 7 idle); reflexivity.
Defined.

(** ** check_held *)

Lemma StronglySorted_lookup {A} (R : relation A) l i j x y :
  StronglySorted R l → l !! i = Some x → l !! j = Some y → (i < j)%nat → R x y.
Proof.
  intros Hs. revert i j. induction Hs as [|a l Hs IH Hall]; intros i j Hi Hj Hlt; [done|].
  destruct j as [|j]; [lia|]. destruct i as [|i]; simpl in *.
  - injection Hi as ->. rewrite Forall_lookup in Hall. by eapply Hall.
  - eapply IH; [done..|lia].
Qed.

Lemma StronglySorted_of_lookup {A} (R : relation A) l :
  (∀ i j x y, l !! i = Some x → l !! j = Some y → (i < j)%nat → R x y) →
  StronglySorted R l.
Proof.
  induction l as [|a l IH]; intros H; constructor.
  - apply IH. intros i j x y Hi Hj Hlt. apply (H (S i) (S j)); [done|done|lia].
  - apply Forall_lookup. intros i x Hi. apply (H 0%nat (S i)); [done|done|lia].
Qed.

Section held_stack_facts.
Context (N : Z) (s : atomic_stack).
Hypothesis Hwf : stack_wf N s.

Lemma elem_of_items p :
  p ∈ items s ↔ ∃ j, 0 ≤ j < top_ s ∧ at_ (pairs_ s) j = p.
Proof using Hwf.
  destruct Hwf as [Hlen Htop]. split.
  - intros [i Hi]%list_elem_of_lookup_1.
    assert (i < Z.to_nat (top_ s))%nat as Hlt.
    { apply lookup_lt_Some in Hi. unfold items in Hi. rewrite length_take in Hi. lia. }
    exists (Z.of_nat i). split; [lia|].
    rewrite <- (Nat2Z.id i) in Hi. rewrite items_lookup in Hi by lia. by injection Hi.
  - intros (j & Hj & <-). eapply list_elem_of_lookup_2. apply items_lookup; lia.
Qed.

Lemma elem_of_orders o :
  o ∈ orders s ↔ ∃ j, 0 ≤ j < top_ s ∧ (at_ (pairs_ s) j).2 = o.
Proof using Hwf.
  unfold orders. rewrite list_elem_of_fmap. split.
  - intros (p & -> & (j & Hj & <-)%elem_of_items). eauto.
  - intros (j & Hj & <-). exists (at_ (pairs_ s) j). split; [done|].
    apply elem_of_items. eauto.
Qed.

Lemma elem_of_handles h :
  h ∈ handles s ↔ ∃ j, 0 ≤ j < top_ s ∧ (at_ (pairs_ s) j).1 = h.
Proof using Hwf.
  unfold handles. rewrite list_elem_of_fmap. split.
  - intros (p & -> & (j & Hj & <-)%elem_of_items). eauto.
  - intros (j & Hj & <-). exists (at_ (pairs_ s) j). split; [done|].
    apply elem_of_items. eauto.
Qed.

Lemma orders_lookup j :
  0 ≤ j < top_ s → orders s !! Z.to_nat j = Some (at_ (pairs_ s) j).2.
Proof using Hwf.
  destruct Hwf as [Hlen Htop]. intros Hj. unfold orders.
  rewrite list_lookup_fmap, items_lookup by lia. done.
Qed.

(** Orders that do not decrease from bottom to top, slot by slot. *)
Lemma sorted_orders_at :
  StronglySorted Z.le (orders s) ↔
  ∀ j k, 0 ≤ j → j ≤ k → k < top_ s →
    (at_ (pairs_ s) j).2 ≤ (at_ (pairs_ s) k).2.
Proof using Hwf.
  split.
  - intros Hs j k Hj Hjk Hk.
    destruct (decide (j = k)) as [->|]; [lia|].
    eapply (StronglySorted_lookup Z.le _ (Z.to_nat j) (Z.to_nat k));
      [done|apply orders_lookup; lia|apply orders_lookup; lia|lia].
  - intros Hat. apply StronglySorted_of_lookup. intros i j x y Hi Hj Hlt.
    assert (j < Z.to_nat (top_ s))%nat as Hjt.
    { apply lookup_lt_Some in Hj. unfold orders, items in Hj.
      rewrite length_fmap, length_take in Hj. lia. }
    rewrite <- (Nat2Z.id i) in Hi. rewrite <- (Nat2Z.id j) in Hj.
    rewrite orders_lookup in Hi, Hj by lia.
    injection Hi as <-. injection Hj as <-. apply Hat; lia.
Qed.

(** [top(offset)] for an offset within the tracked entries. *)
Lemma top_offset i :
  N ≤ INT64_MAX → 0 ≤ i < top_ s → top N s i = slot_ref (top_ s - i - 1).
Proof using Hwf.
  destruct Hwf as [Hlen Htop]. intros HN Hi. unfold top.
  assert (INT64_MIN ≤ 0) by (unfold INT64_MIN; lia).
  rewrite !to_ssize_t_id by lia.
  destruct (Z.ltb_spec 0 (top_ s - i)), (Z.leb_spec (top_ s - i) N); simpl; (done || lia).
Qed.

(** What the scan of [check_held] returns, on any array contents. *)
Lemma check_held_loop_spec mutex order fuel : ∀ i,
  N ≤ INT64_MAX → 0 ≤ i → i + Z.of_nat fuel = top_ s →
  match check_held_loop N s mutex order i fuel with
  | slot_ref k =>
      0 ≤ k < top_ s - i ∧ conflicts mutex order (at_ (pairs_ s) k) ∧
      ∀ j, k < j < top_ s - i → passes mutex order (at_ (pairs_ s) j)
  | invalid_ref =>
      (∀ j, 0 ≤ j < top_ s - i → passes mutex order (at_ (pairs_ s) j)) ∨
      ∃ k, 0 ≤ k < top_ s - i ∧ (at_ (pairs_ s) k).2 < order ∧
           ∀ j, k < j < top_ s - i → passes mutex order (at_ (pairs_ s) j)
  end.
Proof using Hwf.
  induction fuel as [|fuel IH]; intros i HN Hi Hfuel; simpl.
  - left. intros j Hj. lia.
  - rewrite top_offset by lia. simpl.
    set (k := top_ s - i - 1).
    destruct (Z.ltb_spec (at_ (pairs_ s) k).2 order) as [Hlow|Hge].
    { right. exists k. split_and!; [lia|lia|done|]. intros j Hj. lia. }
    destruct (Z.ltb_spec order (at_ (pairs_ s) k).2) as [Hhigh|Hle].
    { split_and!; [lia|lia|by left|]. intros j Hj. lia. }
    destruct (Z.eqb_spec (at_ (pairs_ s) k).1 mutex) as [Heq|Hne].
    { split_and!; [lia|lia|right; split; [lia|done]|]. intros j Hj. lia. }
    assert (passes mutex order (at_ (pairs_ s) k)) as Hpass by (split; [lia|done]).
    specialize (IH (i + 1) HN ltac:(lia) ltac:(lia)).
    replace (top_ s - (i + 1)) with k in IH by lia.
    destruct (check_held_loop N s mutex order (i + 1) fuel) as [k'|].
    + destruct IH as (Hk' & Hc & Habove). split_and!; [lia|lia|done|].
      intros j Hj. destruct (decide (j = k)) as [->|]; [done|]. apply Habove. lia.
    + destruct IH as [Hall|(k' & Hk' & Hlow & Habove)].
      * left. intros j Hj. destruct (decide (j = k)) as [->|]; [done|]. apply Hall. lia.
      * right. exists k'. split_and!; [lia|lia|done|].
        intros j Hj. destruct (decide (j = k)) as [->|]; [done|]. apply Habove. lia.
Qed.
End held_stack_facts.

(** On a stack whose orders do not decrease upwards, a scan that finds no
    conflict has seen that no held order exceeds the proposed one. *)
Lemma check_held_invalid_fits N s mutex order :
  N ≤ INT64_MAX → stack_wf N s → StronglySorted Z.le (orders s) →
  check_held_loop N s mutex order 0 (Z.to_nat (top_ s)) = invalid_ref →
  ∀ j, 0 ≤ j < top_ s → (at_ (pairs_ s) j).2 ≤ order.
Proof.
  intros HN Hwf Hsorted Hr j Hj.
  rewrite (sorted_orders_at N s Hwf) in Hsorted.
  pose proof (check_held_loop_spec N s Hwf mutex order (Z.to_nat (top_ s)) 0 HN) as Hspec.
  rewrite Hr, Z.sub_0_r in Hspec.
  destruct Hspec as [Hall|(k & Hk & Hlow & Habove)]; [lia|lia| |].
  - destruct (Hall j Hj) as [-> _]. lia.
  - destruct (Z.le_gt_cases j k) as [Hle|Hgt].
    + specialize (Hsorted j k). lia.
    + destruct (Habove j ltac:(lia)) as [-> _]. lia.
Qed.

(** A conflict that is not an inversion leaves the same bound. *)
Lemma check_held_recursion_fits N s mutex order k :
  N ≤ INT64_MAX → stack_wf N s → StronglySorted Z.le (orders s) →
  check_held_loop N s mutex order 0 (Z.to_nat (top_ s)) = slot_ref k →
  ¬ order < (at_ (pairs_ s) k).2 →
  ∀ j, 0 ≤ j < top_ s → (at_ (pairs_ s) j).2 ≤ order.
Proof.
  intros HN Hwf Hsorted Hr Hnot j Hj.
  rewrite (sorted_orders_at N s Hwf) in Hsorted.
  pose proof (check_held_loop_spec N s Hwf mutex order (Z.to_nat (top_ s)) 0 HN) as Hspec.
  rewrite Hr, Z.sub_0_r in Hspec.
  destruct Hspec as (Hk & [Hinv|[Heq _]] & Habove); [lia|lia|done|].
  destruct (Z.le_gt_cases j k) as [Hle|Hgt].
  - specialize (Hsorted j k). lia.
  - destruct (Habove j ltac:(lia)) as [-> _]. lia.
Qed.

(** C1, as the code has it. Take a held stack whose orders do not decrease
    from bottom to top and on which the proposed handle, where present,
    carries the proposed order (a mutex keeps the order it was constructed
    with). Then [check_held(handle, order)] returns the invalid pair if and
    only if pushing [(handle, order)] keeps the orders non-decreasing and
    does not repeat a handle of the stack. Otherwise it returns the first
    entry, scanning from the top, whose order is strictly greater than the
    proposed order or whose handle is the proposed handle. An entry of equal
    order and another handle is not a conflict. *)
Theorem check_held_behaviour (N : Z) (t : thread_mutex_info) (mutex order : Z) :
  let s := mutexes_held_ t in
  N ≤ INT64_MAX → stack_wf N s →
  StronglySorted Z.le (orders s) →
  (∀ p, p ∈ items s → p.1 = mutex → p.2 = order) →
  let r := check_held N t mutex order in
  (r = invalid_ref ↔
     StronglySorted Z.le (orders s ++ [order]) ∧ mutex ∉ handles s) ∧
  (∀ k, r = slot_ref k →
     0 ≤ k < size s ∧
     flagged mutex order (at_ (pairs_ s) k) ∧
     ∀ j, k < j < size s → ¬ flagged mutex order (at_ (pairs_ s) j)).
Proof.
  intros s HN Hwf Hsorted Hcons r. subst r. unfold check_held, size. fold s.
  pose proof (check_held_loop_spec N s Hwf mutex order (Z.to_nat (top_ s)) 0 HN) as Hspec.
  rewrite Z.sub_0_r in Hspec.
  assert (0 ≤ top_ s) as Htop by (destruct Hwf; lia).
  specialize (Hspec ltac:(lia) ltac:(lia)).
  split; [split|].
  - intros Hr.
    pose proof (check_held_invalid_fits N s mutex order HN Hwf Hsorted Hr) as Hfits.
    rewrite Hr in Hspec. split.
    + apply StronglySorted_app_2; [|done|repeat constructor].
      intros x1 x2 (j & Hj & <-)%(elem_of_orders N s Hwf) ->%list_elem_of_singleton.
      by apply Hfits.
    + intros (j & Hj & Hh)%(elem_of_handles N s Hwf).
      assert ((at_ (pairs_ s) j).2 = order) as Ho.
      { apply Hcons; [|done]. apply (elem_of_items N s Hwf). eauto. }
      destruct Hspec as [Hall|(k & Hk & Hlow & Habove)].
      * by destruct (Hall j Hj) as [_ ?].
      * destruct (Z.le_gt_cases j k) as [Hle|Hgt].
        -- rewrite (sorted_orders_at N s Hwf) in Hsorted.
           specialize (Hsorted j k). lia.
        -- by destruct (Habove j ltac:(lia)) as [_ ?].
  - intros [Happ Hnotin].
    destruct (check_held_loop N s mutex order 0 (Z.to_nat (top_ s))) as [k|]; [|done].
    exfalso. destruct Hspec as (Hk & [Hinv|[_ Hh]] & _).
    + apply StronglySorted_app in Happ as (Hle & _ & _).
      specialize (Hle (at_ (pairs_ s) k).2 order).
      assert ((at_ (pairs_ s) k).2 ≤ order); [|lia].
      apply Hle; [|by apply list_elem_of_singleton].
      apply (elem_of_orders N s Hwf). eauto.
    + apply Hnotin, (elem_of_handles N s Hwf). eauto.
  - intros k Hr. rewrite Hr in Hspec. destruct Hspec as (Hk & Hc & Habove).
    split_and!; [lia|lia| |].
    + destruct Hc as [?|[_ ?]]; [by left|by right].
    + intros j Hj [Hgt|Heq]; destruct (Habove j Hj) as [Ho Hh]; [lia|done].
Qed.

Lemma check_held_behaviour_witness :
  let t := push_held 16 (push_held 16 (thread_mutex_info_init 16 7) 4096 13) 4160 15 in
  let s := mutexes_held_ t in
  let r := check_held 16 t 4224 13 in
  (r = invalid_ref ↔
     StronglySorted Z.le (orders s ++ [13]) ∧ 4224 ∉ handles s) ∧
  (∀ k, r = slot_ref k →
     0 ≤ k < size s ∧
     flagged 4224 13 (at_ (pairs_ s) k) ∧
     ∀ j, k < j < size s → ¬ flagged 4224 13 (at_ (pairs_ s) j)).
Proof.
  apply (check_held_behaviour 16
           (push_held 16 (push_held 16 (thread_mutex_info_init 16 7) 4096 13) 4160 15)
           4224 13).
  - unfold INT64_MAX. lia.
  - split; vm_compute; [reflexivity|split; discriminate].
  - change (StronglySorted Z.le [13; 15]). repeat constructor; lia.
  - change (∀ p, p ∈ [(4096, 13); (4160, 15)] → p.1 = 4224 → p.2 = 13).
    intros p Hp Hh. apply elem_of_cons in Hp as [->|Hp]; [discriminate Hh|].
    apply list_elem_of_singleton in Hp as ->. discriminate Hh.
Defined.

(** C1 as stated does not hold: with one [ThreadBase_Mutex] held, a second
    mutex of that order is let through, although the orders [13; 13] the push
    leaves are not strictly increasing; and the held entry, whose order is
    greater than or equal to the proposed one, is not what is returned.
    Likewise a handle that is held under a lower order is let through: the
    scan ends at the first entry of lower order without comparing handles. *)
Lemma check_held_equal_order_counterexample :
  let t := push_held 16 (thread_mutex_info_init 16 7) 4096 MutexOrder.kThreadBase_Mutex in
  let s := mutexes_held_ t in
  (check_held 16 t 4160 MutexOrder.kThreadBase_Mutex = invalid_ref ∧
   ¬ StronglySorted Z.lt (orders s ++ [MutexOrder.kThreadBase_Mutex]) ∧
   top 16 s 0 = slot_ref 0 ∧
   MutexOrder.kThreadBase_Mutex ≤ (deref s (top 16 s 0)).2) ∧
  (check_held 16 t 4096 MutexOrder.kEffectChain_Mutex = invalid_ref ∧
   4096 ∈ handles s).
Proof.
  intros t s. split.
  - split_and!; [reflexivity| |reflexivity|vm_compute; discriminate].
    change (¬ StronglySorted Z.lt [13; 13]).
    intros (Hall & _)%StronglySorted_cons.
    apply Forall_cons in Hall as [Hlt _]. lia.
  - split; [reflexivity|]. change (4096 ∈ [4096]). apply list_elem_of_singleton. done.
Qed.

(** ** The monad of operations *)

Lemma bind_Done {A B} (c : M A) (f : A → M B) w a w1 :
  c w = Done a w1 → (c ≫= f) w = f a w1.
Proof. unfold mbind, M_bind. by intros ->. Qed.

Lemma bind_Fatal {A B} (c : M A) (f : A → M B) w w1 :
  c w = Fatal w1 → (c ≫= f) w = Fatal w1.
Proof. unfold mbind, M_bind. by intros ->. Qed.

Section primitive_effects.
Context {Attr : Attributes}.

Lemma native_effect c w :
  ∃ w', native c w = Done () w' ∧
        os_log w' = os_log w ++ [c] ∧ same_stats w w' ∧ same_held w w'.
Proof. by eexists. Qed.

Lemma update_stat_effect m f w :
  ∃ w', update_stat m f w = Done () w' ∧
        same_log w w' ∧ same_held w w' ∧
        mutex_stat_array w' = alter f (Z.to_nat (order_ m)) (mutex_stat_array w).
Proof. by eexists. Qed.

Lemma get_thread_mutex_info_effect tid w :
  ∃ info w', get_thread_mutex_info tid w = Done info w' ∧
             mutexes_held_ info = held_of w tid ∧
             thread_infos w' !! tid = Some info ∧
             same_log w w' ∧ same_stats w w' ∧ same_held w w'.
Proof.
  unfold get_thread_mutex_info, same_held, held_of.
  destruct (thread_infos w !! tid) as [info|] eqn:E.
  - exists info, w. by rewrite E.
  - eexists _, _. split; [done|]. simpl. rewrite lookup_insert_eq.
    split_and!; [done..|].
    intros t. destruct (decide (t = tid)) as [->|Hne].
    + by rewrite lookup_insert_eq, E.
    + by rewrite lookup_insert_ne.
Qed.

Lemma update_thread_mutex_info_effect tid f g w :
  (∀ info, mutexes_held_ (f info) = g (mutexes_held_ info)) →
  ∃ w', update_thread_mutex_info tid f w = Done () w' ∧
        same_log w w' ∧ same_stats w w' ∧ held_updated tid g w w'.
Proof.
  intros Hf. unfold update_thread_mutex_info.
  destruct (get_thread_mutex_info_effect tid w)
    as (info & w1 & Hget & Hheld & Hlook & Hlog & Hstats & Hsame).
  rewrite (bind_Done _ _ _ _ _ Hget). eexists. split; [done|].
  unfold same_log, same_stats, held_updated in *. simpl. split_and!; [done..|].
  intros t. unfold held_of at 1. simpl.
  case_bool_decide as Ht.
  - subst t. by rewrite lookup_insert_eq, Hf, Hheld.
  - rewrite lookup_insert_ne by done. apply (Hsame t).
Qed.

(** Writes that leave the held stack alone. *)
Lemma update_thread_mutex_info_frame tid f w :
  (∀ info, mutexes_held_ (f info) = mutexes_held_ info) →
  ∃ w', update_thread_mutex_info tid f w = Done () w' ∧
        same_log w w' ∧ same_stats w w' ∧ same_held w w'.
Proof.
  intros Hf.
  destruct (update_thread_mutex_info_effect tid f id w Hf) as (w' & Hrun & Hlog & Hstats & Hheld).
  exists w'. split_and!; [done..|].
  intros t. rewrite (Hheld t). by case_bool_decide; subst.
Qed.
End primitive_effects.

(** ** The hooks of lock_scoped_stat_enabled *)

Section hook_effects.
Context {Attr : Attributes}.

(** [pre_lock] writes nothing but the registration of the thread. *)
Lemma pre_lock_effect tid m w :
  same_log w (world_of (pre_lock tid m w)) ∧
  same_stats w (world_of (pre_lock tid m w)) ∧
  same_held w (world_of (pre_lock tid m w)).
Proof.
  unfold pre_lock.
  destruct mutex_tracking_enabled_; [|done].
  destruct (negb abort_on_order_check_ && negb abort_on_recursion_check_); [done|].
  destruct (get_thread_mutex_info_effect tid w)
    as (info & w1 & Hget & _ & _ & Hlog & Hstats & Hheld).
  rewrite (bind_Done _ _ _ _ _ Hget).
  repeat case_match; done.
Qed.

(** When [pre_lock] lets the thread go on, the conflict [check_held] found,
    if any, is not one the configuration aborts on. *)
Lemma pre_lock_checked tid m w w' :
  pre_lock tid m w = Done () w' →
  mutex_tracking_enabled_ = true →
  let s := held_of w tid in
  let p := deref s (check_held_loop mutex_stack_depth_ s (handle_of m) (order_ m) 0
                      (Z.to_nat (top_ s))) in
  p.1 = nullptr ∨
  ((abort_on_order_check_ = true → ¬ order_ m < p.2) ∧
   (abort_on_recursion_check_ = true → p.2 ≠ order_ m)).
Proof.
  unfold pre_lock. intros Hrun Htrack. rewrite Htrack in Hrun.
  destruct abort_on_order_check_ eqn:Horder, abort_on_recursion_check_ eqn:Hrec;
    simpl in Hrun; try (by right);
    destruct (get_thread_mutex_info_effect tid w) as (info & w1 & Hget & Hinfo & _);
    rewrite (bind_Done _ _ _ _ _ Hget) in Hrun;
    unfold check_held, size in Hrun; rewrite Hinfo in Hrun; simpl;
    (destruct (Z.eqb_spec (deref (held_of w tid)
                (check_held_loop mutex_stack_depth_ (held_of w tid) (handle_of m) (order_ m) 0
                   (Z.to_nat (top_ (held_of w tid))))).1 nullptr) as [Hnull|Hnonnull];
       [by left|]);
    right; split; intros Hflag; try done.
  - intros Hinv. apply Z.ltb_lt in Hinv. by rewrite Hinv in Hrun.
  - intros Heq. apply Z.eqb_eq in Heq. rewrite Heq in Hrun. by destruct (_ <? _).
  - intros Hinv. apply Z.ltb_lt in Hinv. by rewrite Hinv in Hrun.
  - intros Heq. apply Z.eqb_eq in Heq. by rewrite Heq in Hrun.
Qed.

(** [post_lock] counts the lock and pushes the mutex on the caller's stack. *)
Lemma post_lock_effect tid m w :
  ∃ w', post_lock tid m w = Done () w' ∧
        same_log w w' ∧
        mutex_stat_array w' =
          (if mutex_tracking_enabled_
           then alter inc_locks (Z.to_nat (order_ m)) (mutex_stat_array w)
           else mutex_stat_array w) ∧
        held_updated tid
          (λ s, if mutex_tracking_enabled_
                then push mutex_stack_depth_ s (handle_of m) (order_ m) else s) w w'.
Proof.
  unfold post_lock. destruct mutex_tracking_enabled_.
  - destruct (update_stat_effect m inc_locks w) as (w1 & Hrun1 & Hlog1 & Hheld1 & Hstats1).
    rewrite (bind_Done _ _ _ _ _ Hrun1).
    destruct (update_thread_mutex_info_effect tid
                (λ t, push_held mutex_stack_depth_ t (handle_of m) (order_ m))
                (λ s, push mutex_stack_depth_ s (handle_of m) (order_ m)) w1)
      as (w2 & Hrun2 & Hlog2 & Hstats2 & Hheld2); [done|].
    exists w2. unfold same_log, same_stats, held_updated in *.
    split_and!; [done|congruence|congruence|].
    intros t. rewrite (Hheld2 t), !Hheld1. done.
  - exists w. split_and!; [done..|]. intros t. by case_bool_decide; subst.
Qed.

(** The constructor of the scope object reads the clock, counts a wait and
    marks the thread as waiting. *)
Lemma lock_scoped_stat_ctor_effect tid m e w :
  ∃ ls w', lock_scoped_stat_ctor tid m e w = Done ls w' ∧
    ls = {| time_ := if mutex_tracking_enabled_ then time_begin e else 0;
            discard_wait_time_ := false |} ∧
    os_log w' = os_log w ++
      (if mutex_tracking_enabled_ then [systemTime SYSTEM_TIME_MONOTONIC] else []) ∧
    mutex_stat_array w' =
      (if mutex_tracking_enabled_
       then alter inc_waits (Z.to_nat (order_ m)) (mutex_stat_array w)
       else mutex_stat_array w) ∧
    same_held w w'.
Proof.
  unfold lock_scoped_stat_ctor. destruct mutex_tracking_enabled_.
  - destruct (native_effect (systemTime SYSTEM_TIME_MONOTONIC) w)
      as (w1 & Hrun1 & Hlog1 & Hstats1 & Hheld1).
    rewrite (bind_Done _ _ _ _ _ Hrun1).
    destruct (update_stat_effect m inc_waits w1) as (w2 & Hrun2 & Hlog2 & Hheld2 & Hstats2).
    rewrite (bind_Done _ _ _ _ _ Hrun2).
    destruct (update_thread_mutex_info_frame tid (λ t, reset_waiter t (handle_of m)) w2)
      as (w3 & Hrun3 & Hlog3 & Hstats3 & Hheld3); [done|].
    rewrite (bind_Done _ _ _ _ _ Hrun3).
    eexists _, w3. unfold same_log, same_stats, same_held in *.
    split_and!; [done|done|congruence|congruence|].
    intros t. by rewrite Hheld3, Hheld2, Hheld1.
  - eexists _, w. split_and!; [done|done|by rewrite app_nil_r|done|done].
Qed.

(** The destructor adds the wait time unless told to ignore it, and clears
    the waiting mark. *)
Lemma lock_scoped_stat_dtor_effect tid m e ls w :
  ∃ w', lock_scoped_stat_dtor tid m e ls w = Done () w' ∧
    os_log w' = os_log w ++
      (if mutex_tracking_enabled_ && negb (discard_wait_time_ ls)
       then [systemTime SYSTEM_TIME_MONOTONIC] else []) ∧
    mutex_stat_array w' =
      (if mutex_tracking_enabled_ && negb (discard_wait_time_ ls)
       then alter (λ st, add_wait_time st (to_int64 (time_end e - time_ ls)))
              (Z.to_nat (order_ m)) (mutex_stat_array w)
       else mutex_stat_array w) ∧
    same_held w w'.
Proof.
  unfold lock_scoped_stat_dtor. destruct mutex_tracking_enabled_; simpl.
  - destruct (discard_wait_time_ ls); simpl.
    + rewrite (bind_Done _ _ _ () w) by done.
      destruct (update_thread_mutex_info_frame tid (λ t, reset_waiter t nullptr) w)
        as (w3 & Hrun3 & Hlog3 & Hstats3 & Hheld3); [done|].
      exists w3. split_and!; [done|by rewrite app_nil_r|done|done].
    + destruct (native_effect (systemTime SYSTEM_TIME_MONOTONIC) w)
        as (w1 & Hrun1 & Hlog1 & Hstats1 & Hheld1).
      destruct (update_stat_effect m
                  (λ st, add_wait_time st (to_int64 (time_end e - time_ ls))) w1)
        as (w2 & Hrun2 & Hlog2 & Hheld2 & Hstats2).
      destruct (update_thread_mutex_info_frame tid (λ t, reset_waiter t nullptr) w2)
        as (w3 & Hrun3 & Hlog3 & Hstats3 & Hheld3); [done|].
      exists w3. unfold same_log, same_stats, same_held in *. split_and!.
      * erewrite bind_Done; [done|].
        erewrite bind_Done; [done|done].
      * congruence.
      * congruence.
      * intros t. by rewrite Hheld3, Hheld2, Hheld1.
  - exists w. split_and!; [done|by rewrite app_nil_r|done|done].
Qed.

(** [pre_unlock] counts the unlock and takes the mutex off the caller's
    stack, whether or not it then aborts. *)
Lemma pre_unlock_effect tid m w :
  same_log w (world_of (pre_unlock tid m w)) ∧
  held_updated tid
    (λ s, if mutex_tracking_enabled_ then (remove s (handle_of m)).2 else s)
    w (world_of (pre_unlock tid m w)).
Proof.
  unfold pre_unlock. destruct mutex_tracking_enabled_.
  - destruct (update_stat_effect m inc_unlocks w) as (w1 & Hrun1 & Hlog1 & Hheld1 & Hstats1).
    rewrite (bind_Done _ _ _ _ _ Hrun1).
    destruct (get_thread_mutex_info_effect tid w1)
      as (info & w2 & Hget & Hinfo & _ & Hlog2 & Hstats2 & Hheld2).
    rewrite (bind_Done _ _ _ _ _ Hget).
    unfold remove_held.
    destruct (remove (mutexes_held_ info) (handle_of m)) as [success s'] eqn:Hrem.
    destruct (update_thread_mutex_info_effect tid
                (λ _, set_mutexes_held info s') (λ _, s') w2)
      as (w3 & Hrun3 & Hlog3 & Hstats3 & Hheld3); [done|].
    rewrite (bind_Done _ _ _ _ _ Hrun3).
    assert (same_log w w3 ∧
            held_updated tid (λ s, (remove s (handle_of m)).2) w w3) as [Hlog Hheld].
    { unfold same_log, held_updated in *. split; [congruence|].
      intros t. rewrite (Hheld3 t), Hheld2, !Hheld1.
      case_bool_decide; [|done]. by rewrite <- (Hheld1 tid), <- Hinfo, Hrem. }
    by destruct (abort_on_invalid_unlock_ && negb success).
  - split; [done|]. intros t. simpl. by case_bool_decide; subst.
Qed.
End hook_effects.

(** ** try_lock *)

Lemma drop_log_extension (l ext : list os_call) l' :
  l' = l ++ ext → drop (length l) l' = ext.
Proof. intros ->. by rewrite drop_app_length. Qed.

Lemma stat_of_alter_field {B} (field : mutex_stat → B) (f : mutex_stat → mutex_stat)
    (i : nat) (l : list mutex_stat) (order : Z) :
  (∀ st, field (f st) = field st) →
  field (default mutex_stat_init (alter f i l !! Z.to_nat order))
    = field (default mutex_stat_init (l !! Z.to_nat order)).
Proof.
  intros Hf. destruct (decide (i = Z.to_nat order)) as [->|Hne].
  - rewrite list_lookup_alter_eq. destruct (l !! Z.to_nat order); simpl; [apply Hf|done].
  - by rewrite list_lookup_alter_ne.
Qed.

(** C6. Unless [pre_lock] aborts the process, [try_lock(timeout_ns)] with
    [timeout_ns <= 0] makes exactly one native call, the non-blocking
    [m_.try_lock()], and so never [pthread_mutex_timedlock]; its result is the
    result of that attempt. With [timeout_ns > 0] it reads the realtime
    clock, calls [pthread_mutex_timedlock] once with the absolute deadline
    [safe_add_sat(timeout_ns, now)] (which is now plus timeout whenever that
    fits an [int64_t]) split into seconds and nanoseconds, and makes no
    non-blocking attempt; around the call the scoped statistic reads the
    monotonic clock (once more after the call only when the lock was
    obtained). *)
Theorem try_lock_native_calls `{Attr : Attributes}
    (tid : Z) (m : mutex) (timeout_ns : Z) (e : oracle) (w : world) :
  (timeout_ns ≤ 0 →
     native_calls (try_lock tid m timeout_ns e) w =
       match pre_lock tid m w with
       | Fatal _ => []
       | Done _ _ => [std_mutex_try_lock (handle_of m)]
       end ∧
     (∀ ts, pthread_mutex_timedlock (handle_of m) ts
              ∉ native_calls (try_lock tid m timeout_ns e) w) ∧
     (∀ r w', try_lock tid m timeout_ns e w = Done r w' → r = try_lock_result e)) ∧
  (0 < timeout_ns →
     native_calls (try_lock tid m timeout_ns e) w =
       match pre_lock tid m w with
       | Fatal _ => []
       | Done _ _ =>
           [systemTime SYSTEM_TIME_REALTIME] ++
           (if mutex_tracking_enabled_ then [systemTime SYSTEM_TIME_MONOTONIC] else []) ++
           [pthread_mutex_timedlock (handle_of m)
              (deadline_timespec timeout_ns (realtime_now e))] ++
           (if mutex_tracking_enabled_ && (timedlock_result e =? 0)
            then [systemTime SYSTEM_TIME_MONOTONIC] else [])
       end ∧
     (INT64_MIN ≤ timeout_ns + realtime_now e ≤ INT64_MAX →
        safe_add_sat timeout_ns (realtime_now e) = realtime_now e + timeout_ns) ∧
     (∀ r w', try_lock tid m timeout_ns e w = Done r w' →
        r = (timedlock_result e =? 0))).
Proof.
  pose proof (pre_lock_effect tid m w) as (Hlog0 & _ & _).
  unfold native_calls, try_lock, same_log in *.
  destruct (pre_lock tid m w) as [[] w1|w1] eqn:Hpre; simpl in Hlog0.
  2:{ rewrite (bind_Fatal _ _ _ _ Hpre). simpl. rewrite Hlog0, drop_all.
      split; intros Ht; (split_and!; [done|..]); try done.
      - intros ts Hin. by apply elem_of_nil in Hin.
      - intros Hfit. rewrite safe_add_sat_exact by done. lia. }
  rewrite (bind_Done _ _ _ _ _ Hpre). split; intros Ht.
  - destruct (Z.leb_spec timeout_ns 0); [|lia].
    destruct (native_effect (std_mutex_try_lock (handle_of m)) w1)
      as (w2 & Hrun2 & Hlog2 & _).
    rewrite (bind_Done _ _ _ _ _ Hrun2).
    assert (∃ w', (if negb (try_lock_result e) then mret false
                   else post_lock tid m;; mret true) w2 = Done (try_lock_result e) w' ∧
                  os_log w' = os_log w ++ [std_mutex_try_lock (handle_of m)])
      as (w' & -> & Hlog').
    { destruct (try_lock_result e); simpl.
      - destruct (post_lock_effect tid m w2) as (w3 & Hrun3 & Hlog3 & _).
        rewrite (bind_Done _ _ _ _ _ Hrun3). exists w3. split; [done|].
        unfold same_log in Hlog3. congruence.
      - exists w2. split; [done|congruence]. }
    simpl. rewrite (drop_log_extension _ _ _ Hlog').
    split_and!; [done| |by intros r w'' [= <- _]].
    intros ts Hin. by apply list_elem_of_singleton in Hin.
  - destruct (Z.leb_spec timeout_ns 0); [lia|].
    destruct (native_effect (systemTime SYSTEM_TIME_REALTIME) w1)
      as (w2 & Hrun2 & Hlog2 & _).
    rewrite (bind_Done _ _ _ _ _ Hrun2).
    destruct (lock_scoped_stat_ctor_effect tid m e w2)
      as (ls & w3 & Hrun3 & Hls & Hlog3 & _).
    rewrite (bind_Done _ _ _ _ _ Hrun3).
    destruct (native_effect
                (pthread_mutex_timedlock (handle_of m)
                   (deadline_timespec timeout_ns (realtime_now e))) w3)
      as (w4 & Hrun4 & Hlog4 & _).
    unfold deadline_timespec in Hrun4. rewrite (bind_Done _ _ _ _ _ Hrun4).
    fold (deadline_timespec timeout_ns (realtime_now e)) in *.
    assert (∃ w', (if negb (timedlock_result e =? 0)
                   then lock_scoped_stat_dtor tid m e (ignoreWaitTime ls);; mret false
                   else lock_scoped_stat_dtor tid m e ls;; post_lock tid m;; mret true) w4
                  = Done (timedlock_result e =? 0) w' ∧
                  os_log w' = os_log w4 ++
                    (if mutex_tracking_enabled_ && (timedlock_result e =? 0)
                     then [systemTime SYSTEM_TIME_MONOTONIC] else []))
      as (w' & -> & Hlog').
    { destruct (timedlock_result e =? 0); simpl.
      - destruct (lock_scoped_stat_dtor_effect tid m e ls w4) as (w5 & Hrun5 & Hlog5 & _).
        rewrite (bind_Done _ _ _ _ _ Hrun5).
        destruct (post_lock_effect tid m w5) as (w6 & Hrun6 & Hlog6 & _).
        rewrite (bind_Done _ _ _ _ _ Hrun6). exists w6. split; [done|].
        unfold same_log in Hlog6. rewrite Hlog6, Hlog5, Hls. done.
      - destruct (lock_scoped_stat_dtor_effect tid m e (ignoreWaitTime ls) w4)
          as (w5 & Hrun5 & Hlog5 & _).
        rewrite (bind_Done _ _ _ _ _ Hrun5). exists w5. split; [done|].
        rewrite Hlog5. simpl. by rewrite !andb_false_r. }
    simpl. split_and!; [|intros; rewrite safe_add_sat_exact by done; lia
                        |by intros r w'' [= <- _]].
    apply drop_log_extension.
    rewrite Hlog', Hlog4, Hlog3, Hlog2, Hlog0, <- !app_assoc. done.
Qed.

(** C7. When [try_lock(timeout_ns)] with [timeout_ns > 0] expires without
    the lock, it returns false (unless [pre_lock] aborted the process
    before), and in every category [wait_sum_ns] and [wait_sumsq_ns] are what
    they were before the call. *)
Theorem try_lock_expiry_discards_wait_time `{Attr : Attributes}
    (tid : Z) (m : mutex) (timeout_ns : Z) (e : oracle) (w : world) :
  0 < timeout_ns → timedlock_result e ≠ 0 →
  match pre_lock tid m w with
  | Done _ _ => ∃ w', try_lock tid m timeout_ns e w = Done false w'
  | Fatal w1 => try_lock tid m timeout_ns e w = Fatal w1
  end ∧
  ∀ order,
    wait_sum_ns (stat_of (world_of (try_lock tid m timeout_ns e w)) order)
      = wait_sum_ns (stat_of w order) ∧
    wait_sumsq_ns (stat_of (world_of (try_lock tid m timeout_ns e w)) order)
      = wait_sumsq_ns (stat_of w order).
Proof.
  intros Ht Hexpired.
  pose proof (pre_lock_effect tid m w) as (_ & Hstats0 & _).
  unfold try_lock, same_stats, stat_of in *.
  destruct (pre_lock tid m w) as [[] w1|w1] eqn:Hpre; simpl in Hstats0.
  2:{ rewrite (bind_Fatal _ _ _ _ Hpre). simpl. by rewrite Hstats0. }
  rewrite (bind_Done _ _ _ _ _ Hpre).
  destruct (Z.leb_spec timeout_ns 0); [lia|].
  destruct (native_effect (systemTime SYSTEM_TIME_REALTIME) w1)
    as (w2 & Hrun2 & _ & Hstats2 & _).
  rewrite (bind_Done _ _ _ _ _ Hrun2).
  destruct (lock_scoped_stat_ctor_effect tid m e w2)
    as (ls & w3 & Hrun3 & Hdiscard & _ & Hstats3 & _).
  rewrite (bind_Done _ _ _ _ _ Hrun3).
  destruct (native_effect
              (pthread_mutex_timedlock (handle_of m)
                 (deadline_timespec timeout_ns (realtime_now e))) w3)
    as (w4 & Hrun4 & _ & Hstats4 & _).
  unfold deadline_timespec in Hrun4. rewrite (bind_Done _ _ _ _ _ Hrun4).
  destruct (Z.eqb_spec (timedlock_result e) 0); [done|]. simpl.
  destruct (lock_scoped_stat_dtor_effect tid m e (ignoreWaitTime ls) w4)
    as (w5 & Hrun5 & _ & Hstats5 & _).
  rewrite (bind_Done _ _ _ _ _ Hrun5). simpl in *.
  rewrite andb_false_r in Hstats5. unfold same_stats in *.
  split; [by eexists|]. intros order.
  rewrite Hstats5, Hstats4, Hstats3, Hstats2, Hstats0.
  destruct mutex_tracking_enabled_; [|done].
  split; by apply stat_of_alter_field.
Qed.

Lemma try_lock_expiry_discards_wait_time_witness :
  let m := {| address := 4096; order_ := MutexOrder.kThreadBase_Mutex |} in
  let e := {| try_lock_result := false; timedlock_result := 110;
              realtime_now := 1700000000000000000;
              time_begin := 5000; time_end := 1005000 |} in
  match pre_lock 7 m world_init with
  | Done _ _ => ∃ w', try_lock 7 m 1000000 e world_init = Done false w'
  | Fatal w1 => try_lock 7 m 1000000 e world_init = Fatal w1
  end ∧
  ∀ order,
    wait_sum_ns (stat_of (world_of (try_lock 7 m 1000000 e world_init)) order)
      = wait_sum_ns (stat_of world_init order) ∧
    wait_sumsq_ns (stat_of (world_of (try_lock 7 m 1000000 e world_init)) order)
      = wait_sumsq_ns (stat_of world_init order).
Proof.
  intros m e.
  apply (try_lock_expiry_discards_wait_time 7 m 1000000 e world_init).
  - lia.
  - simpl. lia.
Defined.

(** C2. The code does not keep [waits <= locks]: a [try_lock] with a
    positive timeout that expires has counted a wait in the constructor of
    the scoped statistic and never reaches [post_lock], which counts the
    lock. On a fresh process, one such call on a mutex of order [kOtherMutex]
    leaves [waits = 1] and [locks = 0] in that category, and the
    [uncontested = locks - waits] that [to_string] prints wraps around to
    2^64 - 1. Every other path keeps the inequality:
    [waits_le_locks_without_expiry] below. *)
Theorem timed_out_try_lock_counts_a_wait :
  let m := {| address := 4096; order_ := MutexOrder.kOtherMutex |} in
  let e := {| try_lock_result := false; timedlock_result := 110;
              realtime_now := 1700000000000000000;
              time_begin := 5000; time_end := 1005000 |} in
  ∃ w, try_lock 7 m 1000000 e world_init = Done false w ∧
       waits (stat_of w MutexOrder.kOtherMutex) = 1 ∧
       locks (stat_of w MutexOrder.kOtherMutex) = 0 ∧
       ¬ waits (stat_of w MutexOrder.kOtherMutex) ≤ locks (stat_of w MutexOrder.kOtherMutex) ∧
       uncontested (stat_of w MutexOrder.kOtherMutex) = SIZE_MAX.
Proof.
  intros m e. eexists. split; [vm_compute; reflexivity|].
  split_and!; [reflexivity|reflexivity| |reflexivity].
  vm_compute. intros H. by apply H.
Qed.

(** ** The counters of a category along a run *)

Section stat_facts.
Context {Attr : Attributes}.

Lemma pre_unlock_stats tid m w :
  mutex_stat_array (world_of (pre_unlock tid m w)) =
    if mutex_tracking_enabled_
    then alter inc_unlocks (Z.to_nat (order_ m)) (mutex_stat_array w)
    else mutex_stat_array w.
Proof.
  unfold pre_unlock. destruct mutex_tracking_enabled_; [|done].
  destruct (update_stat_effect m inc_unlocks w) as (w1 & Hrun1 & _ & _ & Hstats1).
  rewrite (bind_Done _ _ _ _ _ Hrun1).
  destruct (get_thread_mutex_info_effect tid w1)
    as (info & w2 & Hget & _ & _ & _ & Hstats2 & _).
  rewrite (bind_Done _ _ _ _ _ Hget).
  destruct (remove_held info (handle_of m)) as [success info'].
  destruct (update_thread_mutex_info_effect tid (λ _, info') (λ _, mutexes_held_ info') w2)
    as (w3 & Hrun3 & _ & Hstats3 & _); [done|].
  rewrite (bind_Done _ _ _ _ _ Hrun3). unfold same_stats in *.
  destruct (abort_on_invalid_unlock_ && negb success); simpl; congruence.
Qed.

(** The statistics array after a [lock] that returned. *)
Lemma lock_stats tid m e w w' :
  lock tid m e w = Done () w' →
  mutex_stat_array w' =
    if mutex_tracking_enabled_
    then alter (stat_step (op_lock tid m e)) (Z.to_nat (order_ m)) (mutex_stat_array w)
    else mutex_stat_array w.
Proof.
  intros Hrun. unfold lock in Hrun.
  pose proof (pre_lock_effect tid m w) as (_ & Hstats1 & _).
  destruct (pre_lock tid m w) as [[] w1|w1] eqn:Hpre;
    [|by rewrite (bind_Fatal _ _ _ _ Hpre) in Hrun].
  rewrite (bind_Done _ _ _ _ _ Hpre) in Hrun. simpl in Hstats1.
  destruct (native_effect (std_mutex_try_lock (handle_of m)) w1)
    as (w2 & Hrun2 & _ & Hstats2 & _).
  rewrite (bind_Done _ _ _ _ _ Hrun2) in Hrun. unfold same_stats, stat_step in *.
  destruct (try_lock_result e); simpl in Hrun.
  - rewrite (bind_Done _ _ _ () w2) in Hrun by done.
    destruct (post_lock_effect tid m w2) as (w4 & Hrun4 & _ & Hstats4 & _).
    rewrite Hrun4 in Hrun. injection Hrun as <-.
    by rewrite Hstats4, Hstats2, Hstats1.
  - destruct (lock_scoped_stat_ctor_effect tid m e w2)
      as (ls & wa & Hruna & Hls & _ & Hstatsa & _).
    destruct (native_effect (std_mutex_lock (handle_of m)) wa)
      as (wb & Hrunb & _ & Hstatsb & _).
    destruct (lock_scoped_stat_dtor_effect tid m e ls wb)
      as (wc & Hrunc & _ & Hstatsc & _).
    destruct (post_lock_effect tid m wc) as (w4 & Hrun4 & _ & Hstats4 & _).
    rewrite (bind_Done _ _ _ () wc) in Hrun.
    2:{ rewrite (bind_Done _ _ _ _ _ Hruna), (bind_Done _ _ _ _ _ Hrunb). done. }
    rewrite Hrun4 in Hrun. injection Hrun as <-.
    rewrite Hstats4, Hstatsc, Hstatsb, Hstatsa, Hstats2, Hstats1, Hls.
    destruct mutex_tracking_enabled_; [|done].
    simpl. by rewrite !list_alter_alter_eq.
Qed.

(** The statistics array after a [try_lock] that returned. *)
Lemma try_lock_stats tid m timeout_ns e w r w' :
  try_lock tid m timeout_ns e w = Done r w' →
  mutex_stat_array w' =
    if mutex_tracking_enabled_
    then alter (stat_step (op_try_lock tid m timeout_ns e)) (Z.to_nat (order_ m))
           (mutex_stat_array w)
    else mutex_stat_array w.
Proof.
  intros Hrun. unfold try_lock in Hrun.
  pose proof (pre_lock_effect tid m w) as (_ & Hstats1 & _).
  destruct (pre_lock tid m w) as [[] w1|w1] eqn:Hpre;
    [|by rewrite (bind_Fatal _ _ _ _ Hpre) in Hrun].
  rewrite (bind_Done _ _ _ _ _ Hpre) in Hrun. simpl in Hstats1.
  unfold same_stats, stat_step in *.
  destruct (timeout_ns <=? 0).
  - destruct (native_effect (std_mutex_try_lock (handle_of m)) w1)
      as (w2 & Hrun2 & _ & Hstats2 & _).
    rewrite (bind_Done _ _ _ _ _ Hrun2) in Hrun. unfold same_stats in *.
    destruct (try_lock_result e); simpl in Hrun.
    + destruct (post_lock_effect tid m w2) as (w4 & Hrun4 & _ & Hstats4 & _).
      rewrite (bind_Done _ _ _ _ _ Hrun4) in Hrun. injection Hrun as _ <-.
      by rewrite Hstats4, Hstats2, Hstats1.
    + injection Hrun as _ <-. rewrite Hstats2, Hstats1.
      destruct mutex_tracking_enabled_; [|done]. by rewrite list_alter_id.
  - destruct (native_effect (systemTime SYSTEM_TIME_REALTIME) w1)
      as (w2 & Hrun2 & _ & Hstats2 & _).
    rewrite (bind_Done _ _ _ _ _ Hrun2) in Hrun.
    destruct (lock_scoped_stat_ctor_effect tid m e w2)
      as (ls & w3 & Hrun3 & Hls & _ & Hstats3 & _).
    rewrite (bind_Done _ _ _ _ _ Hrun3) in Hrun.
    destruct (native_effect
                (pthread_mutex_timedlock (handle_of m)
                   (deadline_timespec timeout_ns (realtime_now e))) w3)
      as (w4 & Hrun4 & _ & Hstats4 & _).
    unfold deadline_timespec in Hrun4. rewrite (bind_Done _ _ _ _ _ Hrun4) in Hrun.
    unfold same_stats in *.
    destruct (timedlock_result e =? 0); simpl in Hrun.
    + destruct (lock_scoped_stat_dtor_effect tid m e ls w4)
        as (w5 & Hrun5 & _ & Hstats5 & _).
      rewrite (bind_Done _ _ _ _ _ Hrun5) in Hrun.
      destruct (post_lock_effect tid m w5) as (w6 & Hrun6 & _ & Hstats6 & _).
      rewrite (bind_Done _ _ _ _ _ Hrun6) in Hrun. injection Hrun as _ <-.
      rewrite Hstats6, Hstats5, Hstats4, Hstats3, Hstats2, Hstats1, Hls.
      destruct mutex_tracking_enabled_; [|done].
      simpl. by rewrite !list_alter_alter_eq.
    + destruct (lock_scoped_stat_dtor_effect tid m e (ignoreWaitTime ls) w4)
        as (w5 & Hrun5 & _ & Hstats5 & _).
      rewrite (bind_Done _ _ _ _ _ Hrun5) in Hrun. injection Hrun as _ <-.
      simpl in Hstats5. rewrite andb_false_r in Hstats5.
      rewrite Hstats5, Hstats4, Hstats3, Hstats2, Hstats1. done.
Qed.

(** The statistics array after any operation that returned. *)
Lemma run_op_stats op w w' :
  run_op op w = Done () w' →
  mutex_stat_array w' =
    if mutex_tracking_enabled_
    then alter (stat_step op) (Z.to_nat (order_ (mutex_of op))) (mutex_stat_array w)
    else mutex_stat_array w.
Proof.
  destruct op as [tid m e|tid m|tid m timeout_ns e]; simpl; intros Hrun.
  - by apply lock_stats.
  - unfold unlock in Hrun.
    pose proof (pre_unlock_stats tid m w) as Hstats1.
    destruct (pre_unlock tid m w) as [[] w1|w1] eqn:Hpre;
      [|by rewrite (bind_Fatal _ _ _ _ Hpre) in Hrun].
    rewrite (bind_Done _ _ _ _ _ Hpre) in Hrun. simpl in Hstats1.
    destruct (native_effect (std_mutex_unlock (handle_of m)) w1)
      as (w2 & Hrun2 & _ & Hstats2 & _).
    rewrite Hrun2 in Hrun. injection Hrun as <-.
    unfold same_stats in *. by rewrite Hstats2, Hstats1.
  - destruct (try_lock tid m timeout_ns e w) as [r w2|w2] eqn:Htry;
      [|by rewrite (bind_Fatal _ _ _ _ Htry) in Hrun].
    rewrite (bind_Done _ _ _ _ _ Htry) in Hrun. injection Hrun as <-.
    by apply try_lock_stats in Htry.
Qed.

(** One step on the record of a category: a wait is counted without a lock
    only by a [try_lock] that expired. *)
Lemma stat_step_counters op n expired_n st :
  n < SIZE_MAX → counters_ok n expired_n st →
  counters_ok (n + 1) (expired_n + (if expired op then 1 else 0)) (stat_step op st).
Proof.
  unfold counters_ok. intros Hn (Hl & Hw & Hwl).
  destruct op as [tid m e|tid m|tid m timeout_ns e]; simpl.
  - destruct (try_lock_result e); simpl; rewrite ?to_uint64_id by lia; lia.
  - lia.
  - destruct (Z.leb_spec timeout_ns 0), (Z.ltb_spec 0 timeout_ns); try lia; simpl.
    + destruct (try_lock_result e); simpl; rewrite ?to_uint64_id by lia; lia.
    + destruct (timedlock_result e =? 0); simpl; rewrite ?to_uint64_id by lia; lia.
Qed.

(** An operation that returned leaves the record of a category alone or
    applies its step to it, the latter only on its own category. *)
Lemma run_op_stat_of op w w' order :
  run_op op w = Done () w' →
  stat_of w' order = stat_of w order ∨
  (Z.to_nat (order_ (mutex_of op)) = Z.to_nat order ∧
   stat_of w' order = stat_step op (stat_of w order)).
Proof.
  intros Hop%run_op_stats. unfold stat_of. rewrite Hop.
  destruct mutex_tracking_enabled_; [|by left].
  destruct (decide (Z.to_nat (order_ (mutex_of op)) = Z.to_nat order)) as [Heq|Hne].
  - rewrite Heq, list_lookup_alter_eq.
    destruct (mutex_stat_array w !! Z.to_nat order); simpl; [by right|by left].
  - rewrite list_lookup_alter_ne by done. by left.
Qed.

(** Along a run that the process survives and that is shorter than 2^64
    operations, the waits of a category exceed its locks by at most the
    number of timed [try_lock] calls that expired on it. *)
Lemma run_ops_counters order ops : ∀ n expired_n w w',
  n + Z.of_nat (length ops) ≤ SIZE_MAX →
  counters_ok n expired_n (stat_of w order) →
  run_ops ops w = Done () w' →
  counters_ok (n + Z.of_nat (length ops)) (expired_n + expired_in order ops)
    (stat_of w' order).
Proof.
  unfold expired_in.
  induction ops as [|op ops IH]; intros n expired_n w w' Hn Hok Hrun; simpl in Hrun.
  - injection Hrun as <-. simpl. by rewrite !Z.add_0_r.
  - destruct (run_op op w) as [[] w1|w1] eqn:Hop;
      [|by rewrite (bind_Fatal _ _ _ _ Hop) in Hrun].
    rewrite (bind_Done _ _ _ _ _ Hop) in Hrun. simpl length in *.
    set (here := if decide (expired op = true ∧
                            Z.to_nat (order_ (mutex_of op)) = Z.to_nat order)
                 then 1 else 0).
    assert (counters_ok (n + 1) (expired_n + here) (stat_of w1 order)) as Hok1.
    { destruct (run_op_stat_of op w w1 order Hop) as [->|[Heq ->]].
      - subst here. unfold counters_ok in *. case_decide; lia.
      - pose proof (stat_step_counters op n expired_n _ ltac:(lia) Hok) as Hstep.
        subst here. destruct (expired op); case_decide as Hhere;
          try (by destruct Hhere); try (by destruct Hhere; split);
          unfold counters_ok in *; lia. }
    specialize (IH (n + 1) _ w1 w' ltac:(lia) Hok1 Hrun).
    rewrite filter_cons. subst here.
    replace (n + Z.of_nat (S (length ops))) with (n + 1 + Z.of_nat (length ops)) by lia.
    case_decide; simpl length; unfold counters_ok in *; lia.
Qed.

(** In particular [waits <= locks] as long as no timed [try_lock] expired on
    the category. *)
Lemma waits_le_locks_without_expiry ops w order :
  Z.of_nat (length ops) ≤ SIZE_MAX →
  expired_in order ops = 0 →
  run_ops ops world_init = Done () w →
  waits (stat_of w order) ≤ locks (stat_of w order).
Proof.
  intros Hlen Hnone Hrun.
  destruct (run_ops_counters order ops 0 0 world_init w) as (_ & _ & Hwl);
    [lia| |done|lia].
  unfold counters_ok, stat_of, world_init. simpl.
  destruct (replicate _ _ !! _) as [st|] eqn:Hst; simpl; [|lia].
  apply lookup_replicate in Hst as [-> _]. simpl. lia.
Qed.
End stat_facts.

(** ** The held stack along a run of lock and unlock *)

Lemma to_size_t_range z : 0 ≤ to_size_t z ≤ SIZE_MAX.
Proof.
  unfold to_size_t, SIZE_MAX.
  pose proof (Z.mod_pos_bound z size_modulus ltac:(done)). lia.
Qed.

Lemma INT64_MAX_le_SIZE_MAX : INT64_MAX ≤ SIZE_MAX.
Proof. done. Qed.

(** The tracked part of what [push] does, whatever the logical size. *)
Lemma push_tracked N s item payload :
  0 < N ≤ SIZE_MAX → 0 ≤ top_ s ≤ N →
  pairs_ (push N s item payload)
    = <[Z.to_nat (Z.min (top_ s) (N - 1)) := (item, payload)]> (pairs_ s) ∧
  top_ (push N s item payload) = Z.min (top_ s) (N - 1) + 1 ∧
  true_top_ (push N s item payload) = to_size_t (true_top_ s + 1).
Proof.
  intros HN Htop. unfold push.
  destruct (Z.leb_spec N (top_ s)); simpl; rewrite !to_size_t_id by lia.
  - rewrite Z.min_r by lia. split; [done|split; [lia|done]].
  - rewrite Z.min_l by lia. done.
Qed.

Lemma push_tracked_ok N s item payload :
  0 < N ≤ SIZE_MAX → tracked_ok N s → item ≠ nullptr → fits s payload →
  tracked_ok N (push N s item payload).
Proof.
  intros HN ([Hlen Htop] & Htt & Hsorted & Hnonnull) Hitem Hfits.
  destruct (push_tracked N s item payload HN Htop) as (Hpairs & Htop' & Htt').
  set (k0 := Z.min (top_ s) (N - 1)) in *.
  assert (∀ j, 0 ≤ j → at_ (pairs_ (push N s item payload)) j
                       = if decide (j = k0) then (item, payload) else at_ (pairs_ s) j) as Hat.
  { intros j Hj. rewrite Hpairs. destruct (decide (j = k0)) as [->|].
    - apply at_insert_eq; lia.
    - apply at_insert_ne; lia. }
  split; [|split; [|split]].
  - split; [rewrite Hpairs, length_insert; done|lia].
  - rewrite Htt'. apply to_size_t_range.
  - intros j k Hj Hjk Hk. rewrite !Hat by lia.
    destruct (decide (j = k0)), (decide (k = k0)); simpl; try lia.
    + apply Hfits. lia.
    + apply Hsorted; lia.
  - intros j Hj. rewrite Hat by lia.
    destruct (decide (j = k0)); simpl; [done|]. apply Hnonnull. lia.
Qed.

Lemma remove_tracked_ok N s item :
  N ≤ SIZE_MAX → tracked_ok N s → tracked_ok N (remove s item).2.
Proof.
  intros HN (Hwf & Htt & Hsorted & Hnonnull).
  destruct (decide (true_top_ s = 0)) as [Hz|Hnz].
  { by rewrite remove_on_logically_empty_aux. }
  assert (0 < true_size s ≤ SIZE_MAX) as Hpos by (unfold true_size; lia).
  destruct (match_or_not N s item Hwf) as [[i Hi]|Hno].
  - rewrite (remove_found N s item HN Hwf Hpos i Hi). simpl.
    destruct Hwf as [Hlen Htop]. destruct Hi as (Hi & _). unfold size in Hi.
    destruct (shift_down_spec (Z.to_nat (top_ s - 1 - i)) (pairs_ s) i (top_ s - 1))
      as [Hlen' Hat]; [lia|done|lia|].
    split; [|split; [|split]]; simpl.
    + split; simpl; lia.
    + lia.
    + intros j k Hj Hjk Hk. rewrite !Hat by lia.
      destruct (Z.leb_spec i j), (Z.ltb_spec j (top_ s - 1)),
               (Z.leb_spec i k), (Z.ltb_spec k (top_ s - 1));
        simpl; try lia; apply Hsorted; lia.
    + intros j Hj. rewrite Hat by lia.
      destruct (Z.leb_spec i j), (Z.ltb_spec j (top_ s - 1));
        simpl; try lia; apply Hnonnull; lia.
  - rewrite (remove_not_found N s item HN Hwf Hpos Hno).
    destruct Hwf as [Hlen Htop].
    destruct (Z.ltb_spec (top_ s) (true_top_ s));
      (split; [split|split; [|split]]); simpl; (done || lia).
Qed.

(** A scan of [check_held] that the configured aborts let through bounds
    the held orders by the proposed one. *)
Lemma checked_fits N s mutex order :
  N ≤ INT64_MAX → tracked_ok N s →
  (let p := deref s (check_held_loop N s mutex order 0 (Z.to_nat (top_ s))) in
   p.1 = nullptr ∨ ¬ order < p.2) →
  fits s order.
Proof.
  intros HN (Hwf & _ & Hsorted & Hnonnull) Hcheck.
  apply (sorted_orders_at N s Hwf) in Hsorted.
  destruct (check_held_loop N s mutex order 0 (Z.to_nat (top_ s))) as [k|] eqn:Hr.
  - pose proof (check_held_loop_spec N s Hwf mutex order (Z.to_nat (top_ s)) 0 HN) as Hspec.
    rewrite Hr, Z.sub_0_r in Hspec.
    pose proof Hwf as [Hlen Htop].
    destruct Hspec as (Hk & _); [lia|lia|].
    simpl in Hcheck. destruct Hcheck as [Hnull|Hnot].
    + by destruct (Hnonnull k).
    + exact (check_held_recursion_fits N s mutex order k HN Hwf Hsorted Hr Hnot).
  - exact (check_held_invalid_fits N s mutex order HN Hwf Hsorted Hr).
Qed.

(** A scan that neither the inversion nor the recursion abort stopped has
    seen that the proposed pair is not on the stack. *)
Lemma checked_fresh N s mutex order :
  N ≤ INT64_MAX → tracked_ok N s →
  (let p := deref s (check_held_loop N s mutex order 0 (Z.to_nat (top_ s))) in
   p.1 = nullptr ∨ (¬ order < p.2 ∧ p.2 ≠ order)) →
  ∀ j, 0 ≤ j < top_ s → at_ (pairs_ s) j ≠ (mutex, order).
Proof.
  intros HN (Hwf & _ & Hsorted & Hnonnull) Hcheck j Hj Heq.
  pose proof (check_held_loop_spec N s Hwf mutex order (Z.to_nat (top_ s)) 0 HN) as Hspec.
  rewrite Z.sub_0_r in Hspec. pose proof Hwf as [Hlen Htop].
  specialize (Hspec ltac:(lia) ltac:(lia)).
  destruct (check_held_loop N s mutex order 0 (Z.to_nat (top_ s))) as [k|].
  - destruct Hspec as (Hk & Hc & _). simpl in Hcheck.
    destruct Hcheck as [Hnull|[Hnot Hne]]; [by destruct (Hnonnull k)|].
    destruct Hc as [?|[? _]]; done.
  - destruct Hspec as [Hall|(k & Hk & Hlow & Habove)].
    + destruct (Hall j Hj) as [_ Hh]. by rewrite Heq in Hh.
    + destruct (Z.le_gt_cases j k) as [Hle|Hgt].
      * specialize (Hsorted j k ltac:(lia) Hle ltac:(lia)). rewrite Heq in Hsorted.
        simpl in Hsorted. lia.
      * destruct (Habove j ltac:(lia)) as [_ Hh]. by rewrite Heq in Hh.
Qed.

Lemma push_distinct_ok N s item payload :
  0 < N ≤ SIZE_MAX → distinct_ok N s → item ≠ nullptr → fits s payload →
  (∀ j, 0 ≤ j < top_ s → at_ (pairs_ s) j ≠ (item, payload)) →
  distinct_ok N (push N s item payload).
Proof.
  intros HN [Htracked Hdistinct] Hitem Hfits Hfresh.
  split; [by apply push_tracked_ok|].
  destruct Htracked as ([Hlen Htop] & _).
  destruct (push_tracked N s item payload HN Htop) as (Hpairs & Htop' & _).
  set (k0 := Z.min (top_ s) (N - 1)) in *.
  intros j k Hj Hjk Hk. rewrite Hpairs.
  destruct (decide (k = k0)) as [->|].
  - rewrite at_insert_eq, at_insert_ne by lia. apply Hfresh. lia.
  - rewrite !at_insert_ne by lia. apply Hdistinct; lia.
Qed.

Lemma remove_distinct_ok N s item :
  N ≤ SIZE_MAX → distinct_ok N s → distinct_ok N (remove s item).2.
Proof.
  intros HN [Htracked Hdistinct].
  split; [by apply remove_tracked_ok|].
  destruct Htracked as (Hwf & Htt & _).
  destruct (decide (true_top_ s = 0)) as [Hz|Hnz].
  { by rewrite remove_on_logically_empty_aux. }
  assert (0 < true_size s ≤ SIZE_MAX) as Hpos by (unfold true_size; lia).
  destruct (match_or_not N s item Hwf) as [[i Hi]|Hno].
  - rewrite (remove_found N s item HN Hwf Hpos i Hi). simpl.
    destruct Hwf as [Hlen Htop]. destruct Hi as (Hi & _). unfold size in Hi.
    destruct (shift_down_spec (Z.to_nat (top_ s - 1 - i)) (pairs_ s) i (top_ s - 1))
      as [Hlen' Hat]; [lia|done|lia|].
    intros j k Hj Hjk Hk. rewrite !Hat by lia.
    destruct (Z.leb_spec i j), (Z.ltb_spec j (top_ s - 1)),
             (Z.leb_spec i k), (Z.ltb_spec k (top_ s - 1));
      simpl; try lia; apply Hdistinct; lia.
  - rewrite (remove_not_found N s item HN Hwf Hpos Hno).
    by destruct (Z.ltb_spec (top_ s) (true_top_ s)).
Qed.

Section run_facts.
Context {Attr : Attributes}.

(** A property of held stacks that a push let through by [pre_lock] and a
    removal both keep. *)
Variable P : atomic_stack → Prop.
Hypothesis Hpush : ∀ tid m w w1,
  world_ok P w → pre_lock tid m w = Done () w1 →
  P (if mutex_tracking_enabled_
     then push mutex_stack_depth_ (held_of w tid) (handle_of m) (order_ m)
     else held_of w tid).
Hypothesis Hremove : ∀ s item, P s → P (remove s item).2.

Lemma same_held_ok w w' : world_ok P w → same_held w w' → world_ok P w'.
Proof using Type. intros Hok Hsame t. rewrite (Hsame t). apply Hok. Qed.

Lemma held_updated_ok tid g w w' :
  world_ok P w → held_updated tid g w w' → P (g (held_of w tid)) → world_ok P w'.
Proof using Type.
  intros Hok Hupd Hg t. rewrite (Hupd t). case_bool_decide; [done|apply Hok].
Qed.

Lemma lock_ok tid m e w w' :
  world_ok P w → lock tid m e w = Done () w' → world_ok P w'.
Proof using Hpush.
  intros Hok Hrun. unfold lock in Hrun.
  pose proof (pre_lock_effect tid m w) as (_ & _ & Hheld1).
  destruct (pre_lock tid m w) as [[] w1|w1] eqn:Hpre;
    [|by rewrite (bind_Fatal _ _ _ _ Hpre) in Hrun].
  rewrite (bind_Done _ _ _ _ _ Hpre) in Hrun. simpl in Hheld1.
  destruct (native_effect (std_mutex_try_lock (handle_of m)) w1)
    as (w2 & Hrun2 & _ & _ & Hheld2).
  rewrite (bind_Done _ _ _ _ _ Hrun2) in Hrun.
  assert (∃ w3, (if negb (try_lock_result e)
                 then ls ← lock_scoped_stat_ctor tid m e;
                      native (std_mutex_lock (handle_of m));;
                      lock_scoped_stat_dtor tid m e ls
                 else mret ()) w2 = Done () w3 ∧ same_held w2 w3)
    as (w3 & Hrun3 & Hheld3).
  { destruct (try_lock_result e); simpl; [by exists w2|].
    destruct (lock_scoped_stat_ctor_effect tid m e w2)
      as (ls & wa & Hruna & _ & _ & _ & Hhelda).
    rewrite (bind_Done _ _ _ _ _ Hruna).
    destruct (native_effect (std_mutex_lock (handle_of m)) wa)
      as (wb & Hrunb & _ & _ & Hheldb).
    rewrite (bind_Done _ _ _ _ _ Hrunb).
    destruct (lock_scoped_stat_dtor_effect tid m e ls wb)
      as (wc & Hrunc & _ & _ & Hheldc).
    exists wc. split; [done|]. intros t. by rewrite Hheldc, Hheldb, Hhelda. }
  rewrite (bind_Done _ _ _ _ _ Hrun3) in Hrun.
  destruct (post_lock_effect tid m w3) as (w4 & Hrun4 & _ & _ & Hheld4).
  rewrite Hrun4 in Hrun. injection Hrun as <-.
  assert (∀ t, held_of w3 t = held_of w t) as Hheld.
  { intros t. by rewrite Hheld3, Hheld2, Hheld1. }
  intros t. rewrite (Hheld4 t), !Hheld. case_bool_decide; [|apply Hok].
  by eapply Hpush.
Qed.

Lemma try_lock_ok tid m timeout_ns e w r w' :
  world_ok P w → try_lock tid m timeout_ns e w = Done r w' → world_ok P w'.
Proof using Hpush.
  intros Hok Hrun. unfold try_lock in Hrun.
  pose proof (pre_lock_effect tid m w) as (_ & _ & Hheld1).
  destruct (pre_lock tid m w) as [[] w1|w1] eqn:Hpre;
    [|by rewrite (bind_Fatal _ _ _ _ Hpre) in Hrun].
  rewrite (bind_Done _ _ _ _ _ Hpre) in Hrun. simpl in Hheld1.
  assert (∀ w3, same_held w w3 → ∀ w4,
            (post_lock tid m;; mret true) w3 = Done r w4 → world_ok P w4) as Hpost.
  { intros w3 Hheld3 w4 Hrun4.
    destruct (post_lock_effect tid m w3) as (w5 & Hrun5 & _ & _ & Hheld5).
    rewrite (bind_Done _ _ _ _ _ Hrun5) in Hrun4. injection Hrun4 as _ <-.
    intros t. rewrite (Hheld5 t), !Hheld3. case_bool_decide; [|apply Hok].
    by eapply Hpush. }
  destruct (timeout_ns <=? 0).
  - destruct (native_effect (std_mutex_try_lock (handle_of m)) w1)
      as (w2 & Hrun2 & _ & _ & Hheld2).
    rewrite (bind_Done _ _ _ _ _ Hrun2) in Hrun.
    assert (same_held w w2) as Hsame by (intros t; by rewrite Hheld2, Hheld1).
    destruct (negb (try_lock_result e)).
    + injection Hrun as _ <-. by eapply same_held_ok.
    + by eapply Hpost.
  - destruct (native_effect (systemTime SYSTEM_TIME_REALTIME) w1)
      as (w2 & Hrun2 & _ & _ & Hheld2).
    rewrite (bind_Done _ _ _ _ _ Hrun2) in Hrun.
    destruct (lock_scoped_stat_ctor_effect tid m e w2)
      as (ls & w3 & Hrun3 & _ & _ & _ & Hheld3).
    rewrite (bind_Done _ _ _ _ _ Hrun3) in Hrun.
    destruct (native_effect
                (pthread_mutex_timedlock (handle_of m)
                   (deadline_timespec timeout_ns (realtime_now e))) w3)
      as (w4 & Hrun4 & _ & _ & Hheld4).
    unfold deadline_timespec in Hrun4. rewrite (bind_Done _ _ _ _ _ Hrun4) in Hrun.
    destruct (negb (timedlock_result e =? 0)).
    + destruct (lock_scoped_stat_dtor_effect tid m e (ignoreWaitTime ls) w4)
        as (w5 & Hrun5 & _ & _ & Hheld5).
      rewrite (bind_Done _ _ _ _ _ Hrun5) in Hrun. injection Hrun as _ <-.
      apply (same_held_ok w); [done|].
      intros t. by rewrite Hheld5, Hheld4, Hheld3, Hheld2, Hheld1.
    + destruct (lock_scoped_stat_dtor_effect tid m e ls w4)
        as (w5 & Hrun5 & _ & _ & Hheld5).
      rewrite (bind_Done _ _ _ _ _ Hrun5) in Hrun.
      apply (Hpost w5); [|done].
      intros t. by rewrite Hheld5, Hheld4, Hheld3, Hheld2, Hheld1.
Qed.

Lemma unlock_ok tid m w w' :
  world_ok P w → unlock tid m w = Done () w' → world_ok P w'.
Proof using Hremove.
  clear Hpush.
  intros Hok Hrun. unfold unlock in Hrun.
  pose proof (pre_unlock_effect tid m w) as (_ & Hheld1).
  destruct (pre_unlock tid m w) as [[] w1|w1] eqn:Hpre;
    [|by rewrite (bind_Fatal _ _ _ _ Hpre) in Hrun].
  rewrite (bind_Done _ _ _ _ _ Hpre) in Hrun. simpl in Hheld1.
  destruct (native_effect (std_mutex_unlock (handle_of m)) w1)
    as (w2 & Hrun2 & _ & _ & Hheld2).
  rewrite Hrun2 in Hrun. injection Hrun as <-.
  apply (same_held_ok w1); [|done].
  apply (held_updated_ok tid _ w w1 Hok Hheld1).
  destruct mutex_tracking_enabled_; [|apply Hok].
  apply Hremove, Hok.
Qed.

Lemma run_ops_ok ops : ∀ w w',
  world_ok P w → run_ops ops w = Done () w' → world_ok P w'.
Proof using Hpush Hremove.
  induction ops as [|op ops IH]; intros w w' Hok Hrun; simpl in Hrun.
  - by injection Hrun as <-.
  - destruct (run_op op w) as [[] w1|w1] eqn:Hop;
      [|by rewrite (bind_Fatal _ _ _ _ Hop) in Hrun].
    rewrite (bind_Done _ _ _ _ _ Hop) in Hrun.
    apply (IH w1 w'); [|done].
    destruct op as [tid m e|tid m|tid m timeout_ns e]; simpl in Hop.
    + by eapply lock_ok.
    + by eapply unlock_ok.
    + destruct (try_lock tid m timeout_ns e w) as [r w2|w2] eqn:Htry;
        [|by rewrite (bind_Fatal _ _ _ _ Htry) in Hop].
      rewrite (bind_Done _ _ _ _ _ Htry) in Hop. injection Hop as <-.
      by eapply try_lock_ok.
Qed.
End run_facts.

(** The two properties carried along a run: stacks in order, and stacks in
    order whose entries are pairwise different. *)
Section held_invariants.
Context {Attr : Attributes}.
Hypothesis Hdepth : 0 < mutex_stack_depth_ ≤ INT64_MAX.
Hypothesis Horder : abort_on_order_check_ = true.

Lemma world_init_ok : world_ok (distinct_ok mutex_stack_depth_) world_init.
Proof using Hdepth.
  intros t. unfold held_of, world_init. simpl. rewrite lookup_empty.
  split; [split; [|split; [|split]]|]; simpl.
  - apply atomic_stack_init_wf. lia.
  - done.
  - intros j k Hj Hjk Hk. lia.
  - intros j Hj. lia.
  - intros j k Hj Hjk Hk. simpl in Hk. lia.
Qed.

Lemma tracked_push_after_pre_lock tid m w w1 :
  world_ok (tracked_ok mutex_stack_depth_) w → pre_lock tid m w = Done () w1 →
  tracked_ok mutex_stack_depth_
    (if mutex_tracking_enabled_
     then push mutex_stack_depth_ (held_of w tid) (handle_of m) (order_ m)
     else held_of w tid).
Proof using Hdepth Horder.
  intros Hok Hpre. destruct mutex_tracking_enabled_ eqn:Htrack; [|apply Hok].
  apply push_tracked_ok; [pose proof INT64_MAX_le_SIZE_MAX; lia|apply Hok|done|].
  apply (checked_fits mutex_stack_depth_ _ (handle_of m)); [lia|apply Hok|].
  destruct (pre_lock_checked tid m w w1 Hpre Htrack) as [Hnull|[Hinv _]]; [by left|].
  right. by apply Hinv.
Qed.

Lemma distinct_push_after_pre_lock tid m w w1 :
  abort_on_recursion_check_ = true →
  world_ok (distinct_ok mutex_stack_depth_) w → pre_lock tid m w = Done () w1 →
  distinct_ok mutex_stack_depth_
    (if mutex_tracking_enabled_
     then push mutex_stack_depth_ (held_of w tid) (handle_of m) (order_ m)
     else held_of w tid).
Proof using Hdepth Horder.
  intros Hrec Hok Hpre. destruct mutex_tracking_enabled_ eqn:Htrack; [|apply Hok].
  destruct (Hok tid) as [Htracked Hdistinct].
  assert (fits (held_of w tid) (order_ m)) as Hfits.
  { apply (checked_fits mutex_stack_depth_ _ (handle_of m)); [lia|done|].
    destruct (pre_lock_checked tid m w w1 Hpre Htrack) as [Hnull|[Hinv _]]; [by left|].
    right. by apply Hinv. }
  apply push_distinct_ok; [pose proof INT64_MAX_le_SIZE_MAX; lia|done|done|done|].
  apply (checked_fresh mutex_stack_depth_); [lia|done|].
  destruct (pre_lock_checked tid m w w1 Hpre Htrack) as [Hnull|[Hinv Hne]]; [by left|].
  right. split; [by apply Hinv|by apply Hne].
Qed.
End held_invariants.

(** C5, as the code has it. With the abort on order inversion configured,
    after any run of [lock], [unlock] and [try_lock] that the process
    survives, the orders on the held stack of every thread do not decrease
    from bottom to top; with the abort on recursion configured as well, no
    two entries of a stack are the same (handle, order) pair. The orders need
    not increase strictly: mutexes of one order may be held together. *)
Theorem held_orders_nondecreasing `{Attr : Attributes}
    (ops : list mutex_op) (w : world) (tid : Z) :
  0 < mutex_stack_depth_ ≤ INT64_MAX →
  abort_on_order_check_ = true →
  run_ops ops world_init = Done () w →
  StronglySorted Z.le (orders (held_of w tid)) ∧
  (abort_on_recursion_check_ = true → NoDup (items (held_of w tid))).
Proof.
  intros Hdepth Horder Hrun.
  assert (mutex_stack_depth_ ≤ SIZE_MAX) as Hsize
    by (pose proof INT64_MAX_le_SIZE_MAX; lia).
  split.
  - assert (world_ok (tracked_ok mutex_stack_depth_) w) as Hok.
    { apply (run_ops_ok _ (tracked_push_after_pre_lock Hdepth Horder)
               (λ s item, remove_tracked_ok _ s item Hsize) ops world_init w); [|done].
      intros t. apply (world_init_ok Hdepth t). }
    destruct (Hok tid) as (Hwf & _ & Hsorted & _).
    by apply (sorted_orders_at mutex_stack_depth_ _ Hwf).
  - intros Hrec.
    assert (world_ok (distinct_ok mutex_stack_depth_) w) as Hok.
    { apply (run_ops_ok _
               (λ tid m w w1, distinct_push_after_pre_lock Hdepth Horder tid m w w1 Hrec)
               (λ s item, remove_distinct_ok _ s item Hsize) ops world_init w); [|done].
      apply (world_init_ok Hdepth). }
    destruct (Hok tid) as ((Hwf & _) & Hdistinct).
    apply NoDup_alt. intros i j p Hi Hj.
    assert (∀ n, items (held_of w tid) !! n = Some p →
              (n < Z.to_nat (top_ (held_of w tid)))%nat ∧
              at_ (pairs_ (held_of w tid)) (Z.of_nat n) = p) as Hslot.
    { intros n Hn. pose proof Hwf as [Hlen Htop].
      assert (n < Z.to_nat (top_ (held_of w tid)))%nat as Hlt.
      { apply lookup_lt_Some in Hn. unfold items in Hn. rewrite length_take in Hn. lia. }
      split; [done|]. rewrite <- (Nat2Z.id n) in Hn.
      rewrite items_lookup in Hn by lia. by injection Hn. }
    destruct (Hslot i Hi) as [Hilt Hip], (Hslot j Hj) as [Hjlt Hjp].
    destruct (Nat.lt_trichotomy i j) as [Hlt|[->|Hgt]]; [|done|].
    + destruct (Hdistinct (Z.of_nat i) (Z.of_nat j)); [lia..|congruence].
    + destruct (Hdistinct (Z.of_nat j) (Z.of_nat i)); [lia..|congruence].
Qed.

Lemma held_orders_nondecreasing_witness :
  let e := {| try_lock_result := true; timedlock_result := 0;
              realtime_now := 0; time_begin := 0; time_end := 0 |} in
  let A := {| address := 4096; order_ := 3 |} in
  let B := {| address := 4160; order_ := 5 |} in
  ∃ w, run_ops [op_lock 7 A e; op_lock 7 B e; op_unlock 7 A] world_init = Done () w ∧
       StronglySorted Z.le (orders (held_of w 7)) ∧
       (abort_on_recursion_check_ = true → NoDup (items (held_of w 7))).
Proof.
  intros e A B. eexists. split; [vm_compute; reflexivity|].
  eapply (held_orders_nondecreasing [op_lock 7 A e; op_lock 7 B e; op_unlock 7 A] _ 7).
  - unfold INT64_MAX. simpl. lia.
  - reflexivity.
  - vm_compute. reflexivity.
Defined.

(** C5 as stated does not hold: a thread that locks two mutexes of order
    [kThreadBase_Mutex] holds the orders [13; 13], which are not strictly
    increasing. *)
Lemma held_orders_not_strict_counterexample :
  let e := {| try_lock_result := true; timedlock_result := 0;
              realtime_now := 0; time_begin := 0; time_end := 0 |} in
  let src := {| address := 4096; order_ := MutexOrder.kThreadBase_Mutex |} in
  let dst := {| address := 4160; order_ := MutexOrder.kThreadBase_Mutex |} in
  ∃ w, run_ops [op_lock 7 src e; op_lock 7 dst e] world_init = Done () w ∧
       orders (held_of w 7) = [13; 13] ∧
       ¬ StronglySorted Z.lt (orders (held_of w 7)).
Proof.
  intros e src dst. eexists. split; [vm_compute; reflexivity|].
  split; [reflexivity|].
  change (¬ StronglySorted Z.lt [13; 13]).
  intros (Hall & _)%StronglySorted_cons.
  apply Forall_cons in Hall as [Hlt _]. lia.
Qed.

(** * Further properties *)

(** ** atomic_stack: how the operations compose *)

Lemma lookup_at (pairs : list item_payload_pair_t) j :
  0 ≤ j → (Z.to_nat j < length pairs)%nat → pairs !! Z.to_nat j = Some (at_ pairs j).
Proof.
  intros Hj Hlt. unfold at_.
  destruct (pairs !! Z.to_nat j) eqn:E; [done|].
  apply lookup_ge_None in E. lia.
Qed.

(** The tracked entries after a push: the new pair on top of the old ones,
    the topmost of which is lost at capacity. *)
Lemma items_push N s item payload :
  0 < N ≤ SIZE_MAX → stack_wf N s →
  items (push N s item payload)
    = take (Z.to_nat (Z.min (top_ s) (N - 1))) (items s) ++ [(item, payload)].
Proof.
  intros HN [Hlen Htop].
  destruct (push_tracked N s item payload HN Htop) as (Hpairs & Htop' & _).
  unfold items. rewrite Hpairs, Htop'.
  assert (0 ≤ Z.min (top_ s) (N - 1) < N ∧ Z.min (top_ s) (N - 1) ≤ top_ s)
    as Hk0 by lia.
  generalize dependent (Z.min (top_ s) (N - 1)). intros k0 _ _ Hk0.
  unfold item_payload_pair_t in *.
  replace (Z.to_nat (k0 + 1)) with (S (Z.to_nat k0)) by lia.
  rewrite (take_S_r _ _ (item, payload)) by (apply list_lookup_insert_eq; lia).
  rewrite take_insert_ge by lia. rewrite take_take. f_equal. f_equal. lia.
Qed.

(** The tracked entries after a remove that found its handle in slot [i]. *)
Lemma items_remove_found N s item i :
  N ≤ SIZE_MAX → stack_wf N s → 0 < true_size s ≤ SIZE_MAX →
  topmost_match s item i →
  items (remove s item).2 = delete (Z.to_nat i) (items s).
Proof.
  intros HN Hwf Htt Hi. rewrite (remove_found N s item HN Hwf Htt i Hi).
  destruct Hwf as [Hlen Htop]. destruct Hi as (Hi & _). unfold size in Hi.
  destruct (shift_down_spec (Z.to_nat (top_ s - 1 - i)) (pairs_ s) i (top_ s - 1))
    as [Hlen' Hat]; [lia|done|lia|].
  unfold items. simpl. apply list_eq. intros n.
  destruct (decide (n < Z.to_nat (top_ s - 1))%nat) as [Hn|Hn].
  - rewrite lookup_take_lt by done.
    rewrite <- (Nat2Z.id n). rewrite lookup_at by lia.
    rewrite Hat by lia. rewrite Nat2Z.id.
    destruct (decide (n < Z.to_nat i)%nat) as [Hlt|Hge].
    + rewrite list_lookup_delete_lt by done. rewrite lookup_take_lt by lia.
      destruct (Z.leb_spec i (Z.of_nat n)); [lia|]. simpl.
      rewrite <- (Nat2Z.id n) at 2. by rewrite lookup_at by lia.
    + rewrite list_lookup_delete_ge by lia. rewrite lookup_take_lt by lia.
      destruct (Z.leb_spec i (Z.of_nat n)), (Z.ltb_spec (Z.of_nat n) (top_ s - 1));
        try lia. simpl.
      replace (S n) with (Z.to_nat (Z.of_nat n + 1)) by lia.
      by rewrite lookup_at by lia.
  - rewrite lookup_take_ge by lia. symmetry. apply lookup_ge_None.
    rewrite length_delete, length_take; [lia|].
    apply lookup_lt_is_Some. rewrite length_take. lia.
Qed.

(** A push is found again at once by the [remove] of its handle. *)
Lemma push_topmost_match N s item payload :
  0 < N ≤ SIZE_MAX → stack_wf N s →
  topmost_match (push N s item payload) item (Z.min (top_ s) (N - 1)).
Proof.
  intros HN [Hlen Htop].
  destruct (push_tracked N s item payload HN Htop) as (Hpairs & Htop' & _).
  unfold topmost_match, size. rewrite Hpairs, Htop'.
  split_and!; [lia|lia| |intros j Hj; lia].
  rewrite at_insert_eq by lia. done.
Qed.

Lemma push_wf N s item payload :
  0 < N ≤ SIZE_MAX → stack_wf N s → stack_wf N (push N s item payload).
Proof.
  intros HN [Hlen Htop].
  destruct (push_tracked N s item payload HN Htop) as (Hpairs & Htop' & _).
  split; [rewrite Hpairs, length_insert; done|lia].
Qed.

(** X1. Whatever the stack held, right after [push(item, payload)] the
    entry [top()] refers to is the pushed pair, at capacity too. *)
Theorem top_after_push (N : Z) (s : atomic_stack) (item payload : Z) :
  0 < N ≤ INT64_MAX → stack_wf N s →
  deref (push N s item payload) (top N (push N s item payload) 0) = (item, payload).
Proof.
  intros HN Hwf.
  assert (0 < N ≤ SIZE_MAX) as HN' by (pose proof INT64_MAX_le_SIZE_MAX; lia).
  pose proof (push_wf N s item payload HN' Hwf) as Hwf'.
  destruct Hwf as [Hlen Htop].
  destruct (push_tracked N s item payload HN' Htop) as (Hpairs & Htop' & _).
  rewrite (top_offset N _ Hwf') by lia. simpl.
  rewrite Hpairs, Htop'.
  replace (Z.min (top_ s) (N - 1) + 1 - 0 - 1) with (Z.min (top_ s) (N - 1)) by lia.
  apply at_insert_eq; lia.
Qed.

Lemma top_after_push_witness :
  let s := run_stack_ops 2 [op_push 11 3; op_push 12 5] (atomic_stack_init 2) in
  deref (push 2 s 13 7) (top 2 (push 2 s 13 7) 0) = (13, 7).
Proof.
  intros s. apply (top_after_push 2 s 13 7).
  - unfold INT64_MAX. lia.
  - split; vm_compute; [reflexivity|split; discriminate].
Defined.

(** X2. [top(offset)] and [bottom(offset)] index the same tracked entries
    from opposite ends: for an offset below the size, [top(offset)] is the
    slot [bottom(size - 1 - offset)]; for an offset from the size on (up to
    the largest [ssize_t]), both return the invalid pair. *)
Theorem top_bottom_agree (N : Z) (s : atomic_stack) (offset : Z) :
  N ≤ INT64_MAX → stack_wf N s → 0 ≤ offset ≤ INT64_MAX →
  (offset < size s →
     top N s offset = slot_ref (size s - 1 - offset) ∧
     bottom s (size s - 1 - offset) = slot_ref (size s - 1 - offset)) ∧
  (size s ≤ offset →
     top N s offset = invalid_ref ∧ bottom s offset = invalid_ref).
Proof.
  intros HN Hwf Hoff. pose proof Hwf as [Hlen Htop]. unfold size. split; intros Hcmp.
  - rewrite (top_offset N s Hwf) by lia. unfold bottom.
    destruct (Z.ltb_spec (top_ s - 1 - offset) (top_ s)); [|lia].
    split; [f_equal; lia|done].
  - unfold top, bottom.
    assert (INT64_MIN ≤ 0) by (unfold INT64_MIN; lia).
    rewrite !to_ssize_t_id by lia.
    destruct (Z.ltb_spec 0 (top_ s - offset)); [lia|].
    destruct (Z.ltb_spec offset (top_ s)); [lia|]. done.
Qed.

Lemma top_bottom_agree_witness :
  let s := run_stack_ops 4 [op_push 11 3; op_push 12 5; op_push 13 7] (atomic_stack_init 4) in
  (0 < size s →
     top 4 s 0 = slot_ref (size s - 1 - 0) ∧
     bottom s (size s - 1 - 0) = slot_ref (size s - 1 - 0)) ∧
  (size s ≤ 0 → top 4 s 0 = invalid_ref ∧ bottom s 0 = invalid_ref).
Proof.
  intros s. apply (top_bottom_agree 4 s 0).
  - unfold INT64_MAX. lia.
  - split; vm_compute; [reflexivity|split; discriminate].
  - unfold INT64_MAX. lia.
Defined.

(** A pushed handle is found again by [remove]: what the pair of calls
    leaves. *)
Lemma remove_after_push N s item payload :
  0 < N ≤ SIZE_MAX → stack_wf N s → 0 ≤ true_size s < SIZE_MAX →
  let r := remove (push N s item payload) item in
  r.1 = true ∧ stack_wf N r.2 ∧
  true_top_ r.2 = true_top_ s ∧
  top_ r.2 = Z.min (top_ s) (N - 1) ∧
  items r.2 = take (Z.to_nat (Z.min (top_ s) (N - 1))) (items s).
Proof.
  intros HN Hwf Htt r. subst r. unfold true_size, size, capacity in *.
  pose proof (push_wf N s item payload HN Hwf) as Hwf'.
  pose proof (push_topmost_match N s item payload HN Hwf) as Hmatch.
  pose proof Hwf as [Hlen Htop].
  destruct (push_tracked N s item payload HN Htop) as (Hpairs & Htop' & Htt').
  rewrite to_size_t_id in Htt' by lia.
  assert (0 < true_size (push N s item payload) ≤ SIZE_MAX) as Hpos.
  { unfold true_size. lia. }
  pose proof (items_remove_found N _ item _ ltac:(lia) Hwf' Hpos Hmatch) as Hitems.
  rewrite (remove_found N _ item ltac:(lia) Hwf' Hpos _ Hmatch) in *. simpl in *.
  rewrite (items_push N s item payload HN Hwf) in Hitems.
  rewrite delete_take_drop in Hitems.
  set (k0 := Z.min (top_ s) (N - 1)) in *.
  assert (length (take (Z.to_nat k0) (items s)) = Z.to_nat k0) as Hk0.
  { unfold items. rewrite take_take, length_take. lia. }
  rewrite take_app_length' in Hitems by (symmetry; exact Hk0).
  rewrite drop_ge in Hitems by (rewrite length_app, Hk0; simpl; lia).
  rewrite app_nil_r in Hitems.
  destruct Hwf' as [Hlenp _].
  destruct (shift_down_spec (Z.to_nat (top_ (push N s item payload) - 1 - k0))
              (pairs_ (push N s item payload)) k0 (top_ (push N s item payload) - 1))
    as [Hlen' _]; [lia|done|lia|].
  split_and!; [done| |lia|lia|done].
  split; simpl; [by rewrite Hlen'|lia].
Qed.

(** X3. [push(item, payload)] followed by [remove(item)] succeeds and
    restores the logical size; below capacity it restores the tracked entries
    and the physical size as well, while at capacity the entry that was on
    top before the push is gone from the tracked entries. *)
Theorem push_then_remove_restores (N : Z) (s : atomic_stack) (item payload : Z) :
  0 < N ≤ SIZE_MAX → stack_wf N s → 0 ≤ true_size s < SIZE_MAX →
  let r := remove (push N s item payload) item in
  r.1 = true ∧
  true_size r.2 = true_size s ∧
  (size s < capacity N → size r.2 = size s ∧ items r.2 = items s) ∧
  (size s = capacity N →
     size r.2 = size s - 1 ∧ items r.2 = take (Z.to_nat (N - 1)) (items s)).
Proof.
  intros HN Hwf Htt r.
  destruct (remove_after_push N s item payload HN Hwf Htt)
    as (Hr & _ & Htt' & Htop' & Hitems).
  fold r in Hr, Htt', Htop', Hitems. unfold true_size, size, capacity.
  split; [done|]. split; [done|]. split.
  - intros Hlt. rewrite Z.min_l in Htop', Hitems by lia. split; [done|].
    rewrite Hitems. unfold items. rewrite take_take. f_equal. lia.
  - intros Heq. rewrite Z.min_r in Htop', Hitems by lia. split; [lia|done].
Qed.

Lemma push_then_remove_restores_witness :
  let s := run_stack_ops 2 [op_push 11 3] (atomic_stack_init 2) in
  let r := remove (push 2 s 12 5) 12 in
  r.1 = true ∧
  true_size r.2 = true_size s ∧
  (size s < capacity 2 → size r.2 = size s ∧ items r.2 = items s) ∧
  (size s = capacity 2 →
     size r.2 = size s - 1 ∧ items r.2 = take (Z.to_nat (2 - 1)) (items s)).
Proof.
  intros s. apply (push_then_remove_restores 2 s 12 5).
  - unfold SIZE_MAX, size_modulus. lia.
  - split; vm_compute; [reflexivity|split; discriminate].
  - vm_compute. split; [discriminate|reflexivity].
Defined.

(** ** atomic_stack against the handles really held *)

Lemma handles_length N s : stack_wf N s → length (handles s) = Z.to_nat (top_ s).
Proof.
  intros [Hlen Htop]. unfold handles, items, item_payload_pair_t in *.
  rewrite length_fmap, length_take. lia.
Qed.

Lemma NoDup_delete_lookup {A} (l : list A) i x :
  NoDup l → l !! i = Some x → x ∉ delete i l.
Proof.
  intros Hnd Hi. rewrite <- (take_drop_middle l i x Hi) in Hnd.
  apply NoDup_app in Hnd as (_ & Hdisj & Hnd). apply NoDup_cons in Hnd as [Hx _].
  rewrite delete_take_drop. intros [Hin|Hin]%elem_of_app; [|done].
  apply (Hdisj x Hin). left.
Qed.

(** The tracked handles are never more than the handles held. *)
Lemma tracks_size N held s : tracks N held s → top_ s ≤ true_top_ s.
Proof.
  intros (Hwf & Htt & Hnd & Hsub).
  pose proof (handles_length N s Hwf) as Hlen. destruct Hwf as [_ Htop].
  assert (base.size (list_to_set (handles s) : gset Z) ≤ base.size held)%nat as Hle.
  { apply subseteq_size. intros h Hh. apply elem_of_list_to_set in Hh. auto. }
  rewrite size_list_to_set in Hle by done. lia.
Qed.

Lemma push_tracks N held s item payload :
  0 < N ≤ SIZE_MAX → Z.of_nat (base.size held) < SIZE_MAX →
  tracks N held s → item ∉ held →
  tracks N ({[item]} ∪ held) (push N s item payload).
Proof.
  intros HN Hb (Hwf & Htt & Hnd & Hsub) Hfresh.
  pose proof (push_wf N s item payload HN Hwf) as Hwf'.
  pose proof (items_push N s item payload HN Hwf) as Hitems.
  destruct Hwf as [Hlen Htop].
  destruct (push_tracked N s item payload HN Htop) as (_ & _ & Htt').
  rewrite to_size_t_id in Htt' by lia.
  assert (handles (push N s item payload)
          = take (Z.to_nat (Z.min (top_ s) (N - 1))) (handles s) ++ [item]) as Hh.
  { unfold handles. rewrite Hitems, fmap_app, fmap_take. done. }
  split; [done|]. split; [|split].
  - rewrite size_union, size_singleton by (apply disjoint_singleton_l; done). lia.
  - rewrite Hh. apply NoDup_app. split; [|split].
    + eapply sublist_NoDup; [exact Hnd|apply sublist_take].
    + intros h Hin ->%list_elem_of_singleton. apply Hfresh, Hsub.
      by apply (subseteq_take _ _ _ Hin).
    + apply NoDup_singleton.
  - intros h. rewrite Hh. intros [Hin| ->%list_elem_of_singleton]%elem_of_app.
    + apply elem_of_union_r, Hsub. by apply (subseteq_take _ _ _ Hin).
    + apply elem_of_union_l, elem_of_singleton. done.
Qed.

Lemma remove_tracks N held s item :
  N ≤ SIZE_MAX → Z.of_nat (base.size held) ≤ SIZE_MAX →
  tracks N held s → item ∈ held →
  (remove s item).1 = true ∧ tracks N (held ∖ {[item]}) (remove s item).2.
Proof.
  intros HN Hb Htr Hheld. pose proof (tracks_size N held s Htr) as Hsz.
  destruct Htr as (Hwf & Htt & Hnd & Hsub).
  assert (base.size held ≠ 0)%nat as Hne.
  { intros Hz. apply size_empty_iff in Hz. apply (Hz item) in Hheld. set_solver. }
  assert (Z.of_nat (base.size (held ∖ {[item]})) = true_top_ s - 1) as Hsize'.
  { rewrite size_difference by (by apply singleton_subseteq_l).
    rewrite size_singleton. lia. }
  assert (0 < true_size s ≤ SIZE_MAX) as Hpos by (unfold true_size; lia).
  destruct (match_or_not N s item Hwf) as [[i Hi]|Hno].
  - pose proof (items_remove_found N s item i HN Hwf Hpos Hi) as Hitems.
    rewrite (remove_found N s item HN Hwf Hpos i Hi) in *. simpl in *.
    destruct Hi as (Hi & Hm & _). unfold size in Hi. pose proof Hwf as [Hlen Htop].
    destruct (shift_down_spec (Z.to_nat (top_ s - 1 - i)) (pairs_ s) i (top_ s - 1))
      as [Hlen' _]; [lia|done|lia|].
    assert (handles s !! Z.to_nat i = Some item) as Hlook.
    { unfold handles. rewrite list_lookup_fmap, items_lookup by lia. by rewrite <- Hm. }
    split; [done|]. split; [|split; [|split]].
    + split; simpl; [by rewrite Hlen'|lia].
    + simpl. lia.
    + unfold handles. rewrite Hitems, list_fmap_delete.
      eapply sublist_NoDup; [exact Hnd|apply sublist_delete].
    + intros h. unfold handles at 1. rewrite Hitems, list_fmap_delete. intros Hin.
      apply elem_of_difference. split.
      * apply Hsub. eapply elem_of_sublist; [exact Hin|apply sublist_delete].
      * intros ->%elem_of_singleton. by apply (NoDup_delete_lookup _ _ _ Hnd Hlook).
  - assert (∀ h, h ∈ handles s → h ∈ held ∖ {[item]}) as Hsub'.
    { intros h Hin. apply elem_of_difference. split; [auto|].
      intros ->%elem_of_singleton.
      apply (elem_of_handles N s Hwf) in Hin as (j & Hj & Hm). by apply (Hno j). }
    assert (top_ s < true_top_ s) as Hlt.
    { pose proof (handles_length N s Hwf) as Hl. destruct Hwf as [_ Htop].
      assert (base.size (list_to_set (handles s) : gset Z)
              ≤ base.size (held ∖ {[item]}))%nat as Hle.
      { apply subseteq_size. intros h Hh. apply elem_of_list_to_set in Hh. auto. }
      rewrite size_list_to_set in Hle by done. lia. }
    rewrite (remove_not_found N s item HN Hwf Hpos Hno).
    destruct (Z.ltb_spec (top_ s) (true_top_ s)); [|lia]. simpl.
    split; [done|]. split; [exact Hwf|]. split; [simpl; lia|]. split; done.
Qed.

Lemma run_tracks N : 0 < N ≤ SIZE_MAX → ∀ ops held s held',
  tracks N held s →
  Z.of_nat (base.size held) + Z.of_nat (length ops) ≤ SIZE_MAX →
  held_after held ops = Some held' →
  Forall (eq true) (remove_results N ops s) ∧ tracks N held' (run_stack_ops N ops s).
Proof.
  intros HN ops. induction ops as [|[item payload|item] ops IH];
    intros held s held' Htr Hb Hrun; simpl in *.
  - injection Hrun as <-. split; [constructor|done].
  - destruct (decide (item ∈ held)) as [|Hfresh]; [done|].
    apply (IH _ _ _ (push_tracks N held s item payload HN ltac:(lia) Htr Hfresh));
      [|done].
    rewrite size_union, size_singleton by (apply disjoint_singleton_l; done). lia.
  - destruct (decide (item ∈ held)) as [Hheld|]; [|done].
    destruct (remove_tracks N held s item ltac:(lia) ltac:(lia) Htr Hheld) as [Hr Htr'].
    assert (base.size (held ∖ {[item]}) ≤ base.size held)%nat as Hle.
    { apply subseteq_size, subseteq_difference_l. done. }
    destruct (IH _ _ _ Htr' ltac:(lia) Hrun) as [Hall Hfin].
    split; [constructor; done|done].
Qed.

Lemma init_tracks N : 0 ≤ N → tracks N ∅ (atomic_stack_init N).
Proof.
  intros HN. split; [by apply atomic_stack_init_wf|].
  split; [done|]. split; [constructor|]. intros h Hin. inversion Hin.
Qed.

(** X4. A thread that only acquires handles it does not hold and only
    releases handles it holds never sees [remove] fail, however deep the
    nesting went beyond the capacity: every [remove] of the run returns
    true, the logical size is the number of handles held, the tracked
    handles are among them, and once all are released both sizes are 0. *)
Theorem held_handles_always_removable (N : Z) (ops : list stack_op) (held : gset Z) :
  0 < N ≤ SIZE_MAX → Z.of_nat (length ops) ≤ SIZE_MAX →
  held_after ∅ ops = Some held →
  let s := run_stack_ops N ops (atomic_stack_init N) in
  Forall (eq true) (remove_results N ops (atomic_stack_init N)) ∧
  true_size s = Z.of_nat (base.size held) ∧
  (∀ h, h ∈ handles s → h ∈ held) ∧
  (held = ∅ → size s = 0 ∧ true_size s = 0).
Proof.
  intros HN Hlen Hrun s.
  destruct (run_tracks N HN ops ∅ (atomic_stack_init N) held
              (init_tracks N ltac:(lia)) ltac:(rewrite size_empty; lia) Hrun)
    as [Hall Htr].
  fold s in Htr. pose proof (tracks_size N held s Htr) as Hsz.
  destruct Htr as (Hwf & Htt & Hnd & Hsub). destruct Hwf as [_ Htop].
  split; [done|]. split; [done|]. split; [done|].
  intros ->. rewrite size_empty in Htt. unfold size, true_size. lia.
Qed.

Lemma held_handles_always_removable_witness :
  let ops := [op_push 11 1; op_push 12 2; op_push 13 3;
              op_remove 11; op_remove 13; op_remove 12] in
  let s := run_stack_ops 2 ops (atomic_stack_init 2) in
  Forall (eq true) (remove_results 2 ops (atomic_stack_init 2)) ∧
  true_size s = Z.of_nat (base.size (∅ : gset Z)) ∧
  (∀ h, h ∈ handles s → h ∈ (∅ : gset Z)) ∧
  ((∅ : gset Z) = ∅ → size s = 0 ∧ true_size s = 0).
Proof.
  intros ops. apply (held_handles_always_removable 2 ops ∅).
  - unfold SIZE_MAX, size_modulus. lia.
  - unfold SIZE_MAX, size_modulus. simpl. lia.
  - vm_compute. reflexivity.
Defined.

(** ** deadlock_detection: the chain as a walk in the wait graph *)

(** What the traversal returns when started on the state read off the
    descriptor of [cur]: a walk from [cur] whose tids but the last are new,
    registered and pairwise different, ended by a repeated tid (a cycle) or at
    a thread with no edge. *)
Lemma traverse_spec names reg mtt fuel : ∀ (V : gset Z) cur tinfo d0 d,
  tid_to_info reg cur = Some tinfo →
  traverse names fuel reg mtt V (mutex_wait_ tinfo)
    (owi_tid_ (other_wait_info_ tinfo)) (owi_reason_ (other_wait_info_ tinfo))
    (owi_order_ (other_wait_info_ tinfo)) d0 = Some d →
  ∃ c, chain d = chain d0 ++ c ∧ is_wait_path names reg mtt cur c ∧
    ((c = [] ∧ wait_edge names mtt tinfo = None ∧ has_cycle d = has_cycle d0) ∨
     (∃ pre last, c.*1 = pre ++ [last] ∧ NoDup pre ∧
        (∀ x, x ∈ pre → (x ∉ V) ∧ x ∈ registry_tids reg) ∧
        ((has_cycle d = true ∧ (last ∈ V ∨ last ∈ pre)) ∨
         (has_cycle d = has_cycle d0 ∧ (last ∉ V) ∧ (last ∉ pre) ∧
          wait_edge_of names reg mtt last = None)))).
Proof.
  induction fuel as [|fuel IH]; intros V cur tinfo d0 d Hcur Hrun; [done|].
  assert (∀ tid2 order reason d0',
    chain d0' = chain d0 → has_cycle d0' = has_cycle d0 →
    wait_edge names mtt tinfo = Some (tid2, chain_label names reason order) →
    (if decide (tid2 ∈ V)
     then Some (set_has_cycle (push_chain d0' (tid2, chain_label names reason order)) true)
     else match tid_to_info reg tid2 with
          | None => Some (push_chain d0' (tid2, chain_label names reason order))
          | Some tinfo' =>
              traverse names fuel reg mtt ({[tid2]} ∪ V)
                (mutex_wait_ tinfo') (owi_tid_ (other_wait_info_ tinfo'))
                (owi_reason_ (other_wait_info_ tinfo'))
                (owi_order_ (other_wait_info_ tinfo'))
                (push_chain d0' (tid2, chain_label names reason order))
          end) = Some d →
    ∃ c, chain d = chain d0 ++ c ∧ is_wait_path names reg mtt cur c ∧
      ((c = [] ∧ wait_edge names mtt tinfo = None ∧ has_cycle d = has_cycle d0) ∨
       (∃ pre last, c.*1 = pre ++ [last] ∧ NoDup pre ∧
          (∀ x, x ∈ pre → (x ∉ V) ∧ x ∈ registry_tids reg) ∧
          ((has_cycle d = true ∧ (last ∈ V ∨ last ∈ pre)) ∨
           (has_cycle d = has_cycle d0 ∧ (last ∉ V) ∧ (last ∉ pre) ∧
            wait_edge_of names reg mtt last = None))))) as Hstep.
  { intros tid2 order reason d0' Hchain Hcyc Hedge Hres.
    set (e := (tid2, chain_label names reason order)) in *.
    assert (wait_edge_of names reg mtt cur = Some e) as Hedge_of.
    { unfold wait_edge_of. by rewrite Hcur. }
    destruct (decide (tid2 ∈ V)) as [Hin|Hnotin].
    { injection Hres as <-. exists [e]. simpl. rewrite Hchain.
      split; [done|]. split; [done|]. right. exists [], tid2.
      split; [done|]. split; [constructor|]. split; [by intros x Hx%elem_of_nil|].
      left. by split; [|left]. }
    destruct (tid_to_info reg tid2) as [tinfo'|] eqn:Hinfo'.
    2:{ injection Hres as <-. exists [e]. simpl. rewrite Hchain.
        split; [done|]. split; [done|]. right. exists [], tid2.
        split; [done|]. split; [constructor|]. split; [by intros x Hx%elem_of_nil|].
        right. split; [done|]. split; [done|]. split; [by intros Hx%elem_of_nil|].
        unfold wait_edge_of. by rewrite Hinfo'. }
    destruct (IH _ tid2 tinfo' _ d Hinfo' Hres) as (c' & Hc' & Hpath' & Hshape).
    exists (e :: c'). simpl in Hc'. rewrite Hchain, <- app_assoc in Hc'.
    split; [done|]. split; [done|]. right.
    destruct Hshape as [(-> & Hnone & Hsame)|(pre & last & Hpre & Hnd & Hnew & Hend)].
    - exists [], tid2. split; [done|]. split; [constructor|].
      split; [by intros x Hx%elem_of_nil|]. right. simpl in Hsame.
      split; [congruence|]. split; [done|]. split; [by intros Hx%elem_of_nil|].
      unfold wait_edge_of. by rewrite Hinfo'.
    - exists (tid2 :: pre), last. split; [by rewrite fmap_cons, Hpre|].
      split.
      { constructor; [|done]. intros Hin. destruct (Hnew _ Hin) as [Hn _].
        apply Hn, elem_of_union_l, elem_of_singleton. done. }
      split.
      { intros x [->|Hx]%elem_of_cons.
        - split; [done|]. by eapply tid_to_info_registered.
        - destruct (Hnew _ Hx) as [Hn Hr]. split; [|done].
          intros Hv. apply Hn, elem_of_union_r. done. }
      destruct Hend as [[Hcycle Hlast]|(Hsame & HlastV & Hlastpre & Hnone)].
      + left. split; [done|].
        destruct Hlast as [[->%elem_of_singleton|Hv]%elem_of_union|Hp].
        * right. left.
        * by left.
        * right. by right.
      + right. simpl in Hsame. split; [congruence|]. split.
        { intros Hv. apply HlastV, elem_of_union_r. done. }
        split; [|done].
        intros [->|Hp]%elem_of_cons; [|done].
        apply HlastV, elem_of_union_l, elem_of_singleton. done. }
  cbn [traverse] in Hrun.
  destruct (if mutex_wait_ tinfo =? nullptr then None else mtt !! mutex_wait_ tinfo)
    as [[tid2 order]|] eqn:Hm.
  - apply (Hstep tid2 order other_wait_reason_t.none d0 eq_refl eq_refl); [|exact Hrun].
    unfold wait_edge. by rewrite Hm.
  - destruct (owi_tid_ (other_wait_info_ tinfo) =? kInvalidTid) eqn:Ht; simpl in Hrun.
    + injection Hrun as <-. exists []. rewrite app_nil_r.
      split; [done|]. split; [done|]. left. split; [done|]. split; [|done].
      unfold wait_edge. by rewrite Hm, Ht.
    + apply (Hstep (owi_tid_ (other_wait_info_ tinfo))
               (owi_order_ (other_wait_info_ tinfo))
               (owi_reason_ (other_wait_info_ tinfo))
               (set_other_wait_reason d0 (owi_reason_ (other_wait_info_ tinfo)))
               eq_refl eq_refl); [|exact Hrun].
      unfold wait_edge. by rewrite Hm, Ht.
Qed.

Lemma registry_tids_size (registry_map : registry_map_t) :
  (base.size (registry_tids registry_map) ≤ length registry_map)%nat.
Proof.
  unfold registry_tids. induction registry_map as [|[t i] l IH].
  { change (base.size (∅ : gset Z) ≤ 0)%nat. by rewrite size_empty. }
  change (base.size ({[t]} ∪ list_to_set l.*1 : gset Z) ≤ S (length l))%nat.
  pose proof (size_union_alt ({[t]} : gset Z) (list_to_set l.*1)) as Hu.
  pose proof (subseteq_size (list_to_set l.*1 ∖ {[t]} : gset Z) (list_to_set l.*1)
                (subseteq_difference_l _ _ _ (reflexivity _))).
  rewrite size_singleton in Hu. lia.
Qed.

(** What [deadlock_detection] returns, in the terms of the wait graph. *)
Lemma deadlock_detection_spec N names reg tid :
  ∃ d, deadlock_detection N names reg tid = Some d ∧
    is_wait_path names reg (helper_map N reg) tid (chain d) ∧
    ((chain d = [] ∧ has_cycle d = false ∧
      wait_edge_of names reg (helper_map N reg) tid = None) ∨
     (∃ pre last, (chain d).*1 = pre ++ [last] ∧ NoDup (tid :: pre) ∧
        (∀ x, x ∈ tid :: pre → x ∈ registry_tids reg) ∧
        ((has_cycle d = true ∧ last ∈ tid :: pre) ∨
         (has_cycle d = false ∧ (last ∉ tid :: pre) ∧
          wait_edge_of names reg (helper_map N reg) last = None)))).
Proof.
  destruct (deadlock_detection_returns N names reg tid) as [d Hd].
  exists d. split; [done|]. unfold deadlock_detection, helper_map in *.
  unfold wait_edge_of at 1.
  destruct (tid_to_info reg tid) as [tinfo|] eqn:Hinfo.
  2:{ injection Hd as <-. split; [done|]. by left. }
  destruct ((mutex_wait_ tinfo =? nullptr)
            && (owi_tid_ (other_wait_info_ tinfo) =? kInvalidTid)) eqn:Hboth.
  { injection Hd as <-. apply andb_true_iff in Hboth as [Hm Ht].
    split; [done|]. left. split; [done|]. split; [done|].
    unfold wait_edge. by rewrite Hm, Ht. }
  destruct (build_mutex_to_tid N reg (∅, false)) as [mtt subset].
  destruct (traverse_spec _ _ _ _ _ tid tinfo _ d Hinfo Hd)
    as (c & Hc & Hpath & Hshape).
  change (chain (deadlock_info_init tid) ++ c) with c in Hc. subst c.
  change (wait_edge names (mtt, subset).1 tinfo) with (wait_edge names mtt tinfo).
  change ((mtt, subset).1) with mtt.
  split; [done|].
  destruct Hshape as [(Hnil & Hnone & Hcyc)|(pre & last & Hpre & Hnd & Hnew & Hend)];
    [by left|].
  right. exists pre, last. split; [done|]. split; [|split].
  - constructor; [|done]. intros Hin. destruct (Hnew _ Hin) as [Hn _].
    by apply Hn, elem_of_singleton.
  - intros x [->|Hx]%elem_of_cons; [by eapply tid_to_info_registered|by apply Hnew].
  - destruct Hend as [[Hcyc Hlast]|(Hcyc & HlastV & Hlastpre & Hnone)].
    + left. split; [done|].
      destruct Hlast as [->%elem_of_singleton|Hp]; [left|by right].
    + right. split; [done|]. split; [|done].
      intros [->|Hp]%elem_of_cons; [|done]. by apply HlastV, elem_of_singleton.
Qed.

(** X5. Every link of the chain [deadlock_detection] returns is a wait edge:
    the first entry is the edge leaving the target tid, each further entry the
    edge leaving the tid of the entry before it, with the label of that edge
    (the mutex name, the name prefixed cv-, join, or queue). *)
Theorem deadlock_chain_follows_wait_edges (N : Z) (mutex_names : list string)
    (registry_map : registry_map_t) (tid : Z) :
  ∃ deadlock_info,
    deadlock_detection N mutex_names registry_map tid = Some deadlock_info ∧
    is_wait_path mutex_names registry_map (helper_map N registry_map) tid
      (chain deadlock_info).
Proof.
  destruct (deadlock_detection_spec N mutex_names registry_map tid) as (d & Hd & Hpath & _).
  by exists d.
Qed.

(** X6. [has_cycle] is set exactly when the walk came back to a thread it
    had been at: then the last tid of the chain is the target tid or an
    earlier tid of the chain, and those are pairwise different; when it is
    not set, the target tid and the tids of the chain are pairwise
    different. *)
Theorem deadlock_cycle_is_repeated_tid (N : Z) (mutex_names : list string)
    (registry_map : registry_map_t) (tid : Z) :
  ∃ deadlock_info,
    deadlock_detection N mutex_names registry_map tid = Some deadlock_info ∧
    (has_cycle deadlock_info = true →
       ∃ pre last, (chain deadlock_info).*1 = pre ++ [last] ∧
                   NoDup (tid :: pre) ∧ last ∈ tid :: pre) ∧
    (has_cycle deadlock_info = false → NoDup (tid :: (chain deadlock_info).*1)).
Proof.
  destruct (deadlock_detection_spec N mutex_names registry_map tid)
    as (d & Hd & _ & Hshape).
  exists d. split; [done|].
  destruct Hshape as [(Hnil & Hcyc & _)|(pre & last & Hpre & Hnd & _ & Hend)].
  { rewrite Hnil, Hcyc. split; [done|]. intros _. apply NoDup_singleton. }
  destruct Hend as [[Hcyc Hlast]|(Hcyc & Hlast & _)]; rewrite Hcyc.
  - split; [|done]. intros _. by exists pre, last.
  - split; [done|]. intros _. rewrite Hpre.
    change (NoDup ((tid :: pre) ++ [last])). apply NoDup_app.
    split; [done|]. split; [|apply NoDup_singleton].
    by intros x Hx ->%list_elem_of_singleton.
Qed.

(** X7. The walk stops early only on a cycle: when [has_cycle] is not set,
    the thread the chain ends at (the target itself for an empty chain) has
    no wait edge, because it is blocked on nothing the registry copy knows or
    has no live descriptor in it. *)
Theorem deadlock_walk_is_maximal (N : Z) (mutex_names : list string)
    (registry_map : registry_map_t) (tid : Z) :
  ∃ deadlock_info,
    deadlock_detection N mutex_names registry_map tid = Some deadlock_info ∧
    (has_cycle deadlock_info = false →
       wait_edge_of mutex_names registry_map (helper_map N registry_map)
         (default tid (last (chain deadlock_info).*1)) = None).
Proof.
  destruct (deadlock_detection_spec N mutex_names registry_map tid)
    as (d & Hd & _ & Hshape).
  exists d. split; [done|]. intros Hno.
  destruct Hshape as [(Hnil & _ & Hnone)|(pre & last & Hpre & _ & _ & Hend)].
  { by rewrite Hnil. }
  rewrite Hpre, last_snoc. simpl.
  destruct Hend as [[Hcyc _]|(_ & _ & Hnone)]; [congruence|done].
Qed.

(** X8. The chain never has more entries than the registry copy: each tid
    in it but the last is registered and different from the target and from
    the others. *)
Theorem deadlock_chain_length_bound (N : Z) (mutex_names : list string)
    (registry_map : registry_map_t) (tid : Z) :
  ∃ deadlock_info,
    deadlock_detection N mutex_names registry_map tid = Some deadlock_info ∧
    (length (chain deadlock_info) ≤ length registry_map)%nat.
Proof.
  destruct (deadlock_detection_spec N mutex_names registry_map tid)
    as (d & Hd & _ & Hshape).
  exists d. split; [done|].
  destruct Hshape as [(Hnil & _)|(pre & last & Hpre & Hnd & Hreg & _)].
  { rewrite Hnil. simpl. lia. }
  apply (f_equal length) in Hpre. rewrite length_fmap, length_app in Hpre. simpl in Hpre.
  pose proof (registry_tids_size registry_map) as Hsize.
  assert (base.size (list_to_set (tid :: pre) : gset Z)
          ≤ base.size (registry_tids registry_map))%nat as Hle.
  { apply subseteq_size. intros x Hx. apply elem_of_list_to_set in Hx. auto. }
  rewrite size_list_to_set in Hle by done. simpl in Hle. lia.
Qed.

(** ** deadlock_detection: the helper map *)

Lemma collect_held_spec stack tid2 m fuel : ∀ i acc,
  (∀ v, collect_held stack tid2 i fuel acc !! m = Some v →
     acc !! m = Some v ∨
     (m ≠ nullptr ∧ v.1 = tid2 ∧
      ∃ j, i ≤ j < i + Z.of_nat fuel ∧ deref stack (bottom stack j) = (m, v.2))) ∧
  (is_Some (acc !! m) → is_Some (collect_held stack tid2 i fuel acc !! m)) ∧
  (∀ j, i ≤ j < i + Z.of_nat fuel → (deref stack (bottom stack j)).1 = m →
     m ≠ nullptr → is_Some (collect_held stack tid2 i fuel acc !! m)).
Proof.
  induction fuel as [|fuel IH]; intros i acc; cbn [collect_held].
  { split; [by left|]. split; [done|]. intros j Hj. lia. }
  destruct (deref stack (bottom stack i)) as [ptr order] eqn:Hi. cbn [fst snd].
  set (acc' := if ptr =? nullptr then acc else <[ptr := (tid2, order)]> acc).
  destruct (IH (i + 1) acc') as (Hsound & Hmono & Hcompl).
  assert (is_Some (acc !! m) → is_Some (acc' !! m)) as Hacc.
  { intros Hs. subst acc'. destruct (ptr =? nullptr); [done|].
    destruct (decide (m = ptr)) as [->|Hne].
    - rewrite lookup_insert_eq. by eexists.
    - by rewrite lookup_insert_ne. }
  split; [|split].
  - intros v Hv. destruct (Hsound v Hv) as [Hv'|(Hnn & Ht & j & Hj & Hd)].
    + subst acc'. destruct (Z.eqb_spec ptr nullptr) as [Hz|Hnz]; [by left|].
      destruct (decide (m = ptr)) as [->|Hne].
      * rewrite lookup_insert_eq in Hv'. injection Hv' as <-. right.
        split; [done|]. split; [done|]. exists i. split; [lia|done].
      * rewrite lookup_insert_ne in Hv' by done. by left.
    + right. split; [done|]. split; [done|]. exists j. split; [lia|done].
  - intros Hs. by apply Hmono, Hacc.
  - intros j Hj Hm Hnn. destruct (decide (j = i)) as [->|Hne].
    + apply Hmono. rewrite Hi in Hm. simpl in Hm. subst ptr acc'.
      destruct (Z.eqb_spec m nullptr); [done|]. rewrite lookup_insert_eq. by eexists.
    + apply (Hcompl j); [lia|done..].
Qed.

Lemma build_mutex_to_tid_spec N m reg : ∀ acc,
  (∀ v, (build_mutex_to_tid N reg acc).1 !! m = Some v →
     acc.1 !! m = Some v ∨
     (m ≠ nullptr ∧
      ∃ info j, (v.1, Some info) ∈ reg ∧
        0 ≤ j < Z.min (size (mutexes_held_ info)) (capacity N) ∧
        deref (mutexes_held_ info) (bottom (mutexes_held_ info) j) = (m, v.2))) ∧
  (is_Some (acc.1 !! m) → is_Some ((build_mutex_to_tid N reg acc).1 !! m)) ∧
  (∀ t info j, (t, Some info) ∈ reg →
     0 ≤ j < Z.min (size (mutexes_held_ info)) (capacity N) →
     (deref (mutexes_held_ info) (bottom (mutexes_held_ info) j)).1 = m →
     m ≠ nullptr → is_Some ((build_mutex_to_tid N reg acc).1 !! m)) ∧
  ((build_mutex_to_tid N reg acc).2 = true ↔
     acc.2 = true ∨
     ∃ t info, (t, Some info) ∈ reg ∧
       Z.min (size (mutexes_held_ info)) (capacity N) ≠ true_size (mutexes_held_ info)).
Proof.
  induction reg as [|[t [info|]] reg IH]; intros acc; cbn [build_mutex_to_tid].
  - split; [by left|]. split; [done|]. split; [by intros t info j Hin%elem_of_nil|].
    split; [by left|]. intros [?|(t & info & Hin%elem_of_nil & _)]; done.
  - set (stack := mutexes_held_ info). set (sz := Z.min (size stack) (capacity N)).
    set (acc' := (collect_held stack t 0 (Z.to_nat sz) acc.1,
                  acc.2 || negb (sz =? true_size stack))).
    destruct (IH acc') as (Hsound & Hmono & Hcompl & Hsub).
    destruct (collect_held_spec stack t m (Z.to_nat sz) 0 acc.1)
      as (Hsound1 & Hmono1 & Hcompl1).
    split; [|split; [|split]].
    + intros v Hv. destruct (Hsound v Hv) as [Hv'|(Hnn & i & j & Hin & Hj & Hd)].
      * destruct (Hsound1 v Hv') as [?|(Hnn & Ht & j & Hj & Hd)]; [by left|].
        right. split; [done|]. exists info, j. rewrite Ht.
        split; [left|]. split; [fold stack sz; lia|done].
      * right. split; [done|]. exists i, j. split; [by right|done].
    + intros Hs. by apply Hmono, Hmono1.
    + intros t' info' j [Heq|Hin]%elem_of_cons Hj Hm Hnn.
      * injection Heq as -> ->. apply Hmono, (Hcompl1 j); [fold stack sz in Hj; lia|done..].
      * by eapply Hcompl.
    + rewrite Hsub. subst acc'. cbn [snd]. rewrite orb_true_iff, negb_true_iff. split.
      * intros [[?|Hne]|(t' & info' & Hin & Hne)]; [by left| |].
        -- right. exists t, info. split; [left|]. fold stack sz.
           by apply Z.eqb_neq.
        -- right. exists t', info'. split; [by right|done].
      * intros [?|(t' & info' & [Heq|Hin]%elem_of_cons & Hne)]; [by left; left| |].
        -- injection Heq as -> ->. left. right. by apply Z.eqb_neq.
        -- right. by exists t', info'.
  - destruct (IH acc) as (Hsound & Hmono & Hcompl & Hsub).
    split; [|split; [|split]].
    + intros v Hv. destruct (Hsound v Hv) as [?|(Hnn & i & j & Hin & Hj & Hd)]; [by left|].
      right. split; [done|]. exists i, j. split; [by right|done].
    + done.
    + intros t' info' j [Heq|Hin]%elem_of_cons Hj Hm Hnn; [done|]. by eapply Hcompl.
    + rewrite Hsub. split.
      * intros [?|(t' & info' & Hin & Hne)]; [by left|].
        right. exists t', info'. split; [by right|done].
      * intros [?|(t' & info' & [Heq|Hin]%elem_of_cons & Hne)]; [by left|done|].
        right. by exists t', info'.
Qed.

(** X9. The helper map of [deadlock_detection] holds what the registered
    threads track and nothing else: a handle it maps to [(tid, order)] is not
    null and is tracked with that order by the live descriptor registered for
    that tid; every non-null handle a live registered descriptor tracks is
    mapped; and [subset] is set exactly when some live registered descriptor
    holds more than it tracks. *)
Theorem helper_map_tracks_held (N : Z) (registry_map : registry_map_t) :
  (∀ t info, (t, Some info) ∈ registry_map → stack_wf N (mutexes_held_ info)) →
  (∀ m t o, helper_map N registry_map !! m = Some (t, o) →
     m ≠ nullptr ∧
     ∃ info, (t, Some info) ∈ registry_map ∧ (m, o) ∈ items (mutexes_held_ info)) ∧
  (∀ t info m o, (t, Some info) ∈ registry_map →
     (m, o) ∈ items (mutexes_held_ info) → m ≠ nullptr →
     is_Some (helper_map N registry_map !! m)) ∧
  (helper_subset N registry_map = true ↔
     ∃ t info, (t, Some info) ∈ registry_map ∧
       size (mutexes_held_ info) ≠ true_size (mutexes_held_ info)).
Proof.
  intros Hwf. unfold helper_map, helper_subset.
  assert (∀ t info j, (t, Some info) ∈ registry_map →
            0 ≤ j < size (mutexes_held_ info) →
            deref (mutexes_held_ info) (bottom (mutexes_held_ info) j)
              = at_ (pairs_ (mutexes_held_ info)) j) as Hbottom.
  { intros t info j Hin Hj. unfold bottom, size in *.
    destruct (Z.ltb_spec j (top_ (mutexes_held_ info))); [done|lia]. }
  assert (∀ t info, (t, Some info) ∈ registry_map →
            Z.min (size (mutexes_held_ info)) (capacity N) = size (mutexes_held_ info))
    as Hmin.
  { intros t info Hin. destruct (Hwf t info Hin) as [_ Htop].
    unfold size, capacity. lia. }
  split; [|split].
  - intros m t o Hm.
    destruct (build_mutex_to_tid_spec N m registry_map (∅, false)) as (Hsound & _).
    destruct (Hsound _ Hm) as [Hempty|(Hnn & info & j & Hin & Hj & Hd)].
    { simpl in Hempty. by rewrite lookup_empty in Hempty. }
    simpl in Hin, Hd. split; [done|]. exists info. split; [done|].
    rewrite (Hmin t info Hin) in Hj. rewrite (Hbottom t info j Hin Hj) in Hd.
    apply (elem_of_items N _ (Hwf t info Hin)). exists j. by split.
  - intros t info m o Hin Hitem Hnn.
    destruct (build_mutex_to_tid_spec N m registry_map (∅, false)) as (_ & _ & Hcompl & _).
    apply (elem_of_items N _ (Hwf t info Hin)) in Hitem as (j & Hj & Hat).
    apply (Hcompl t info j Hin); [by rewrite (Hmin t info Hin)| |done].
    rewrite (Hbottom t info j Hin Hj), Hat. done.
  - destruct (build_mutex_to_tid_spec N 0 registry_map (∅, false)) as (_ & _ & _ & Hsub).
    rewrite Hsub. simpl. split.
    + intros [?|(t & info & Hin & Hne)]; [done|].
      exists t, info. split; [done|]. by rewrite (Hmin t info Hin) in Hne.
    + intros (t & info & Hin & Hne). right. exists t, info. split; [done|].
      by rewrite (Hmin t info Hin).
Qed.

Lemma helper_map_tracks_held_witness :
  let deep := push_held 2 (push_held 2 (push_held 2
                (thread_mutex_info_init 2 7) 4096 13) 4160 15) 4224 17 in
  let idle := thread_mutex_info_init 2 8 in
  let registry_map := [(7, Some deep); (8, Some idle); (9, None)] in
  (∀ m t o, helper_map 2 registry_map !! m = Some (t, o) →
     m ≠ nullptr ∧
     ∃ info, (t, Some info) ∈ registry_map ∧ (m, o) ∈ items (mutexes_held_ info)) ∧
  (∀ t info m o, (t, Some info) ∈ registry_map →
     (m, o) ∈ items (mutexes_held_ info) → m ≠ nullptr →
     is_Some (helper_map 2 registry_map !! m)) ∧
  (helper_subset 2 registry_map = true ↔
     ∃ t info, (t, Some info) ∈ registry_map ∧
       size (mutexes_held_ info) ≠ true_size (mutexes_held_ info)).
Proof.
  intros deep idle registry_map. apply (helper_map_tracks_held 2 registry_map).
  intros t info Hin. subst registry_map.
  apply elem_of_cons in Hin as [Heq|Hin].
  { injection Heq as -> ->. split; vm_compute; [reflexivity|split; discriminate]. }
  apply elem_of_cons in Hin as [Heq|Hin].
  { injection Heq as -> ->. split; vm_compute; [reflexivity|split; discriminate]. }
  apply list_elem_of_singleton in Hin. discriminate Hin.
Defined.

(** ** The descriptors along an operation *)

Section info_effects.
Context {Attr : Attributes}.

Lemma held_of_info_of w tid : held_of w tid = mutexes_held_ (info_of w tid).
Proof. unfold held_of, info_of. by destruct (thread_infos w !! tid). Qed.

Lemma same_infos_refl w : same_infos w w.
Proof. by intros t. Qed.

Lemma same_infos_trans w1 w2 w3 : same_infos w1 w2 → same_infos w2 w3 → same_infos w1 w3.
Proof. intros H12 H23 t. by rewrite H23, H12. Qed.

Lemma same_infos_updated tid w w' : same_infos w w' → info_updated tid id w w'.
Proof. intros Hs t. rewrite Hs. by case_bool_decide; subst. Qed.

Lemma info_updated_trans tid f g w1 w2 w3 :
  info_updated tid f w1 w2 → info_updated tid g w2 w3 → info_updated tid (g ∘ f) w1 w3.
Proof.
  intros H12 H23 t. rewrite H23. case_bool_decide as Ht.
  - rewrite H12. by rewrite bool_decide_eq_true_2.
  - rewrite H12. by rewrite bool_decide_eq_false_2.
Qed.

Lemma info_updated_ext tid f g w w' :
  (∀ t, f t = g t) → info_updated tid f w w' → info_updated tid g w w'.
Proof. intros Hfg Hf t. rewrite Hf. by rewrite Hfg. Qed.

Lemma info_updated_same_l tid f w1 w2 w3 :
  same_infos w1 w2 → info_updated tid f w2 w3 → info_updated tid f w1 w3.
Proof. intros H12 H23 t. rewrite H23, !H12. done. Qed.

Lemma info_updated_same_r tid f w1 w2 w3 :
  info_updated tid f w1 w2 → same_infos w2 w3 → info_updated tid f w1 w3.
Proof. intros H12 H23 t. by rewrite H23, H12. Qed.

Lemma native_infos c w :
  ∃ w', native c w = Done () w' ∧ os_log w' = os_log w ++ [c] ∧
        same_stats w w' ∧ same_infos w w'.
Proof. by eexists. Qed.

Lemma update_stat_infos m f w :
  ∃ w', update_stat m f w = Done () w' ∧ same_log w w' ∧ same_infos w w' ∧
        mutex_stat_array w' = alter f (Z.to_nat (order_ m)) (mutex_stat_array w).
Proof. by eexists. Qed.

Lemma get_thread_mutex_info_exact tid w :
  ∃ w', get_thread_mutex_info tid w = Done (info_of w tid) w' ∧
        same_log w w' ∧ same_stats w w' ∧ same_infos w w'.
Proof.
  unfold get_thread_mutex_info, same_infos, info_of.
  destruct (thread_infos w !! tid) as [info|] eqn:E.
  - by exists w.
  - eexists. split; [done|]. split_and!; [done..|]. simpl.
    intros t. destruct (decide (t = tid)) as [->|Hne].
    + by rewrite lookup_insert_eq, E.
    + by rewrite lookup_insert_ne.
Qed.

Lemma update_thread_mutex_info_exact tid f w :
  ∃ w', update_thread_mutex_info tid f w = Done () w' ∧
        same_log w w' ∧ same_stats w w' ∧ info_updated tid f w w'.
Proof.
  unfold update_thread_mutex_info.
  destruct (get_thread_mutex_info_exact tid w) as (w1 & Hget & Hlog & Hstats & Hsame).
  rewrite (bind_Done _ _ _ _ _ Hget). eexists. split; [done|].
  unfold same_log, same_stats in *. simpl. split_and!; [done..|].
  intros t. unfold info_of at 1. simpl. case_bool_decide as Ht.
  - subst t. by rewrite lookup_insert_eq.
  - rewrite lookup_insert_ne by done. apply (Hsame t).
Qed.
End info_effects.

Section hook_infos.
Context {Attr : Attributes}.

Lemma pre_lock_infos tid m w : same_infos w (world_of (pre_lock tid m w)).
Proof.
  unfold pre_lock.
  destruct mutex_tracking_enabled_; [|apply same_infos_refl].
  destruct (negb abort_on_order_check_ && negb abort_on_recursion_check_);
    [apply same_infos_refl|].
  destruct (get_thread_mutex_info_exact tid w) as (w1 & Hget & _ & _ & Hsame).
  rewrite (bind_Done _ _ _ _ _ Hget).
  repeat case_match; done.
Qed.

Lemma post_lock_info tid m w :
  ∃ w', post_lock tid m w = Done () w' ∧ same_log w w' ∧
        info_updated tid
          (λ t, if mutex_tracking_enabled_
                then push_held mutex_stack_depth_ t (handle_of m) (order_ m) else t) w w'.
Proof.
  unfold post_lock. destruct mutex_tracking_enabled_.
  - destruct (update_stat_infos m inc_locks w) as (w1 & Hrun1 & Hlog1 & Hinfo1 & _).
    rewrite (bind_Done _ _ _ _ _ Hrun1).
    destruct (update_thread_mutex_info_exact tid
                (λ t, push_held mutex_stack_depth_ t (handle_of m) (order_ m)) w1)
      as (w2 & Hrun2 & Hlog2 & _ & Hinfo2).
    exists w2. split; [done|]. split; [unfold same_log in *; congruence|].
    by eapply info_updated_same_l.
  - exists w. split; [done|]. split; [done|]. apply same_infos_updated, same_infos_refl.
Qed.

Lemma lock_scoped_stat_ctor_info tid m e w :
  ∃ ls w', lock_scoped_stat_ctor tid m e w = Done ls w' ∧
           info_updated tid
             (λ t, if mutex_tracking_enabled_ then reset_waiter t (handle_of m) else t)
             w w'.
Proof.
  unfold lock_scoped_stat_ctor. destruct mutex_tracking_enabled_.
  - destruct (native_infos (systemTime SYSTEM_TIME_MONOTONIC) w)
      as (w1 & Hrun1 & _ & _ & Hinfo1).
    rewrite (bind_Done _ _ _ _ _ Hrun1).
    destruct (update_stat_infos m inc_waits w1) as (w2 & Hrun2 & _ & Hinfo2 & _).
    rewrite (bind_Done _ _ _ _ _ Hrun2).
    destruct (update_thread_mutex_info_exact tid (λ t, reset_waiter t (handle_of m)) w2)
      as (w3 & Hrun3 & _ & _ & Hinfo3).
    rewrite (bind_Done _ _ _ _ _ Hrun3).
    eexists _, w3. split; [done|].
    eapply info_updated_same_l; [|exact Hinfo3]. by eapply same_infos_trans.
  - eexists _, w. split; [done|]. apply same_infos_updated, same_infos_refl.
Qed.

Lemma lock_scoped_stat_dtor_info tid m e ls w :
  ∃ w', lock_scoped_stat_dtor tid m e ls w = Done () w' ∧
        info_updated tid
          (λ t, if mutex_tracking_enabled_ then reset_waiter t nullptr else t) w w'.
Proof.
  unfold lock_scoped_stat_dtor. destruct mutex_tracking_enabled_.
  - assert (∃ w1, (if discard_wait_time_ ls then mret ()
                   else native (systemTime SYSTEM_TIME_MONOTONIC);;
                        update_stat m (λ st, add_wait_time st
                                               (to_int64 (time_end e - time_ ls)))) w
                  = Done () w1 ∧ same_infos w w1) as (w1 & Hrun1 & Hinfo1).
    { destruct (discard_wait_time_ ls); [exists w; split; [done|apply same_infos_refl]|].
      destruct (native_infos (systemTime SYSTEM_TIME_MONOTONIC) w)
        as (wa & Hruna & _ & _ & Hinfoa).
      rewrite (bind_Done _ _ _ _ _ Hruna).
      destruct (update_stat_infos m
                  (λ st, add_wait_time st (to_int64 (time_end e - time_ ls))) wa)
        as (wb & Hrunb & _ & Hinfob & _).
      exists wb. split; [done|]. by eapply same_infos_trans. }
    rewrite (bind_Done _ _ _ _ _ Hrun1).
    destruct (update_thread_mutex_info_exact tid (λ t, reset_waiter t nullptr) w1)
      as (w2 & Hrun2 & _ & _ & Hinfo2).
    exists w2. split; [done|]. by eapply info_updated_same_l.
  - exists w. split; [done|]. apply same_infos_updated, same_infos_refl.
Qed.

(** [pre_unlock] removes the handle from the caller's stack, and aborts
    exactly when the removal fails and the configuration asks for it. *)
Lemma pre_unlock_info tid m w :
  ∃ w', pre_unlock tid m w =
          (if mutex_tracking_enabled_ && abort_on_invalid_unlock_
              && negb (remove_held (info_of w tid) (handle_of m)).1
           then Fatal w' else Done () w') ∧
        same_log w w' ∧
        info_updated tid
          (λ t, if mutex_tracking_enabled_ then (remove_held t (handle_of m)).2 else t)
          w w'.
Proof.
  unfold pre_unlock. destruct mutex_tracking_enabled_; simpl.
  - destruct (update_stat_infos m inc_unlocks w) as (w1 & Hrun1 & Hlog1 & Hinfo1 & _).
    rewrite (bind_Done _ _ _ _ _ Hrun1).
    destruct (get_thread_mutex_info_exact tid w1) as (w2 & Hrun2 & Hlog2 & _ & Hinfo2).
    rewrite (bind_Done _ _ _ _ _ Hrun2). rewrite (Hinfo1 tid).
    destruct (remove_held (info_of w tid) (handle_of m)) as [success info'] eqn:Hrem.
    destruct (update_thread_mutex_info_exact tid (λ _, info') w2)
      as (w3 & Hrun3 & Hlog3 & _ & Hinfo3).
    rewrite (bind_Done _ _ _ _ _ Hrun3). exists w3. simpl.
    split; [by destruct (abort_on_invalid_unlock_ && negb success)|].
    split; [unfold same_log in *; congruence|].
    intros t. rewrite (Hinfo3 t). case_bool_decide; [by rewrite Hrem|].
    by rewrite (Hinfo2 t), (Hinfo1 t).
  - exists w. split; [done|]. split; [done|]. apply same_infos_updated, same_infos_refl.
Qed.
End hook_infos.

Section op_infos.
Context {Attr : Attributes}.

(** The descriptors after a [lock] that returned. *)
Lemma lock_info tid m e w w' :
  lock tid m e w = Done () w' →
  info_updated tid
    (λ t, if mutex_tracking_enabled_ then info_step (op_lock tid m e) t else t) w w'.
Proof.
  intros Hrun. unfold lock in Hrun.
  pose proof (pre_lock_infos tid m w) as Hinfo1.
  destruct (pre_lock tid m w) as [[] w1|w1] eqn:Hpre;
    [|by rewrite (bind_Fatal _ _ _ _ Hpre) in Hrun].
  rewrite (bind_Done _ _ _ _ _ Hpre) in Hrun. simpl in Hinfo1.
  destruct (native_infos (std_mutex_try_lock (handle_of m)) w1)
    as (w2 & Hrun2 & _ & _ & Hinfo2).
  rewrite (bind_Done _ _ _ _ _ Hrun2) in Hrun.
  assert (∃ w3, (if negb (try_lock_result e)
                 then ls ← lock_scoped_stat_ctor tid m e;
                      native (std_mutex_lock (handle_of m));;
                      lock_scoped_stat_dtor tid m e ls
                 else mret ()) w2 = Done () w3 ∧
                info_updated tid
                  (λ t, if mutex_tracking_enabled_
                        then (if try_lock_result e then t else reset_waiter t nullptr)
                        else t) w2 w3)
    as (w3 & Hrun3 & Hinfo3).
  { destruct (try_lock_result e); simpl.
    - exists w2. split; [done|].
      eapply info_updated_ext; cycle 1.
      + apply same_infos_updated, same_infos_refl.
      + intros t. by destruct mutex_tracking_enabled_.
    - destruct (lock_scoped_stat_ctor_info tid m e w2) as (ls & wa & Hruna & Hinfoa).
      rewrite (bind_Done _ _ _ _ _ Hruna).
      destruct (native_infos (std_mutex_lock (handle_of m)) wa)
        as (wb & Hrunb & _ & _ & Hinfob).
      rewrite (bind_Done _ _ _ _ _ Hrunb).
      destruct (lock_scoped_stat_dtor_info tid m e ls wb) as (wc & Hrunc & Hinfoc).
      exists wc. split; [done|].
      eapply info_updated_ext; cycle 1.
      + eapply info_updated_trans; [exact Hinfoa|].
        eapply info_updated_same_l; [exact Hinfob|exact Hinfoc].
      + intros t. unfold compose. by destruct mutex_tracking_enabled_. }
  rewrite (bind_Done _ _ _ _ _ Hrun3) in Hrun.
  destruct (post_lock_info tid m w3) as (w4 & Hrun4 & _ & Hinfo4).
  rewrite Hrun4 in Hrun. injection Hrun as <-.
  eapply info_updated_ext; cycle 1.
  - eapply info_updated_trans; [|exact Hinfo4].
    eapply info_updated_same_l; [|exact Hinfo3]. by eapply same_infos_trans.
  - intros t. unfold compose, info_step. by destruct mutex_tracking_enabled_.
Qed.

(** [unlock] aborts exactly when the handle is not found on the caller's
    stack and the configuration asks for it; either way the handle is taken
    off the stack. *)
Lemma unlock_info tid m w :
  ∃ w', unlock tid m w =
          (if mutex_tracking_enabled_ && abort_on_invalid_unlock_
              && negb (remove_held (info_of w tid) (handle_of m)).1
           then Fatal w' else Done () w') ∧
        info_updated tid
          (λ t, if mutex_tracking_enabled_ then info_step (op_unlock tid m) t else t)
          w w'.
Proof.
  unfold unlock. destruct (pre_unlock_info tid m w) as (w1 & Hrun1 & _ & Hinfo1).
  destruct (mutex_tracking_enabled_ && abort_on_invalid_unlock_
            && negb (remove_held (info_of w tid) (handle_of m)).1).
  - exists w1. by rewrite (bind_Fatal _ _ _ _ Hrun1).
  - rewrite (bind_Done _ _ _ _ _ Hrun1).
    destruct (native_infos (std_mutex_unlock (handle_of m)) w1)
      as (w2 & Hrun2 & _ & _ & Hinfo2).
    exists w2. split; [done|]. by eapply info_updated_same_r.
Qed.

(** [try_lock] returns what the native attempt answered, and the
    descriptors after it. *)
Lemma try_lock_info tid m timeout_ns e w r w' :
  try_lock tid m timeout_ns e w = Done r w' →
  r = (if timeout_ns <=? 0 then try_lock_result e else timedlock_result e =? 0) ∧
  info_updated tid
    (λ t, if mutex_tracking_enabled_
          then info_step (op_try_lock tid m timeout_ns e) t else t) w w'.
Proof.
  intros Hrun. unfold try_lock in Hrun.
  pose proof (pre_lock_infos tid m w) as Hinfo1.
  destruct (pre_lock tid m w) as [[] w1|w1] eqn:Hpre;
    [|by rewrite (bind_Fatal _ _ _ _ Hpre) in Hrun].
  rewrite (bind_Done _ _ _ _ _ Hpre) in Hrun. simpl in Hinfo1.
  unfold info_step. destruct (timeout_ns <=? 0).
  - destruct (native_infos (std_mutex_try_lock (handle_of m)) w1)
      as (w2 & Hrun2 & _ & _ & Hinfo2).
    rewrite (bind_Done _ _ _ _ _ Hrun2) in Hrun.
    assert (same_infos w w2) as Hsame by (by eapply same_infos_trans).
    destruct (try_lock_result e); simpl in Hrun.
    + destruct (post_lock_info tid m w2) as (w3 & Hrun3 & _ & Hinfo3).
      rewrite (bind_Done _ _ _ _ _ Hrun3) in Hrun. injection Hrun as <- <-.
      split; [done|]. by eapply info_updated_same_l.
    + injection Hrun as <- <-. split; [done|].
      eapply info_updated_ext; cycle 1.
      * by apply same_infos_updated.
      * intros t. by destruct mutex_tracking_enabled_.
  - destruct (native_infos (systemTime SYSTEM_TIME_REALTIME) w1)
      as (w2 & Hrun2 & _ & _ & Hinfo2).
    rewrite (bind_Done _ _ _ _ _ Hrun2) in Hrun.
    destruct (lock_scoped_stat_ctor_info tid m e w2) as (ls & w3 & Hrun3 & Hinfo3).
    rewrite (bind_Done _ _ _ _ _ Hrun3) in Hrun.
    destruct (native_infos
                (pthread_mutex_timedlock (handle_of m)
                   (deadline_timespec timeout_ns (realtime_now e))) w3)
      as (w4 & Hrun4 & _ & _ & Hinfo4).
    unfold deadline_timespec in Hrun4. rewrite (bind_Done _ _ _ _ _ Hrun4) in Hrun.
    assert (∀ ls' w5, lock_scoped_stat_dtor tid m e ls' w4 = Done () w5 →
              info_updated tid
                (λ t, if mutex_tracking_enabled_ then reset_waiter t nullptr else t)
                w4 w5 →
              info_updated tid
                (λ t, if mutex_tracking_enabled_ then reset_waiter t nullptr else t)
                w w5) as Hwait.
    { intros ls' w5 _ Hinfo5. eapply info_updated_ext; cycle 1.
      - eapply info_updated_same_l; [by eapply same_infos_trans|].
        eapply info_updated_trans; [exact Hinfo3|].
        eapply info_updated_same_l; [exact Hinfo4|exact Hinfo5].
      - intros t. unfold compose. by destruct mutex_tracking_enabled_. }
    destruct (timedlock_result e =? 0); simpl in Hrun.
    + destruct (lock_scoped_stat_dtor_info tid m e ls w4) as (w5 & Hrun5 & Hinfo5).
      rewrite (bind_Done _ _ _ _ _ Hrun5) in Hrun.
      destruct (post_lock_info tid m w5) as (w6 & Hrun6 & _ & Hinfo6).
      rewrite (bind_Done _ _ _ _ _ Hrun6) in Hrun. injection Hrun as <- <-.
      split; [done|]. eapply info_updated_ext; cycle 1.
      * eapply info_updated_trans; [exact (Hwait _ _ Hrun5 Hinfo5)|exact Hinfo6].
      * intros t. unfold compose. by destruct mutex_tracking_enabled_.
    + destruct (lock_scoped_stat_dtor_info tid m e (ignoreWaitTime ls) w4)
        as (w5 & Hrun5 & Hinfo5).
      rewrite (bind_Done _ _ _ _ _ Hrun5) in Hrun. injection Hrun as <- <-.
      split; [done|]. exact (Hwait _ _ Hrun5 Hinfo5).
Qed.

(** The descriptors after any operation that returned. *)
Lemma run_op_info op w w' :
  run_op op w = Done () w' →
  info_updated (tid_of op)
    (λ t, if mutex_tracking_enabled_ then info_step op t else t) w w'.
Proof.
  destruct op as [tid m e|tid m|tid m timeout_ns e]; simpl; intros Hrun.
  - by apply lock_info.
  - destruct (unlock_info tid m w) as (w1 & Hrun1 & Hinfo1).
    rewrite Hrun in Hrun1. destruct (_ && _); [done|]. by injection Hrun1 as <-.
  - destruct (try_lock tid m timeout_ns e w) as [r w1|w1] eqn:Htry;
      [|by rewrite (bind_Fatal _ _ _ _ Htry) in Hrun].
    rewrite (bind_Done _ _ _ _ _ Htry) in Hrun. injection Hrun as <-.
    by apply (try_lock_info _ _ _ _ _ _ _ Htry).
Qed.
End op_infos.

(** ** Guards, try_lock and quiescent threads *)

Lemma remove_held_fst t h : (remove_held t h).1 = (remove (mutexes_held_ t) h).1.
Proof. unfold remove_held. by destruct (remove (mutexes_held_ t) h). Qed.

Lemma remove_held_snd t h :
  (remove_held t h).2 = set_mutexes_held t (remove (mutexes_held_ t) h).2.
Proof. unfold remove_held. by destruct (remove (mutexes_held_ t) h). Qed.

(** A removed handle pushed again: it moves to the top. *)
Lemma push_after_remove N s item payload i :
  0 < N ≤ SIZE_MAX → stack_wf N s → 0 < true_size s ≤ SIZE_MAX →
  topmost_match s item i →
  let r := remove s item in
  let s' := push N r.2 item payload in
  r.1 = true ∧ stack_wf N s' ∧ true_top_ s' = true_top_ s ∧ top_ s' = top_ s ∧
  items s' = delete (Z.to_nat i) (items s) ++ [(item, payload)].
Proof.
  intros HN Hwf Htt Hi r s'. subst s' r.
  pose proof (items_remove_found N s item i ltac:(lia) Hwf Htt Hi) as Hitems.
  rewrite (remove_found N s item ltac:(lia) Hwf Htt i Hi) in *. cbn [fst snd] in *.
  pose proof Hwf as [Hlen Htop]. pose proof Hi as (Hilt & _). unfold size, true_size in *.
  destruct (shift_down_spec (Z.to_nat (top_ s - 1 - i)) (pairs_ s) i (top_ s - 1))
    as [Hlen' _]; [lia|done|lia|].
  set (s1 := {| pairs_ := shift_down (pairs_ s) i (top_ s - 1) (Z.to_nat (top_ s - 1 - i));
                top_ := top_ s - 1; true_top_ := true_top_ s - 1 |}) in *.
  assert (stack_wf N s1) as Hwf1.
  { split; simpl; [by rewrite Hlen'|lia]. }
  pose proof (push_wf N s1 item payload HN Hwf1) as Hwf2.
  pose proof (items_push N s1 item payload HN Hwf1) as Hitems2.
  destruct (push_tracked N s1 item payload HN ltac:(simpl; lia)) as (_ & Htop2 & Htt2).
  simpl in Htop2, Htt2, Hitems2. rewrite to_size_t_id in Htt2 by lia.
  rewrite Z.min_l in Htop2, Hitems2 by lia.
  split; [done|]. split; [done|]. split; [lia|]. split; [lia|].
  rewrite Hitems2, Hitems. rewrite take_ge; [done|].
  rewrite <- Hitems. unfold items. simpl. rewrite length_take. lia.
Qed.

(** X10. A [lock_guard] scope whose body leaves the caller's held stack as
    it found it ends without aborting, however the guard's mutex was got:
    the destructor's [unlock] finds the handle, the logical size is what it
    was before the scope, and below capacity so are the tracked entries. No
    other thread's stack is touched by the destructor. *)
Theorem lock_guard_restores `{Attr : Attributes} {A : Type}
    (tid : Z) (m : mutex) (e : oracle) (body : M A) (w w1 w2 : world) (a : A) :
  0 < mutex_stack_depth_ ≤ SIZE_MAX →
  stack_wf mutex_stack_depth_ (held_of w tid) →
  0 ≤ true_size (held_of w tid) < SIZE_MAX →
  lock tid m e w = Done () w1 →
  body w1 = Done a w2 →
  held_of w2 tid = held_of w1 tid →
  ∃ w3, lock_guard tid m e body w = Done a w3 ∧
        true_size (held_of w3 tid) = true_size (held_of w tid) ∧
        (size (held_of w tid) < capacity mutex_stack_depth_ →
           items (held_of w3 tid) = items (held_of w tid)) ∧
        (∀ t, t ≠ tid → held_of w3 t = held_of w2 t).
Proof.
  intros Hdepth Hwf Htt Hlock Hbody Hsame.
  unfold lock_guard. rewrite (bind_Done _ _ _ _ _ Hlock), (bind_Done _ _ _ _ _ Hbody).
  pose proof (lock_info tid m e w w1 Hlock tid) as Hinfo1.
  rewrite bool_decide_eq_true_2 in Hinfo1 by done.
  destruct (unlock_info tid m w2) as (w3 & Hrun3 & Hinfo3).
  pose proof (Hinfo3 tid) as Hmine. rewrite bool_decide_eq_true_2 in Hmine by done.
  assert (∀ t, t ≠ tid → held_of w3 t = held_of w2 t) as Hothers.
  { intros t Hne. rewrite !held_of_info_of, (Hinfo3 t).
    by rewrite bool_decide_eq_false_2. }
  rewrite !held_of_info_of in *.
  destruct mutex_tracking_enabled_ eqn:Htrack; simpl in *.
  - assert (mutexes_held_ (info_of w2 tid)
            = push mutex_stack_depth_ (mutexes_held_ (info_of w tid))
                (handle_of m) (order_ m)) as Hpushed.
    { rewrite Hsame, Hinfo1. by destruct (try_lock_result e). }
    destruct (remove_after_push mutex_stack_depth_ (mutexes_held_ (info_of w tid))
                (handle_of m) (order_ m) Hdepth Hwf Htt)
      as (Hr & _ & Htt' & Htop' & Hitems).
    rewrite <- Hpushed in Hr, Htt', Htop', Hitems.
    rewrite remove_held_fst, Hr, andb_false_r in Hrun3.
    exists w3. rewrite (bind_Done _ _ _ _ _ Hrun3). split; [done|].
    rewrite !held_of_info_of, Hmine, remove_held_snd. simpl.
    split; [done|]. split; [|done].
    unfold size, capacity. intros Hlt. rewrite Hitems, Z.min_l by lia.
    unfold items. rewrite take_take. f_equal. lia.
  - exists w3. rewrite (bind_Done _ _ _ _ _ Hrun3). split; [done|].
    rewrite !held_of_info_of, Hmine, Hsame, Hinfo1. done.
Qed.

Lemma lock_guard_restores_witness :
  let e := {| try_lock_result := false; timedlock_result := 0;
              realtime_now := 0; time_begin := 10; time_end := 25 |} in
  let m := {| address := 4096; order_ := MutexOrder.kThreadBase_Mutex |} in
  ∃ w3, lock_guard 7 m e (mret ()) world_init = Done () w3 ∧
        true_size (held_of w3 7) = true_size (held_of world_init 7) ∧
        (size (held_of world_init 7) < capacity mutex_stack_depth_ →
           items (held_of w3 7) = items (held_of world_init 7)) ∧
        (∀ t, t ≠ 7 → held_of w3 t = held_of (world_of (lock 7 m e world_init)) t).
Proof.
  intros e m.
  apply (lock_guard_restores 7 m e (mret ()) world_init
           (world_of (lock 7 m e world_init)) (world_of (lock 7 m e world_init)) ()).
  - unfold SIZE_MAX, size_modulus. simpl. lia.
  - split; vm_compute; [reflexivity|split; discriminate].
  - vm_compute. split; [discriminate|reflexivity].
  - vm_compute. reflexivity.
  - reflexivity.
  - reflexivity.
Defined.

(** X11. [try_lock] returns what the native attempt answered: [true]
    exactly when [m_.try_lock()] succeeded, or with a positive timeout when
    [pthread_mutex_timedlock] returned 0. An attempt that failed leaves every
    held stack as it was; one that succeeded has pushed the mutex on the
    caller's stack and touched no other. *)
Theorem try_lock_reports_the_native_answer `{Attr : Attributes}
    (tid : Z) (m : mutex) (timeout_ns : Z) (e : oracle) (w w' : world) (r : bool) :
  try_lock tid m timeout_ns e w = Done r w' →
  r = (if timeout_ns <=? 0 then try_lock_result e else timedlock_result e =? 0) ∧
  (r = false → ∀ t, held_of w' t = held_of w t) ∧
  (r = true → mutex_tracking_enabled_ = true →
     held_of w' tid
       = push mutex_stack_depth_ (held_of w tid) (handle_of m) (order_ m)) ∧
  (∀ t, t ≠ tid → held_of w' t = held_of w t).
Proof.
  intros Hrun. destruct (try_lock_info tid m timeout_ns e w r w' Hrun) as [Hr Hinfo].
  split; [done|].
  assert (∀ t, t ≠ tid → held_of w' t = held_of w t) as Hothers.
  { intros t Hne. rewrite !held_of_info_of, (Hinfo t). by rewrite bool_decide_eq_false_2. }
  pose proof (Hinfo tid) as Hmine. rewrite bool_decide_eq_true_2 in Hmine by done.
  unfold info_step in Hmine. split; [|split; [|done]].
  - intros Hfalse t. destruct (decide (t = tid)) as [->|Hne]; [|by apply Hothers].
    rewrite !held_of_info_of, Hmine. rewrite Hfalse in Hr.
    destruct mutex_tracking_enabled_; [|done].
    destruct (timeout_ns <=? 0); rewrite <- Hr; done.
  - intros Htrue Htrack. rewrite !held_of_info_of, Hmine, Htrack. rewrite Htrue in Hr.
    destruct (timeout_ns <=? 0); rewrite <- Hr; done.
Qed.

Lemma try_lock_reports_the_native_answer_witness :
  let e := {| try_lock_result := false; timedlock_result := 0;
              realtime_now := 500; time_begin := 10; time_end := 25 |} in
  let m := {| address := 4096; order_ := MutexOrder.kThreadBase_Mutex |} in
  let w' := world_of (try_lock 7 m 1000 e world_init) in
  true = (if 1000 <=? 0 then try_lock_result e else timedlock_result e =? 0) ∧
  (true = false → ∀ t, held_of w' t = held_of world_init t) ∧
  (true = true → mutex_tracking_enabled_ = true →
     held_of w' 7
       = push mutex_stack_depth_ (held_of world_init 7) (handle_of m) (order_ m)) ∧
  (∀ t, t ≠ 7 → held_of w' t = held_of world_init t).
Proof.
  intros e m w'.
  apply (try_lock_reports_the_native_answer 7 m 1000 e world_init w' true).
  vm_compute. reflexivity.
Defined.

Section quiescence.
Context {Attr : Attributes}.

Lemma info_step_quiet op t : quiet t → quiet (info_step op t).
Proof using Type.
  intros [Hm Ho]. unfold quiet, info_step.
  destruct op as [tid m e|tid m|tid m timeout_ns e].
  - by destruct (try_lock_result e).
  - by rewrite remove_held_snd.
  - by destruct (timeout_ns <=? 0), (try_lock_result e), (timedlock_result e =? 0).
Qed.

Lemma run_ops_quiet ops : ∀ w w',
  (∀ t, quiet (info_of w t)) → run_ops ops w = Done () w' → ∀ t, quiet (info_of w' t).
Proof using Type.
  induction ops as [|op ops IH]; intros w w' Hq Hrun; simpl in Hrun.
  - by injection Hrun as <-.
  - destruct (run_op op w) as [[] w1|w1] eqn:Hop;
      [|by rewrite (bind_Fatal _ _ _ _ Hop) in Hrun].
    rewrite (bind_Done _ _ _ _ _ Hop) in Hrun.
    apply (IH w1 w'); [|done].
    intros t. rewrite (run_op_info op w w1 Hop t).
    case_bool_decide; [|done].
    destruct mutex_tracking_enabled_; [by apply info_step_quiet|done].
Qed.

Lemma world_init_quiet t : quiet (info_of world_init t).
Proof using Type. done. Qed.

Lemma quiet_run ops w t :
  run_ops ops world_init = Done () w →
  mutex_wait_ (info_of w t) = nullptr ∧
  owi_tid_ (other_wait_info_ (info_of w t)) = kInvalidTid.
Proof using Type.
  intros Hrun. apply (run_ops_quiet ops world_init w world_init_quiet Hrun t).
Qed.
End quiescence.

(** X12. Once an operation has returned its thread is not marked as
    waiting: after any run of [lock], [unlock] and [try_lock] that the
    process survives, every descriptor has a null waiting handle and an
    invalid auxiliary-wait tid, [empty()] just says whether the held stack is
    empty, and [deadlock_detection] on a copy of the registry returns the
    fresh record (empty chain, no cycle) for every tid. *)
Theorem no_thread_waits_between_operations `{Attr : Attributes}
    (ops : list mutex_op) (w : world) :
  run_ops ops world_init = Done () w →
  (∀ t, mutex_wait_ (info_of w t) = nullptr ∧
        owi_tid_ (other_wait_info_ (info_of w t)) = kInvalidTid ∧
        empty (info_of w t) = (size (held_of w t) =? 0)) ∧
  (∀ mutex_names registry_map tid, registry_copy_of w registry_map →
     deadlock_detection mutex_stack_depth_ mutex_names registry_map tid
       = Some (deadlock_info_init tid)).
Proof.
  intros Hrun. split.
  - intros t. destruct (quiet_run ops w t Hrun) as [Hm Ho].
    split; [done|]. split; [done|].
    unfold empty. by rewrite Hm, held_of_info_of.
  - intros names reg tid Hcopy. unfold deadlock_detection. rewrite (Hcopy tid).
    destruct (thread_infos w !! tid) as [tinfo|] eqn:E; [|done].
    destruct (quiet_run ops w tid Hrun) as [Hm Ho].
    unfold info_of in Hm, Ho. rewrite E in Hm, Ho. simpl in Hm, Ho.
    by rewrite Hm, Ho.
Qed.

Lemma no_thread_waits_between_operations_witness :
  let e := {| try_lock_result := false; timedlock_result := 110;
              realtime_now := 500; time_begin := 10; time_end := 25 |} in
  let A := {| address := 4096; order_ := 3 |} in
  let B := {| address := 4160; order_ := 5 |} in
  ∃ w, run_ops [op_lock 7 A e; op_try_lock 8 B 1000 e; op_lock 7 B e; op_unlock 7 A]
         world_init = Done () w ∧
       (∀ t, mutex_wait_ (info_of w t) = nullptr ∧
             owi_tid_ (other_wait_info_ (info_of w t)) = kInvalidTid ∧
             empty (info_of w t) = (size (held_of w t) =? 0)) ∧
       (∀ mutex_names registry_map tid, registry_copy_of w registry_map →
          deadlock_detection mutex_stack_depth_ mutex_names registry_map tid
            = Some (deadlock_info_init tid)).
Proof.
  intros e A B. eexists. split; [vm_compute; reflexivity|].
  eapply (no_thread_waits_between_operations
            [op_lock 7 A e; op_try_lock 8 B 1000 e; op_lock 7 B e; op_unlock 7 A]).
  vm_compute. reflexivity.
Defined.

(** ** Condition variables and invalid unlocks *)

Section cv_infos.
Context {Attr : Attributes}.

Lemma cv_wait_scoped_stat_ctor_info tid m notifier_tid w :
  ∃ w', cv_wait_scoped_stat_ctor tid m notifier_tid w =
          (if mutex_tracking_enabled_ && abort_on_invalid_unlock_
              && negb (remove_held_for_cv (info_of w tid) (handle_of m) (order_ m)
                         notifier_tid).1
           then Fatal w' else Done () w') ∧
        same_log w w' ∧
        mutex_stat_array w' =
          (if mutex_tracking_enabled_
           then alter inc_unlocks (Z.to_nat (order_ m)) (mutex_stat_array w)
           else mutex_stat_array w) ∧
        info_updated tid
          (λ t, if mutex_tracking_enabled_
                then (remove_held_for_cv t (handle_of m) (order_ m) notifier_tid).2
                else t) w w'.
Proof.
  unfold cv_wait_scoped_stat_ctor. destruct mutex_tracking_enabled_; simpl.
  - destruct (update_stat_infos m inc_unlocks w) as (w1 & Hrun1 & Hlog1 & Hinfo1 & Hstat1).
    rewrite (bind_Done _ _ _ _ _ Hrun1).
    destruct (get_thread_mutex_info_exact tid w1)
      as (w2 & Hrun2 & Hlog2 & Hstat2 & Hinfo2).
    rewrite (bind_Done _ _ _ _ _ Hrun2). rewrite (Hinfo1 tid).
    destruct (remove_held_for_cv (info_of w tid) (handle_of m) (order_ m) notifier_tid)
      as [success info'] eqn:Hrem.
    destruct (update_thread_mutex_info_exact tid (λ _, info') w2)
      as (w3 & Hrun3 & Hlog3 & Hstat3 & Hinfo3).
    rewrite (bind_Done _ _ _ _ _ Hrun3). exists w3. simpl.
    split; [by destruct (abort_on_invalid_unlock_ && negb success)|].
    unfold same_log, same_stats in *.
    split; [congruence|]. split; [congruence|].
    intros t. rewrite (Hinfo3 t). case_bool_decide; [by rewrite Hrem|].
    by rewrite (Hinfo2 t), (Hinfo1 t).
  - exists w. split; [done|]. split; [done|]. split; [done|].
    apply same_infos_updated, same_infos_refl.
Qed.

Lemma cv_wait_scoped_stat_dtor_info tid m w :
  ∃ w', cv_wait_scoped_stat_dtor tid m w = Done () w' ∧
        same_log w w' ∧
        mutex_stat_array w' =
          (if mutex_tracking_enabled_
           then alter inc_locks (Z.to_nat (order_ m)) (mutex_stat_array w)
           else mutex_stat_array w) ∧
        info_updated tid
          (λ t, if mutex_tracking_enabled_
                then push_held_for_cv mutex_stack_depth_ t (handle_of m) (order_ m)
                else t) w w'.
Proof.
  unfold cv_wait_scoped_stat_dtor. destruct mutex_tracking_enabled_.
  - destruct (update_stat_infos m inc_locks w) as (w1 & Hrun1 & Hlog1 & Hinfo1 & Hstat1).
    rewrite (bind_Done _ _ _ _ _ Hrun1).
    destruct (update_thread_mutex_info_exact tid
                (λ t, push_held_for_cv mutex_stack_depth_ t (handle_of m) (order_ m)) w1)
      as (w2 & Hrun2 & Hlog2 & Hstat2 & Hinfo2).
    exists w2. unfold same_log, same_stats in *.
    split; [done|]. split; [congruence|]. split; [congruence|].
    by eapply info_updated_same_l.
  - exists w. split; [done|]. split; [done|]. split; [done|].
    apply same_infos_updated, same_infos_refl.
Qed.
End cv_infos.

(** When [remove] fails on a stack whose counters are consistent: the
    handle is not tracked and nothing is held beyond what is tracked. *)
Lemma remove_fails_iff N s item :
  N ≤ SIZE_MAX → sizes_inv N SIZE_MAX s →
  (remove s item).1 = false ↔ (item ∉ handles s) ∧ true_size s = size s.
Proof.
  intros HN [Hwf Hsz]. pose proof Hwf as [Hlen Htop]. unfold true_size, size.
  destruct (decide (true_top_ s = 0)) as [Hz|Hnz].
  { rewrite remove_on_logically_empty_aux by done. simpl. split; [|done].
    intros _. split; [|lia].
    intros (j & Hj & _)%(elem_of_handles N s Hwf). lia. }
  assert (0 < true_size s ≤ SIZE_MAX) as Hpos by (unfold true_size; lia).
  destruct (match_or_not N s item Hwf) as [[i Hi]|Hno].
  - rewrite (remove_found N s item HN Hwf Hpos i Hi). simpl. split; [done|].
    intros [Hnot _]. exfalso. apply Hnot, (elem_of_handles N s Hwf).
    destruct Hi as (Hi & Hm & _). unfold size in Hi. eauto.
  - rewrite (remove_not_found N s item HN Hwf Hpos Hno).
    assert (item ∉ handles s) as Hnot.
    { intros (j & Hj & Hm)%(elem_of_handles N s Hwf). by apply (Hno j). }
    destruct (Z.ltb_spec (top_ s) (true_top_ s)); simpl.
    + split; [done|]. intros [_ ?]. lia.
    + split; [|done]. intros _. split; [done|lia].
Qed.

(** X13. With tracking and the abort on invalid unlock configured,
    [unlock] and [condition_variable::wait] kill the process exactly when the
    caller's stack does not track the mutex and holds nothing beyond what it
    tracks; a thread that overflowed its stack may unlock any mutex. *)
Theorem invalid_unlock_aborts `{Attr : Attributes}
    (tid : Z) (m : mutex) (notifier_tid : Z) (w : world) :
  mutex_tracking_enabled_ = true →
  abort_on_invalid_unlock_ = true →
  mutex_stack_depth_ ≤ SIZE_MAX →
  sizes_inv mutex_stack_depth_ SIZE_MAX (held_of w tid) →
  let not_held := (handle_of m ∉ handles (held_of w tid)) ∧
                  true_size (held_of w tid) = size (held_of w tid) in
  ((∃ w', unlock tid m w = Fatal w') ↔ not_held) ∧
  ((∃ w', condition_variable_wait tid m notifier_tid w = Fatal w') ↔ not_held).
Proof.
  intros Htrack Habort Hdepth Hinv not_held. subst not_held.
  rewrite <- (remove_fails_iff _ _ (handle_of m) Hdepth Hinv).
  rewrite held_of_info_of. split.
  - destruct (unlock_info tid m w) as (w1 & Hrun1 & _).
    rewrite Htrack, Habort, remove_held_fst in Hrun1. simpl in Hrun1.
    destruct (remove (mutexes_held_ (info_of w tid)) (handle_of m)).1;
      simpl in Hrun1; rewrite Hrun1.
    + split; [by intros [w' Hw']|done].
    + split; [done|]. intros _. by exists w1.
  - unfold condition_variable_wait.
    destruct (cv_wait_scoped_stat_ctor_info tid m notifier_tid w) as (w1 & Hrun1 & _).
    rewrite Htrack, Habort in Hrun1. simpl in Hrun1.
    unfold remove_held_for_cv in Hrun1. rewrite remove_held_fst in Hrun1.
    simpl in Hrun1.
    destruct (remove (mutexes_held_ (info_of w tid)) (handle_of m)).1; simpl in Hrun1.
    + rewrite (bind_Done _ _ _ _ _ Hrun1).
      destruct (cv_wait_scoped_stat_dtor_info tid m w1) as (w2 & Hrun2 & _).
      rewrite Hrun2. split; [by intros [w' Hw']|done].
    + rewrite (bind_Fatal _ _ _ _ Hrun1). split; [done|]. intros _. by exists w1.
Qed.

Lemma invalid_unlock_aborts_witness :
  let e := {| try_lock_result := true; timedlock_result := 0;
              realtime_now := 0; time_begin := 0; time_end := 0 |} in
  let A := {| address := 4096; order_ := 3 |} in
  let B := {| address := 4160; order_ := 5 |} in
  let w := world_of (lock 7 A e world_init) in
  let not_held := (handle_of B ∉ handles (held_of w 7)) ∧
                  true_size (held_of w 7) = size (held_of w 7) in
  ((∃ w', unlock 7 B w = Fatal w') ↔ not_held) ∧
  ((∃ w', condition_variable_wait 7 B 8 w = Fatal w') ↔ not_held).
Proof.
  intros e A B w. apply (invalid_unlock_aborts 7 B 8 w).
  - reflexivity.
  - reflexivity.
  - unfold SIZE_MAX, size_modulus. simpl. lia.
  - split; [split|]; vm_compute; [reflexivity|split; discriminate|split; discriminate].
Defined.

(** [condition_variable::wait] when the removal of the handle succeeds. *)
Lemma condition_variable_wait_info `{Attr : Attributes} tid m notifier_tid w :
  mutex_tracking_enabled_ = true →
  (remove (held_of w tid) (handle_of m)).1 = true →
  ∃ w', condition_variable_wait tid m notifier_tid w = Done () w' ∧
    os_log w' = os_log w ∧
    mutex_stat_array w' =
      alter inc_locks (Z.to_nat (order_ m))
        (alter inc_unlocks (Z.to_nat (order_ m)) (mutex_stat_array w)) ∧
    info_updated tid
      (λ t, push_held_for_cv mutex_stack_depth_
              (remove_held_for_cv t (handle_of m) (order_ m) notifier_tid).2
              (handle_of m) (order_ m)) w w'.
Proof.
  intros Htrack Hr. rewrite held_of_info_of in Hr.
  unfold condition_variable_wait.
  destruct (cv_wait_scoped_stat_ctor_info tid m notifier_tid w)
    as (w1 & Hrun1 & Hlog1 & Hstat1 & Hinfo1).
  rewrite Htrack in Hrun1, Hstat1, Hinfo1.
  unfold remove_held_for_cv in Hrun1. rewrite remove_held_fst in Hrun1.
  simpl in Hrun1. rewrite Hr, andb_false_r in Hrun1.
  rewrite (bind_Done _ _ _ _ _ Hrun1).
  destruct (cv_wait_scoped_stat_dtor_info tid m w1) as (w2 & Hrun2 & Hlog2 & Hstat2 & Hinfo2).
  rewrite Htrack in Hstat2, Hinfo2.
  exists w2. split; [done|]. unfold same_log in *.
  split; [congruence|]. split; [congruence|].
  exact (info_updated_trans _ _ _ _ _ _ Hinfo1 Hinfo2).
Qed.

(** X14. [condition_variable::wait] on a mutex the caller's stack tracks
    never aborts; it counts one unlock and one lock on the mutex's category
    and no wait, makes no call on the native mutex, and leaves the other
    threads' descriptors alone. The caller's logical and physical sizes are
    what they were, but the mutex has moved to the top of its stack, and the
    auxiliary wait is left with an invalid tid, the reason [cv] and the
    order of the mutex. *)
Theorem condition_variable_wait_moves_to_top `{Attr : Attributes}
    (tid : Z) (m : mutex) (notifier_tid : Z) (w : world) (i : Z) :
  mutex_tracking_enabled_ = true →
  0 < mutex_stack_depth_ ≤ SIZE_MAX →
  stack_wf mutex_stack_depth_ (held_of w tid) →
  0 < true_size (held_of w tid) ≤ SIZE_MAX →
  topmost_match (held_of w tid) (handle_of m) i →
  ∃ w', condition_variable_wait tid m notifier_tid w = Done () w' ∧
    os_log w' = os_log w ∧
    mutex_stat_array w' =
      alter inc_locks (Z.to_nat (order_ m))
        (alter inc_unlocks (Z.to_nat (order_ m)) (mutex_stat_array w)) ∧
    (∀ t, t ≠ tid → info_of w' t = info_of w t) ∧
    mutex_wait_ (info_of w' tid) = mutex_wait_ (info_of w tid) ∧
    other_wait_info_ (info_of w' tid) =
      {| owi_tid_ := kInvalidTid; owi_reason_ := other_wait_reason_t.cv;
         owi_order_ := order_ m |} ∧
    true_size (held_of w' tid) = true_size (held_of w tid) ∧
    size (held_of w' tid) = size (held_of w tid) ∧
    items (held_of w' tid) =
      delete (Z.to_nat i) (items (held_of w tid)) ++ [(handle_of m, order_ m)].
Proof.
  intros Htrack Hdepth Hwf Htt Hi.
  destruct (push_after_remove mutex_stack_depth_ (held_of w tid) (handle_of m) (order_ m) i
              Hdepth Hwf Htt Hi) as (Hr & _ & Htt' & Htop' & Hitems).
  destruct (condition_variable_wait_info tid m notifier_tid w Htrack Hr)
    as (w' & Hrun & Hlog & Hstat & Hinfo).
  rewrite held_of_info_of in Htt', Htop', Hitems.
  exists w'. split; [done|]. split; [done|]. split; [done|]. split.
  { intros t Hne. by rewrite (Hinfo t), bool_decide_eq_false_2. }
  pose proof (Hinfo tid) as Hmine. rewrite bool_decide_eq_true_2 in Hmine by done.
  unfold remove_held_for_cv in Hmine. rewrite remove_held_snd in Hmine.
  rewrite !held_of_info_of, Hmine. unfold true_size, size. simpl.
  split; [done|]. split; [done|]. done.
Qed.

Lemma condition_variable_wait_moves_to_top_witness :
  let e := {| try_lock_result := true; timedlock_result := 0;
              realtime_now := 0; time_begin := 0; time_end := 0 |} in
  let A := {| address := 4096; order_ := 3 |} in
  let B := {| address := 4160; order_ := 5 |} in
  let w := world_of (run_ops [op_lock 7 A e; op_lock 7 B e] world_init) in
  ∃ w', condition_variable_wait 7 A 8 w = Done () w' ∧
    os_log w' = os_log w ∧
    mutex_stat_array w' =
      alter inc_locks (Z.to_nat (order_ A))
        (alter inc_unlocks (Z.to_nat (order_ A)) (mutex_stat_array w)) ∧
    (∀ t, t ≠ 7 → info_of w' t = info_of w t) ∧
    mutex_wait_ (info_of w' 7) = mutex_wait_ (info_of w 7) ∧
    other_wait_info_ (info_of w' 7) =
      {| owi_tid_ := kInvalidTid; owi_reason_ := other_wait_reason_t.cv;
         owi_order_ := order_ A |} ∧
    true_size (held_of w' 7) = true_size (held_of w 7) ∧
    size (held_of w' 7) = size (held_of w 7) ∧
    items (held_of w' 7) =
      delete (Z.to_nat 0) (items (held_of w 7)) ++ [(handle_of A, order_ A)].
Proof.
  intros e A B w. apply (condition_variable_wait_moves_to_top 7 A 8 w 0).
  - reflexivity.
  - unfold SIZE_MAX, size_modulus. simpl. lia.
  - split; vm_compute; [reflexivity|split; discriminate].
  - vm_compute. split; [reflexivity|discriminate].
  - split; [vm_compute; split; [discriminate|reflexivity]|].
    split; [reflexivity|].
    intros j Hj.
    assert (size (held_of w 7) = 2) as Hsize by (vm_compute; reflexivity).
    rewrite Hsize in Hj. assert (j = 1) as -> by lia. vm_compute. discriminate.
Defined.

(** X15. The order of the held stack does not survive a wait: when the
    caller's stack tracks an entry of greater order above the mutex it waits
    on, [condition_variable::wait] returns with the orders of the stack no
    longer non-decreasing, the mutex of lower order being on top. *)
Theorem condition_variable_wait_unsorts `{Attr : Attributes}
    (tid : Z) (m : mutex) (notifier_tid : Z) (w : world) (i j : Z) :
  mutex_tracking_enabled_ = true →
  0 < mutex_stack_depth_ ≤ SIZE_MAX →
  stack_wf mutex_stack_depth_ (held_of w tid) →
  0 < true_size (held_of w tid) ≤ SIZE_MAX →
  topmost_match (held_of w tid) (handle_of m) i →
  i < j < size (held_of w tid) →
  order_ m < (at_ (pairs_ (held_of w tid)) j).2 →
  ∃ w', condition_variable_wait tid m notifier_tid w = Done () w' ∧
        ¬ StronglySorted Z.le (orders (held_of w' tid)) ∧
        last (items (held_of w' tid)) = Some (handle_of m, order_ m).
Proof.
  intros Htrack Hdepth Hwf Htt Hi Hj Hgt.
  destruct (push_after_remove mutex_stack_depth_ (held_of w tid) (handle_of m) (order_ m) i
              Hdepth Hwf Htt Hi) as (Hr & _ & _ & _ & Hitems).
  destruct (condition_variable_wait_info tid m notifier_tid w Htrack Hr)
    as (w' & Hrun & _ & _ & Hinfo).
  exists w'. split; [done|].
  pose proof (Hinfo tid) as Hmine. rewrite bool_decide_eq_true_2 in Hmine by done.
  unfold remove_held_for_cv in Hmine. rewrite remove_held_snd in Hmine.
  assert (items (held_of w' tid)
          = delete (Z.to_nat i) (items (held_of w tid)) ++ [(handle_of m, order_ m)])
    as Hitems'.
  { rewrite <- Hitems. rewrite (held_of_info_of w' tid), Hmine. simpl.
    by rewrite held_of_info_of. }
  split; [|by rewrite Hitems', last_snoc].
  unfold orders. rewrite Hitems', fmap_app. intros Hsorted.
  apply StronglySorted_app in Hsorted as (Hle & _ & _).
  specialize (Hle (at_ (pairs_ (held_of w tid)) j).2 (order_ m)).
  assert ((at_ (pairs_ (held_of w tid)) j).2 ≤ order_ m); [|lia].
  apply Hle; [|by apply list_elem_of_singleton].
  apply list_elem_of_fmap. exists (at_ (pairs_ (held_of w tid)) j). split; [done|].
  destruct Hwf as [Hlen Htop]. destruct Hi as (Hi & _). unfold size in *.
  apply (list_elem_of_lookup_2 _ (Z.to_nat (j - 1))).
  rewrite list_lookup_delete_ge by lia.
  replace (S (Z.to_nat (j - 1))) with (Z.to_nat j) by lia.
  apply items_lookup; lia.
Qed.

Lemma condition_variable_wait_unsorts_witness :
  let e := {| try_lock_result := true; timedlock_result := 0;
              realtime_now := 0; time_begin := 0; time_end := 0 |} in
  let A := {| address := 4096; order_ := 3 |} in
  let B := {| address := 4160; order_ := 5 |} in
  let w := world_of (run_ops [op_lock 7 A e; op_lock 7 B e] world_init) in
  ∃ w', condition_variable_wait 7 A 8 w = Done () w' ∧
        ¬ StronglySorted Z.le (orders (held_of w' 7)) ∧
        last (items (held_of w' 7)) = Some (handle_of A, order_ A).
Proof.
  intros e A B w. apply (condition_variable_wait_unsorts 7 A 8 w 0 1).
  - reflexivity.
  - unfold SIZE_MAX, size_modulus. simpl. lia.
  - split; vm_compute; [reflexivity|split; discriminate].
  - vm_compute. split; [reflexivity|discriminate].
  - split; [vm_compute; split; [discriminate|reflexivity]|].
    split; [reflexivity|].
    intros j Hj.
    assert (size (held_of w 7) = 2) as Hsize by (vm_compute; reflexivity).
    rewrite Hsize in Hj. assert (j = 1) as -> by lia. vm_compute. discriminate.
  - vm_compute. split; reflexivity.
  - vm_compute. reflexivity.
Defined.

(** ** Join and queue wait scopes *)

(** A target with a wait edge gets a chain that starts with it. *)
Lemma first_edge_reported N names reg tid e :
  wait_edge_of names reg (helper_map N reg) tid = Some e →
  ∃ d, deadlock_detection N names reg tid = Some d ∧ head (chain d) = Some e.
Proof.
  intros Hedge.
  destruct (deadlock_detection_spec N names reg tid) as (d & Hd & Hpath & Hshape).
  exists d. split; [done|].
  destruct (chain d) as [|e' c] eqn:Hchain.
  - destruct Hshape as [(_ & _ & Hnone)|(pre & last & Hpre & _)]; [congruence|].
    by destruct pre.
  - destruct Hpath as [He' _]. simpl. congruence.
Qed.

Section wait_scopes.
Context {Attr : Attributes}.

Lemma update_thread_mutex_info_lookup tid f w :
  thread_infos (world_of (update_thread_mutex_info tid f w)) !! tid
    = Some (f (info_of w tid)).
Proof using Type.
  unfold update_thread_mutex_info.
  destruct (get_thread_mutex_info_exact tid w) as (w1 & Hget & _).
  rewrite (bind_Done _ _ _ _ _ Hget). simpl. by rewrite lookup_insert_eq.
Qed.

(** A wait scope: what the registry shows inside it and after it. *)
Lemma wait_scope_spec {A} (add : thread_mutex_info → Z → thread_mutex_info)
    (remove : thread_mutex_info → thread_mutex_info)
    (reason : other_wait_reason_t.t) (label : string)
    tid waiting_tid (body : M A) w :
  (∀ t, mutex_wait_ (add t waiting_tid) = mutex_wait_ t ∧
        owi_tid_ (other_wait_info_ (add t waiting_tid)) = waiting_tid ∧
        owi_reason_ (other_wait_info_ (add t waiting_tid)) = reason) →
  (∀ t, mutex_wait_ (remove t) = mutex_wait_ t ∧
        owi_tid_ (other_wait_info_ (remove t)) = kInvalidTid) →
  (∀ names order, chain_label names reason order = label) →
  waiting_tid ≠ kInvalidTid →
  mutex_wait_ (info_of w tid) = nullptr →
  ∃ w1,
    (update_thread_mutex_info tid (λ t, add t waiting_tid);;
     a ← body; update_thread_mutex_info tid remove;; mret a) w
      = (a ← body; update_thread_mutex_info tid remove;; mret a) w1 ∧
    (∀ names registry_map, registry_copy_of w1 registry_map →
       ∃ d, deadlock_detection mutex_stack_depth_ names registry_map tid = Some d ∧
            head (chain d) = Some (waiting_tid, label)) ∧
    (∀ a w2, body w1 = Done a w2 → info_of w2 tid = info_of w1 tid →
       ∃ w3, (a ← body; update_thread_mutex_info tid remove;; mret a) w1 = Done a w3 ∧
             ∀ names registry_map, registry_copy_of w3 registry_map →
               deadlock_detection mutex_stack_depth_ names registry_map tid
                 = Some (deadlock_info_init tid)).
Proof using Type.
  intros Hadd Hremove Hlabel Hvalid Hm.
  pose proof (update_thread_mutex_info_lookup tid (λ t, add t waiting_tid) w) as Hlook1.
  destruct (update_thread_mutex_info_exact tid (λ t, add t waiting_tid) w)
    as (w1 & Hrun1 & _ & _ & Hinfo1).
  rewrite Hrun1 in Hlook1. simpl in Hlook1.
  exists w1. split; [by rewrite (bind_Done _ _ _ _ _ Hrun1)|]. split.
  - intros names reg Hcopy. apply first_edge_reported.
    unfold wait_edge_of. rewrite (Hcopy tid), Hlook1. unfold wait_edge.
    destruct (Hadd (info_of w tid)) as (Hm' & Ht' & Hr').
    rewrite Hm', Hm, Ht', Hr'. simpl.
    destruct (Z.eqb_spec waiting_tid kInvalidTid); [done|]. by rewrite Hlabel.
  - intros a w2 Hbody Hsame. rewrite (bind_Done _ _ _ _ _ Hbody).
    pose proof (update_thread_mutex_info_lookup tid remove w2) as Hlook3.
    destruct (update_thread_mutex_info_exact tid remove w2) as (w3 & Hrun3 & _).
    rewrite Hrun3 in Hlook3. simpl in Hlook3.
    exists w3. rewrite (bind_Done _ _ _ _ _ Hrun3). split; [done|].
    intros names reg Hcopy. unfold deadlock_detection. rewrite (Hcopy tid), Hlook3.
    destruct (Hremove (info_of w2 tid)) as (Hm3 & Ht3). rewrite Hm3, Ht3, Hsame.
    pose proof (Hinfo1 tid) as Hmine. rewrite bool_decide_eq_true_2 in Hmine by done.
    rewrite Hmine. destruct (Hadd (info_of w tid)) as (Hm' & _).
    by rewrite Hm', Hm.
Qed.
End wait_scopes.

(** X16. Inside a [scoped_join_wait_check] or [scoped_queue_wait_check] for
    a valid tid, a thread that is not blocked on a mutex is shown by
    [deadlock_detection] as waiting for that tid, the chain starting with
    the tid under the label join or queue; once the scope has ended (its
    body having left the descriptor alone) the thread is shown as not
    waiting. *)
Theorem wait_scopes_are_reported `{Attr : Attributes} {A : Type}
    (tid waiting_tid : Z) (body : M A) (w : world) :
  waiting_tid ≠ kInvalidTid →
  mutex_wait_ (info_of w tid) = nullptr →
  (∃ w1,
     scoped_join_wait_check tid waiting_tid body w
       = (a ← body; update_thread_mutex_info tid remove_wait_join;; mret a) w1 ∧
     (∀ names registry_map, registry_copy_of w1 registry_map →
        ∃ d, deadlock_detection mutex_stack_depth_ names registry_map tid = Some d ∧
             head (chain d) = Some (waiting_tid, "join"%string)) ∧
     (∀ a w2, body w1 = Done a w2 → info_of w2 tid = info_of w1 tid →
        ∃ w3, scoped_join_wait_check tid waiting_tid body w = Done a w3 ∧
              ∀ names registry_map, registry_copy_of w3 registry_map →
                deadlock_detection mutex_stack_depth_ names registry_map tid
                  = Some (deadlock_info_init tid))) ∧
  (∃ w1,
     scoped_queue_wait_check tid waiting_tid body w
       = (a ← body; update_thread_mutex_info tid remove_wait_queue;; mret a) w1 ∧
     (∀ names registry_map, registry_copy_of w1 registry_map →
        ∃ d, deadlock_detection mutex_stack_depth_ names registry_map tid = Some d ∧
             head (chain d) = Some (waiting_tid, "queue"%string)) ∧
     (∀ a w2, body w1 = Done a w2 → info_of w2 tid = info_of w1 tid →
        ∃ w3, scoped_queue_wait_check tid waiting_tid body w = Done a w3 ∧
              ∀ names registry_map, registry_copy_of w3 registry_map →
                deadlock_detection mutex_stack_depth_ names registry_map tid
                  = Some (deadlock_info_init tid))).
Proof.
  intros Hvalid Hm. split.
  - destruct (wait_scope_spec add_wait_join remove_wait_join other_wait_reason_t.join
                "join" tid waiting_tid body w) as (w1 & Hrun & Hin & Hout); try done.
    exists w1. split; [exact Hrun|]. split; [exact Hin|].
    intros a w2 Hbody Hsame. destruct (Hout a w2 Hbody Hsame) as (w3 & Hrun3 & Hdd).
    exists w3. split; [|done]. etrans; [exact Hrun|exact Hrun3].
  - destruct (wait_scope_spec add_wait_queue remove_wait_queue other_wait_reason_t.queue
                "queue" tid waiting_tid body w) as (w1 & Hrun & Hin & Hout); try done.
    exists w1. split; [exact Hrun|]. split; [exact Hin|].
    intros a w2 Hbody Hsame. destruct (Hout a w2 Hbody Hsame) as (w3 & Hrun3 & Hdd).
    exists w3. split; [|done]. etrans; [exact Hrun|exact Hrun3].
Qed.

Lemma wait_scopes_are_reported_witness :
  (∃ w1,
     scoped_join_wait_check 7 8 (mret () : M unit) world_init
       = (a ← (mret () : M unit); update_thread_mutex_info 7 remove_wait_join;; mret a) w1 ∧
     (∀ names registry_map, registry_copy_of w1 registry_map →
        ∃ d, deadlock_detection mutex_stack_depth_ names registry_map 7 = Some d ∧
             head (chain d) = Some (8, "join"%string)) ∧
     (∀ a w2, (mret () : M unit) w1 = Done a w2 → info_of w2 7 = info_of w1 7 →
        ∃ w3, scoped_join_wait_check 7 8 (mret () : M unit) world_init = Done a w3 ∧
              ∀ names registry_map, registry_copy_of w3 registry_map →
                deadlock_detection mutex_stack_depth_ names registry_map 7
                  = Some (deadlock_info_init 7))) ∧
  (∃ w1,
     scoped_queue_wait_check 7 8 (mret () : M unit) world_init
       = (a ← (mret () : M unit); update_thread_mutex_info 7 remove_wait_queue;; mret a) w1 ∧
     (∀ names registry_map, registry_copy_of w1 registry_map →
        ∃ d, deadlock_detection mutex_stack_depth_ names registry_map 7 = Some d ∧
             head (chain d) = Some (8, "queue"%string)) ∧
     (∀ a w2, (mret () : M unit) w1 = Done a w2 → info_of w2 7 = info_of w1 7 →
        ∃ w3, scoped_queue_wait_check 7 8 (mret () : M unit) world_init = Done a w3 ∧
              ∀ names registry_map, registry_copy_of w3 registry_map →
                deadlock_detection mutex_stack_depth_ names registry_map 7
                  = Some (deadlock_info_init 7))).
Proof.
  apply (wait_scopes_are_reported 7 8 (mret () : M unit) world_init).
  - discriminate.
  - reflexivity.
Defined.

(** ** The statistics count the operations *)

Section stat_counts.
Context {Attr : Attributes}.
Variable order : Z.

Lemma run_op_stat_of_exact op w w' :
  mutex_tracking_enabled_ = true →
  (Z.to_nat order < length (mutex_stat_array w))%nat →
  run_op op w = Done () w' →
  length (mutex_stat_array w') = length (mutex_stat_array w) ∧
  stat_of w' order =
    if decide (Z.to_nat (order_ (mutex_of op)) = Z.to_nat order)
    then stat_step op (stat_of w order) else stat_of w order.
Proof using Type.
  intros Htrack Hlen Hop%run_op_stats. rewrite Htrack in Hop.
  unfold stat_of. rewrite Hop, length_alter. split; [done|].
  case_decide as Heq.
  - rewrite Heq, list_lookup_alter_eq.
    destruct (mutex_stat_array w !! Z.to_nat order) eqn:E; [done|].
    apply lookup_ge_None in E. lia.
  - by rewrite list_lookup_alter_ne.
Qed.

(** A counter that each operation satisfying [p] increments and no other
    operation changes. *)
Lemma run_ops_count (field : mutex_stat → Z) (p : mutex_op → bool) :
  mutex_tracking_enabled_ = true →
  (∀ op st, field (stat_step op st)
            = if p op then to_uint64 (field st + 1) else field st) →
  ∀ ops n w w',
  (Z.to_nat order < length (mutex_stat_array w))%nat →
  0 ≤ field (stat_of w order) ≤ n →
  n + Z.of_nat (length ops) ≤ SIZE_MAX →
  run_ops ops w = Done () w' →
  field (stat_of w' order) = field (stat_of w order) + count_in p order ops.
Proof using Type.
  intros Htrack Hstep. unfold count_in.
  induction ops as [|op ops IH]; intros n w w' Hlen Hn Hbound Hrun; simpl in Hrun.
  - injection Hrun as <-. simpl. lia.
  - destruct (run_op op w) as [[] w1|w1] eqn:Hop;
      [|by rewrite (bind_Fatal _ _ _ _ Hop) in Hrun].
    rewrite (bind_Done _ _ _ _ _ Hop) in Hrun. simpl length in Hbound.
    destruct (run_op_stat_of_exact op w w1 Htrack Hlen Hop) as [Hlen1 Hst1].
    assert (field (stat_of w1 order)
            = field (stat_of w order)
              + (if decide (p op = true ∧
                            Z.to_nat (order_ (mutex_of op)) = Z.to_nat order)
                 then 1 else 0)) as Hfield.
    { rewrite Hst1. case_decide as Hcat.
      - rewrite Hstep. destruct (p op).
        + rewrite to_uint64_id by lia. rewrite decide_True by done. done.
        + rewrite decide_False by (by intros [? _]). lia.
      - rewrite decide_False by (by intros [_ ?]). lia. }
    rewrite (IH (n + 1) w1 w'); [|lia| |lia|done].
    + rewrite Hfield, filter_cons. case_decide; simpl length; lia.
    + rewrite Hfield. case_decide; lia.
Qed.
End stat_counts.

(** X17. With tracking on, after a run of fewer than 2^64 operations that
    the process survives the counters of a category count its operations:
    [locks] the calls that got a mutex of the category ([lock], and
    [try_lock] when the native attempt succeeded), [unlocks] the [unlock]
    calls, and [waits] the [lock] calls whose first attempt failed plus all
    [try_lock] calls with a positive timeout, expired or not. *)
Theorem statistics_count_the_operations `{Attr : Attributes}
    (ops : list mutex_op) (w : world) (order : Z) :
  mutex_tracking_enabled_ = true →
  Z.of_nat (length ops) ≤ SIZE_MAX →
  0 ≤ order < order_size_ →
  run_ops ops world_init = Done () w →
  locks (stat_of w order) = count_in acquired order ops ∧
  unlocks (stat_of w order) = count_in released order ops ∧
  waits (stat_of w order) = count_in waited order ops.
Proof.
  intros Htrack Hlen Horder Hrun.
  assert (Z.to_nat order < length (mutex_stat_array world_init))%nat as Hin.
  { simpl. rewrite length_replicate. lia. }
  assert (stat_of world_init order = mutex_stat_init) as Hinit.
  { unfold stat_of, world_init. simpl.
    rewrite lookup_replicate_2 by lia. done. }
  assert (∀ op st, locks (stat_step op st)
                   = if acquired op then to_uint64 (locks st + 1) else locks st) as Hl.
  { intros [tid m e|tid m|tid m timeout_ns e] st; simpl;
      [by destruct (try_lock_result e)|done|].
    by destruct (timeout_ns <=? 0), (try_lock_result e), (timedlock_result e =? 0). }
  assert (∀ op st, unlocks (stat_step op st)
                   = if released op then to_uint64 (unlocks st + 1) else unlocks st) as Hu.
  { intros [tid m e|tid m|tid m timeout_ns e] st; simpl;
      [by destruct (try_lock_result e)|done|].
    by destruct (timeout_ns <=? 0), (try_lock_result e), (timedlock_result e =? 0). }
  assert (∀ op st, waits (stat_step op st)
                   = if waited op then to_uint64 (waits st + 1) else waits st) as Hw.
  { intros [tid m e|tid m|tid m timeout_ns e] st; simpl;
      [by destruct (try_lock_result e)|done|].
    destruct (Z.leb_spec timeout_ns 0), (Z.ltb_spec 0 timeout_ns); try lia;
      by destruct (try_lock_result e), (timedlock_result e =? 0). }
  pose proof (run_ops_count order locks acquired Htrack Hl ops 0 world_init w Hin) as Hls.
  pose proof (run_ops_count order unlocks released Htrack Hu ops 0 world_init w Hin) as Hus.
  pose proof (run_ops_count order waits waited Htrack Hw ops 0 world_init w Hin) as Hws.
  rewrite Hinit in Hls, Hus, Hws. simpl in Hls, Hus, Hws.
  rewrite Hls, Hus, Hws by (done || lia). done.
Qed.

Lemma statistics_count_the_operations_witness :
  let got := {| try_lock_result := true; timedlock_result := 0;
                realtime_now := 0; time_begin := 0; time_end := 0 |} in
  let late := {| try_lock_result := false; timedlock_result := 110;
                 realtime_now := 500; time_begin := 10; time_end := 25 |} in
  let A := {| address := 4096; order_ := 3 |} in
  let ops := [op_lock 7 A got; op_try_lock 8 A 1000 late; op_unlock 7 A; op_lock 8 A late] in
  ∃ w, run_ops ops world_init = Done () w ∧
       locks (stat_of w 3) = count_in acquired 3 ops ∧
       unlocks (stat_of w 3) = count_in released 3 ops ∧
       waits (stat_of w 3) = count_in waited 3 ops.
Proof.
  intros got late A ops. eexists. split; [vm_compute; reflexivity|].
  eapply (statistics_count_the_operations ops _ 3).
  - reflexivity.
  - unfold SIZE_MAX, size_modulus. simpl. lia.
  - simpl. unfold MutexOrder.kSize. lia.
  - vm_compute. reflexivity.
Defined.

(** ** The deadline of a timed try_lock *)

(** X18. For a positive timeout and a realtime clock that is not before the
    epoch, the [timespec] that the timed [try_lock] (and
    [std_mutex_timed_lock]) hands to [pthread_mutex_timedlock] is
    normalised, its nanoseconds in [0, 10^9), and denotes now + timeout,
    capped at the largest [int64_t]. *)
Theorem deadline_timespec_normalised (timeout_ns now : Z) :
  0 < timeout_ns → 0 ≤ now →
  let ts := deadline_timespec timeout_ns now in
  0 ≤ tv_sec ts ∧ 0 ≤ tv_nsec ts < 1000000000 ∧
  tv_sec ts * 1000000000 + tv_nsec ts = Z.min (timeout_ns + now) INT64_MAX.
Proof.
  intros Htimeout Hnow ts. subst ts. unfold deadline_timespec. simpl.
  set (deadline_ns := safe_add_sat timeout_ns now).
  assert (deadline_ns = Z.min (timeout_ns + now) INT64_MAX ∧ 0 ≤ deadline_ns)
    as [Hval Hpos].
  { subst deadline_ns. unfold safe_add_sat, INT64_MAX, INT64_MIN.
    destruct (Z.ltb_spec (2 ^ 63 - 1) (timeout_ns + now)); [lia|].
    destruct (Z.ltb_spec (timeout_ns + now) (- 2 ^ 63)); lia. }
  rewrite <- Hval.
  pose proof (Z.quot_rem' deadline_ns 1000000000) as Hqr.
  pose proof (Z.rem_bound_pos deadline_ns 1000000000 Hpos ltac:(lia)) as Hrem.
  pose proof (Z.quot_pos deadline_ns 1000000000 Hpos ltac:(lia)) as Hquot.
  lia.
Qed.

Lemma deadline_timespec_normalised_witness :
  let ts := deadline_timespec 2500000000 1700000000123456789 in
  0 ≤ tv_sec ts ∧ 0 ≤ tv_nsec ts < 1000000000 ∧
  tv_sec ts * 1000000000 + tv_nsec ts
    = Z.min (2500000000 + 1700000000123456789) INT64_MAX.
Proof.
  apply (deadline_timespec_normalised 2500000000 1700000000123456789); lia.
Defined.

(** * FdToString: the reader task *)

Section fd_to_string.
Import FdToString.

Lemma find_None sv c : c ∉ sv → find sv c = None.
Proof.
  induction sv as [|x sv IH]; intros Hnot; [done|]. simpl.
  rewrite decide_False by (intros ->; apply Hnot; left).
  rewrite IH; [done|]. intros Hin. apply Hnot. by right.
Qed.

Lemma find_app l c rest : c ∉ l → find (l ++ c :: rest) c = Some (length l).
Proof.
  induction l as [|x l IH]; intros Hnot; simpl.
  - by rewrite decide_True.
  - rewrite decide_False by (intros ->; apply Hnot; left).
    rewrite IH; [done|]. intros Hin. apply Hnot. by right.
Qed.

Lemma unlines_length ls : (length ls ≤ length (unlines ls))%nat.
Proof.
  unfold unlines. induction ls as [|l ls IH]; [done|].
  cbn [fmap list_fmap concat]. rewrite !length_app. cbn [length]. lia.
Qed.

(** The inner loop on a chunk cut into the lines that end in it and the
    rest: enough fuel takes it through all the lines. *)
Lemma prefix_loop_lines prefix tail ls : ∀ fuel r,
  Forall (λ l, newline ∉ l) ls → newline ∉ tail → (length ls ≤ fuel)%nat →
  prefix_loop fuel prefix (unlines ls ++ tail) r =
    (tail, {| out := out r ++ prefixed prefix (requiresPrefix r) ls;
              requiresPrefix := if ls is [] then requiresPrefix r else true |}).
Proof.
  unfold unlines. induction ls as [|l ls IH]; intros fuel r Hls Htail Hfuel.
  - simpl. rewrite app_nil_r. destruct r as [o rp]. simpl.
    destruct fuel; simpl; [done|]. by rewrite find_None.
  - apply Forall_cons in Hls as [Hl Hls].
    destruct fuel as [|fuel]; [simpl in Hfuel; lia|].
    cbn [prefix_loop fmap list_fmap concat].
    rewrite <- !app_assoc. simpl.
    set (rest := concat ((λ l0, l0 ++ [newline]) <$> ls) ++ tail).
    rewrite find_app by done.
    replace (length l + 1)%nat with (length (l ++ [newline])) by (rewrite length_app; done).
    replace (l ++ newline :: rest) with ((l ++ [newline]) ++ rest)
      by (by rewrite <- app_assoc).
    rewrite take_app_length, drop_app_length. subst rest.
    rewrite IH by (done || simpl in Hfuel; lia). simpl.
    f_equal. f_equal; [|by destruct ls].
    destruct (requiresPrefix r); simpl; by rewrite <- ?app_assoc.
Qed.

(** Every chunk is some lines that end in it followed by a rest without
    newline. *)
Lemma lines_decompose (sv : list Ascii.ascii) :
  ∃ ls tail, sv = unlines ls ++ tail ∧ Forall (λ l, newline ∉ l) ls ∧ newline ∉ tail.
Proof.
  induction sv as [|x sv (ls & tail & -> & Hls & Htail)].
  { exists [], []. split; [done|]. split; [constructor|]. by intros Hin%elem_of_nil. }
  destruct (decide (x = newline)) as [->|Hne].
  - exists ([] :: ls), tail. split; [done|]. split; [|done].
    constructor; [|done]. by intros Hin%elem_of_nil.
  - destruct ls as [|l ls].
    + exists [], (x :: tail). split; [done|]. split; [constructor|].
      intros [Heq|Hin]%elem_of_cons; [by apply Hne|done].
    + apply Forall_cons in Hls as [Hl Hls].
      exists ((x :: l) :: ls), tail. split; [done|]. split; [|done].
      constructor; [|done]. intros [Heq|Hin]%elem_of_cons; [by apply Hne|done].
Qed.

(** What a round does with a chunk, by its lines and rest. *)
Lemma on_data_lines prefix ls tail r :
  prefix ≠ [] → Forall (λ l, newline ∉ l) ls → newline ∉ tail →
  on_data prefix (unlines ls ++ tail) r =
    {| out := out r ++ prefixed prefix (requiresPrefix r) ls ++ tail;
       requiresPrefix := if tail is [] then (if ls is [] then requiresPrefix r else true)
                         else false |}.
Proof.
  intros Hprefix Hls Htail. unfold on_data.
  rewrite bool_decide_eq_false_2 by done. simpl.
  rewrite (prefix_loop_lines prefix tail ls _ r Hls Htail).
  2:{ rewrite length_app. pose proof (unlines_length ls). lia. }
  destruct tail as [|x tail]; simpl.
  - by rewrite app_nil_r.
  - by rewrite <- app_assoc.
Qed.

Lemma prefixed_app prefix first ls1 ls2 :
  prefixed prefix first (ls1 ++ ls2)
    = prefixed prefix first ls1
      ++ prefixed prefix (if ls1 is [] then first else true) ls2.
Proof.
  revert first. induction ls1 as [|l ls1 IH]; intros first; [done|].
  simpl. rewrite IH. rewrite <- !app_assoc. simpl. by destruct ls1.
Qed.

Lemma prefixed_nil ls : prefixed [] true ls = unlines ls.
Proof.
  unfold unlines. induction ls as [|l ls IH]; [done|].
  simpl. rewrite IH. by rewrite <- app_assoc.
Qed.

(** The rounds of the reader on reads that each hold whole lines. *)
Lemma reader_rounds_whole_lines prefix lss : ∀ r,
  requiresPrefix r = true →
  Forall (Forall (λ l, newline ∉ l)) lss →
  foldl (λ r sv, if (length sv =? 0)%nat then r else on_data prefix sv r) r
        (unlines <$> lss)
    = {| out := out r ++ prefixed prefix true (concat lss); requiresPrefix := true |}.
Proof.
  induction lss as [|ls lss IH]; intros r Hrp Hlss.
  { simpl. rewrite app_nil_r. by destruct r as [o []]. }
  apply Forall_cons in Hlss as [Hls Hlss]. cbn [fmap list_fmap foldl concat].
  destruct (Nat.eqb_spec (length (unlines ls)) 0) as [Hz|Hnz].
  { pose proof (unlines_length ls). destruct ls; [|simpl in *; lia].
    by rewrite (IH r Hrp Hlss). }
  assert (on_data prefix (unlines ls) r
          = {| out := out r ++ prefixed prefix true ls; requiresPrefix := true |}) as ->.
  { destruct (decide (prefix = [])) as [->|Hne].
    - unfold on_data. simpl. by rewrite prefixed_nil, Hrp.
    - rewrite <- (app_nil_r (unlines ls)).
      rewrite (on_data_lines prefix ls [] r Hne Hls) by (by intros Hin%elem_of_nil).
      rewrite Hrp, !app_nil_r. by destruct ls. }
  rewrite IH by done. simpl. rewrite prefixed_app, <- app_assoc.
  destruct ls; [|done]. simpl in Hnz. done.
Qed.
End fd_to_string.

(** X19. A round of the reader task appends the chunk it has read line by
    line: each line that ends in the chunk is preceded by the prefix, except
    that the first is not when it continues a line begun by an earlier
    chunk; what follows the last newline of the chunk is appended without
    prefix, also when it begins a line. The next chunk gets a prefix on its
    first line exactly if this chunk ended with a newline. *)
Theorem on_data_prefixes_lines (prefix sv : list Ascii.ascii) (r : FdToString.reader) :
  prefix ≠ [] →
  ∃ ls tail,
    sv = FdToString.unlines ls ++ tail ∧
    Forall (λ l, FdToString.newline ∉ l) ls ∧ (FdToString.newline ∉ tail) ∧
    FdToString.on_data prefix sv r =
      {| FdToString.out :=
           FdToString.out r
           ++ FdToString.prefixed prefix (FdToString.requiresPrefix r) ls ++ tail;
         FdToString.requiresPrefix :=
           if tail is [] then (if ls is [] then FdToString.requiresPrefix r else true)
           else false |}.
Proof.
  intros Hprefix. destruct (lines_decompose sv) as (ls & tail & -> & Hls & Htail).
  exists ls, tail. split; [done|]. split; [done|]. split; [done|].
  by apply on_data_lines.
Qed.

Lemma on_data_prefixes_lines_witness :
  let prefix := String.list_ascii_of_string "- "%string in
  let sv := String.list_ascii_of_string "de" ++ [FdToString.newline]
            ++ String.list_ascii_of_string "fg" in
  let r := {| FdToString.out := String.list_ascii_of_string "abc";
              FdToString.requiresPrefix := false |} in
  ∃ ls tail,
    sv = FdToString.unlines ls ++ tail ∧
    Forall (λ l, FdToString.newline ∉ l) ls ∧ (FdToString.newline ∉ tail) ∧
    FdToString.on_data prefix sv r =
      {| FdToString.out :=
           FdToString.out r
           ++ FdToString.prefixed prefix (FdToString.requiresPrefix r) ls ++ tail;
         FdToString.requiresPrefix :=
           if tail is [] then (if ls is [] then FdToString.requiresPrefix r else true)
           else false |}.
Proof.
  intros prefix sv r. apply (on_data_prefixes_lines prefix sv r). discriminate.
Defined.

Lemma reader_rounds_verbatim reads : ∀ r,
  foldl (λ r sv, if (length sv =? 0)%nat then r else FdToString.on_data [] sv r) r reads
    = {| FdToString.out := FdToString.out r ++ concat reads;
         FdToString.requiresPrefix := FdToString.requiresPrefix r |}.
Proof.
  induction reads as [|sv reads IH]; intros r; simpl.
  { rewrite app_nil_r. by destruct r. }
  destruct (Nat.eqb_spec (length sv) 0) as [Hz|Hnz].
  - apply nil_length_inv in Hz as ->. by rewrite IH.
  - rewrite IH. unfold FdToString.on_data. simpl. by rewrite <- app_assoc.
Qed.

(** X20. When every read delivers whole lines, the reader returns the lines
    of all reads in order, each preceded by the prefix; and with an empty
    prefix it returns the bytes of all reads as they came, however they were
    cut. *)
Theorem reader_task_prefixes_whole_lines (prefix : list Ascii.ascii)
    (lss : list (list (list Ascii.ascii))) (reads : list (list Ascii.ascii)) :
  Forall (Forall (λ l, FdToString.newline ∉ l)) lss →
  FdToString.reader_task prefix (FdToString.unlines <$> lss)
    = FdToString.prefixed prefix true (concat lss) ∧
  FdToString.reader_task [] reads = concat reads.
Proof.
  intros Hlss. unfold FdToString.reader_task. split.
  - by rewrite reader_rounds_whole_lines.
  - by rewrite reader_rounds_verbatim.
Qed.

Lemma reader_task_prefixes_whole_lines_witness :
  let prefix := String.list_ascii_of_string "- "%string in
  let a := String.list_ascii_of_string "ab"%string in
  let b := String.list_ascii_of_string "c"%string in
  let lss := [[a; b]; []; [b]] in
  FdToString.reader_task prefix (FdToString.unlines <$> lss)
    = FdToString.prefixed prefix true (concat lss) ∧
  FdToString.reader_task [] [a; b] = concat [a; b].
Proof.
  intros prefix a b lss.
  apply (reader_task_prefixes_whole_lines prefix lss [a; b]).
  assert (∀ l, l = a ∨ l = b → FdToString.newline ∉ l) as Hno.
  { intros l [->| ->] Hin; vm_compute in Hin;
      repeat (apply elem_of_cons in Hin as [Hin|Hin]; [discriminate Hin|]);
      by apply elem_of_nil in Hin. }
  repeat constructor; apply Hno; auto.
Defined.

Lemma on_data_tail prefix c r :
  prefix ≠ [] → FdToString.newline ∉ c → c ≠ [] →
  FdToString.on_data prefix c r
    = {| FdToString.out := FdToString.out r ++ c; FdToString.requiresPrefix := false |}.
Proof.
  intros Hprefix Hc Hne.
  pose proof (on_data_lines prefix [] c r Hprefix ltac:(constructor) Hc) as Hspec.
  simpl in Hspec. rewrite Hspec. by destruct c.
Qed.

Lemma on_data_line prefix l r :
  prefix ≠ [] → FdToString.newline ∉ l →
  FdToString.on_data prefix (l ++ [FdToString.newline]) r
    = {| FdToString.out :=
           FdToString.out r ++ (if FdToString.requiresPrefix r then prefix else [])
           ++ l ++ [FdToString.newline];
         FdToString.requiresPrefix := true |}.
Proof.
  intros Hprefix Hl.
  pose proof (on_data_lines prefix [l] [] r Hprefix) as Hspec.
  unfold FdToString.unlines in Hspec. simpl in Hspec. rewrite !app_nil_r in Hspec.
  rewrite Hspec; [done|by repeat constructor|by intros Hin%elem_of_nil].
Qed.

(** X21. A line gets its prefix only if it ends in the chunk it begins
    in: the bytes of a line delivered by two reads, the first without the
    newline, come out without any prefix, while the same bytes delivered by
    one read come out with it. *)
Theorem reader_task_split_line_unprefixed (prefix c l : list Ascii.ascii) :
  c ≠ [] → (FdToString.newline ∉ c) → (FdToString.newline ∉ l) →
  FdToString.reader_task prefix [c; l ++ [FdToString.newline]]
    = c ++ l ++ [FdToString.newline] ∧
  FdToString.reader_task prefix [c ++ l ++ [FdToString.newline]]
    = prefix ++ c ++ l ++ [FdToString.newline].
Proof.
  intros Hc Hnc Hnl. unfold FdToString.reader_task.
  destruct (decide (prefix = [])) as [->|Hprefix].
  { rewrite !reader_rounds_verbatim. simpl. by rewrite !app_nil_r. }
  assert (∀ sv : list Ascii.ascii, sv ≠ [] → (length sv =? 0)%nat = false) as Hlen.
  { intros sv Hsv. apply Nat.eqb_neq. by destruct sv. }
  simpl. rewrite (Hlen c) by done.
  rewrite (Hlen (l ++ [FdToString.newline])) by (by destruct l).
  rewrite (Hlen (c ++ l ++ [FdToString.newline])) by (by destruct c).
  split.
  - rewrite (on_data_tail prefix c) by done. by rewrite on_data_line.
  - rewrite (app_assoc c l). rewrite on_data_line.
    + simpl. by rewrite <- app_assoc.
    + done.
    + intros [?|?]%elem_of_app; done.
Qed.

Lemma reader_task_split_line_unprefixed_witness :
  let prefix := String.list_ascii_of_string "- "%string in
  let c := String.list_ascii_of_string "ab"%string in
  let l := String.list_ascii_of_string "c"%string in
  FdToString.reader_task prefix [c; l ++ [FdToString.newline]]
    = c ++ l ++ [FdToString.newline] ∧
  FdToString.reader_task prefix [c ++ l ++ [FdToString.newline]]
    = prefix ++ c ++ l ++ [FdToString.newline].
Proof.
  intros prefix c l. apply (reader_task_split_line_unprefixed prefix c l).
  - discriminate.
  - intros Hin. vm_compute in Hin.
    repeat (apply elem_of_cons in Hin as [Hin|Hin]; [discriminate Hin|]).
    by apply elem_of_nil in Hin.
  - intros Hin. vm_compute in Hin.
    repeat (apply elem_of_cons in Hin as [Hin|Hin]; [discriminate Hin|]).
    by apply elem_of_nil in Hin.
Defined.

(** ** Aborting acquisitions *)

(** On a stack in order, what the scan of [check_held] returns when the
    acquisition is an inversion or a recursion: a tracked entry, of greater
    order or else the entry of the mutex itself. *)
Lemma check_held_loop_conflict N s mutex order :
  N ≤ INT64_MAX → tracked_ok N s →
  (∃ j, 0 ≤ j < top_ s ∧
        (order < (at_ (pairs_ s) j).2 ∨ at_ (pairs_ s) j = (mutex, order))) →
  ∃ k, check_held_loop N s mutex order 0 (Z.to_nat (top_ s)) = slot_ref k ∧
       0 ≤ k < top_ s ∧ conflicts mutex order (at_ (pairs_ s) k).
Proof.
  intros HN (Hwf & _ & Hsorted & _) (j & Hj & Hbad).
  pose proof (check_held_loop_spec N s Hwf mutex order (Z.to_nat (top_ s)) 0 HN) as Hspec.
  rewrite Z.sub_0_r in Hspec. destruct Hwf as [Hlen Htop].
  specialize (Hspec ltac:(lia) ltac:(lia)).
  destruct (check_held_loop N s mutex order 0 (Z.to_nat (top_ s))) as [k|].
  { destruct Hspec as (Hk & Hc & _). by exists k. }
  exfalso.
  assert (∀ i, passes mutex order (at_ (pairs_ s) i) →
               ¬ (order < (at_ (pairs_ s) i).2 ∨ at_ (pairs_ s) i = (mutex, order)))
    as Hpass.
  { intros i [Ho Hh] [Hgt|Heq]; [lia|]. rewrite Heq in Hh. by apply Hh. }
  destruct Hspec as [Hall|(k & Hk & Hlow & Habove)].
  - by apply (Hpass j (Hall j Hj)).
  - destruct (Z.le_gt_cases j k) as [Hle|Hgt].
    + specialize (Hsorted j k ltac:(lia) Hle ltac:(lia)).
      destruct Hbad as [Hgt|Heq]; [lia|]. rewrite Heq in Hsorted. simpl in Hsorted. lia.
    + by apply (Hpass j (Habove j ltac:(lia))).
Qed.

(** X22. With tracking and both checks configured to abort, [lock] and
    [try_lock] kill the process when the caller's stack, its orders
    non-decreasing, tracks a mutex of greater order than the one asked for
    (an inversion) or the mutex itself (a recursion); they do so in
    [pre_lock], before any call on the native mutex or the clocks. *)
Theorem lock_aborts_on_inversion_and_recursion `{Attr : Attributes}
    (tid : Z) (m : mutex) (timeout_ns : Z) (e : oracle) (w : world) (j : Z) :
  mutex_tracking_enabled_ = true →
  abort_on_order_check_ = true →
  abort_on_recursion_check_ = true →
  mutex_stack_depth_ ≤ INT64_MAX →
  tracked_ok mutex_stack_depth_ (held_of w tid) →
  0 ≤ j < size (held_of w tid) →
  order_ m < (at_ (pairs_ (held_of w tid)) j).2 ∨
  at_ (pairs_ (held_of w tid)) j = (handle_of m, order_ m) →
  ∃ w', lock tid m e w = Fatal w' ∧
        try_lock tid m timeout_ns e w = Fatal w' ∧
        os_log w' = os_log w.
Proof.
  intros Htrack Horder Hrec Hdepth Hok Hj Hbad.
  destruct (check_held_loop_conflict mutex_stack_depth_ (held_of w tid) (handle_of m)
              (order_ m) Hdepth Hok) as (k & Hscan & Hk & Hc); [by exists j|].
  pose proof (pre_lock_effect tid m w) as (Hlog & _).
  assert (∃ w', pre_lock tid m w = Fatal w') as (w' & Hpre).
  { unfold pre_lock. rewrite Htrack, Horder, Hrec. simpl.
    destruct (get_thread_mutex_info_exact tid w) as (w1 & Hget & _).
    rewrite (bind_Done _ _ _ _ _ Hget).
    unfold check_held, size. rewrite <- held_of_info_of, Hscan. simpl.
    destruct Hok as (_ & _ & _ & Hnonnull).
    destruct (Z.eqb_spec (at_ (pairs_ (held_of w tid)) k).1 nullptr) as [Hnull|_];
      [by destruct (Hnonnull k)|].
    destruct Hc as [Hgt|[Heq _]].
    - apply Z.ltb_lt in Hgt. rewrite Hgt. by exists w1.
    - rewrite Heq, Z.ltb_irrefl, Z.eqb_refl. by exists w1. }
  rewrite Hpre in Hlog. simpl in Hlog. exists w'.
  unfold lock, try_lock. rewrite !(bind_Fatal _ _ _ _ Hpre). done.
Qed.

Lemma lock_aborts_on_inversion_and_recursion_witness :
  let e := {| try_lock_result := true; timedlock_result := 0;
              realtime_now := 0; time_begin := 0; time_end := 0 |} in
  let A := {| address := 4096; order_ := 3 |} in
  let B := {| address := 4160; order_ := 5 |} in
  let w := world_of (lock 7 B e world_init) in
  ∃ w', lock 7 A e w = Fatal w' ∧
        try_lock 7 A 1000 e w = Fatal w' ∧
        os_log w' = os_log w.
Proof.
  intros e A B w.
  apply (lock_aborts_on_inversion_and_recursion 7 A 1000 e w 0); try reflexivity.
  - unfold INT64_MAX. simpl. lia.
  - assert (size (held_of w 7) = 1) as Hsize by (vm_compute; reflexivity).
    split; [split; vm_compute; [reflexivity|split; discriminate]|].
    split; [vm_compute; split; discriminate|]. unfold size in Hsize. rewrite Hsize.
    split.
    + intros i k Hi Hik Hk. assert (i = 0) as -> by lia. assert (k = 0) as -> by lia. lia.
    + intros i Hi. assert (i = 0) as -> by lia. vm_compute. discriminate.
  - vm_compute. split; [discriminate|reflexivity].
  - left. vm_compute. reflexivity.
Defined.

(** ** Deadlocks that are reported *)

Lemma wait_path_stays names reg mtt (W : Z → Prop) :
  (∀ x, W x → ∃ e, wait_edge_of names reg mtt x = Some e ∧ W e.1) →
  ∀ c tid, W tid → is_wait_path names reg mtt tid c → ∀ e, e ∈ c → W e.1.
Proof.
  intros Hclosed c. induction c as [|e' c IH]; intros tid Htid Hpath e Hin.
  { by apply elem_of_nil in Hin. }
  destruct Hpath as [Hedge Hpath].
  destruct (Hclosed tid Htid) as (e0 & He0 & HW).
  assert (e0 = e') as -> by congruence.
  apply elem_of_cons in Hin as [->|Hin]; [done|]. by apply (IH e'.1).
Qed.

(** X23. A deadlock around the target is always reported: when the target
    belongs to a set of threads each of which has a wait edge to a thread of
    the set, so that none of them can go on, [deadlock_detection] returns
    with [has_cycle] set and a chain that is not empty. *)
Theorem closed_wait_set_is_reported (N : Z) (mutex_names : list string)
    (registry_map : registry_map_t) (tid : Z) (W : Z → Prop) :
  W tid →
  (∀ x, W x →
     ∃ e, wait_edge_of mutex_names registry_map (helper_map N registry_map) x = Some e ∧
          W e.1) →
  ∃ deadlock_info,
    deadlock_detection N mutex_names registry_map tid = Some deadlock_info ∧
    has_cycle deadlock_info = true ∧ chain deadlock_info ≠ [].
Proof.
  intros Htid Hclosed.
  destruct (deadlock_detection_spec N mutex_names registry_map tid)
    as (d & Hd & Hpath & Hshape).
  exists d. split; [done|].
  destruct Hshape as [(_ & _ & Hnone)|(pre & last & Hpre & _ & _ & Hend)].
  { destruct (Hclosed tid Htid) as (e & He & _). congruence. }
  assert (chain d ≠ []) as Hne.
  { intros Hnil. rewrite Hnil in Hpre. by destruct pre. }
  split; [|done].
  destruct Hend as [[Hcyc _]|(_ & _ & Hnone)]; [done|]. exfalso.
  assert (last ∈ (chain d).*1) as Hin.
  { rewrite Hpre. apply elem_of_app. right. by apply list_elem_of_singleton. }
  apply list_elem_of_fmap in Hin as (e & -> & Hin).
  pose proof (wait_path_stays _ _ _ W Hclosed _ tid Htid Hpath e Hin) as HW.
  destruct (Hclosed _ HW) as (e' & He' & _). congruence.
Qed.

Lemma closed_wait_set_is_reported_witness :
  let a := reset_waiter (push_held 16 (thread_mutex_info_init 16 7) 4096 13) 4160 in
  let b := reset_waiter (push_held 16 (thread_mutex_info_init 16 8) 4160 15) 4096 in
  let registry_map := [(8, Some b); (7, Some a)] in
  ∃ deadlock_info,
    deadlock_detection 16 gMutexNames registry_map 7 = Some deadlock_info ∧
    has_cycle deadlock_info = true ∧ chain deadlock_info ≠ [].
Proof.
  intros a b registry_map.
  apply (closed_wait_set_is_reported 16 gMutexNames registry_map 7 (λ x, x = 7 ∨ x = 8)).
  - by left.
  - intros x [->| ->]; eexists; (split; [vm_compute; reflexivity|]).
    + by right.
    + by left.
Defined.

(** ** atomic_stack: offsets beyond the largest ssize_t *)

(** X24. An offset of 2^63 or more reaches [top] as a negative [ssize_t]:
    [top(2^64 - k)] is not the invalid pair but the slot [k - 1] places
    above the top entry, which is not a tracked entry, as long as that slot
    lies within the array. *)
Theorem top_of_wrapped_offset (N : Z) (s : atomic_stack) (k : Z) :
  N ≤ INT64_MAX → stack_wf N s → 0 < k → top_ s + k ≤ N →
  top N s (size_modulus - k) = slot_ref (size s + k - 1) ∧
  bottom s (size s + k - 1) = invalid_ref.
Proof.
  intros HN [Hlen Htop] Hk Hfit. unfold top, bottom, size.
  assert (to_ssize_t (size_modulus - k) = - k) as ->.
  { unfold to_ssize_t, size_modulus, INT64_MAX in *.
    replace (2 ^ 64 - k + 2 ^ 63) with (2 ^ 63 - k + 1 * 2 ^ 64) by lia.
    rewrite Z.mod_add by lia. rewrite Z.mod_small; lia. }
  assert (INT64_MIN ≤ 0) by (unfold INT64_MIN; lia).
  rewrite !to_ssize_t_id by lia.
  destruct (Z.ltb_spec 0 (top_ s - - k)); [|lia].
  destruct (Z.leb_spec (top_ s - - k) N); [|lia]. simpl.
  destruct (Z.ltb_spec (top_ s + k - 1) (top_ s)); [lia|].
  split; [f_equal; lia|done].
Qed.

Lemma top_of_wrapped_offset_witness :
  let s := run_stack_ops 4 [op_push 11 3; op_push 12 5; op_remove 12] (atomic_stack_init 4) in
  top 4 s (size_modulus - 1) = slot_ref (size s + 1 - 1) ∧
  bottom s (size s + 1 - 1) = invalid_ref.
Proof.
  intros s. apply (top_of_wrapped_offset 4 s 1).
  - unfold INT64_MAX. lia.
  - split; vm_compute; [reflexivity|split; discriminate].
  - lia.
  - vm_compute. discriminate.
Defined.

(** ** Two threads blocked on each other *)

Lemma tid_to_info_elem registry_map tid info :
  tid_to_info registry_map tid = Some info → (tid, Some info) ∈ registry_map.
Proof.
  unfold tid_to_info.
  destruct (list_find _ registry_map) as [[i [tid' weak]]|] eqn:E; [|done].
  intros ->. apply list_find_Some in E as (Hl & Htid & _). simpl in Htid. subst tid'.
  by eapply list_elem_of_lookup_2.
Qed.

Lemma single_entry N h o :
  0 < N ≤ SIZE_MAX →
  top_ (push N (atomic_stack_init N) h o) = 1 ∧
  at_ (pairs_ (push N (atomic_stack_init N) h o)) 0 = (h, o).
Proof.
  intros HN.
  destruct (push_tracked N (atomic_stack_init N) h o HN ltac:(simpl; lia))
    as (Hpairs & Htop & _).
  simpl in Hpairs, Htop. rewrite Z.min_l in Hpairs, Htop by lia.
  split; [lia|]. rewrite Hpairs. apply (at_insert_eq _ 0); [lia|].
  rewrite length_replicate. lia.
Qed.

(** The helper map gives a handle to the one thread that tracks it, when
    two threads track one handle each and the others none. *)
Lemma helper_map_owner `{Attr : Attributes} w reg X Y hx ox hy oy :
  0 < mutex_stack_depth_ →
  (∀ t info, (t, Some info) ∈ reg → info = info_of w t) →
  (X, Some (info_of w X)) ∈ reg →
  top_ (held_of w X) = 1 → at_ (pairs_ (held_of w X)) 0 = (hx, ox) →
  top_ (held_of w Y) = 1 → at_ (pairs_ (held_of w Y)) 0 = (hy, oy) →
  (∀ t, t ≠ X → t ≠ Y → top_ (held_of w t) = 0) →
  hx ≠ hy → hx ≠ nullptr →
  helper_map mutex_stack_depth_ reg !! hx = Some (X, ox).
Proof.
  intros Hdepth Hsnap HX HtopX HatX HtopY HatY Hothers Hne Hnn.
  rewrite !held_of_info_of in *.
  destruct (build_mutex_to_tid_spec mutex_stack_depth_ hx reg (∅, false))
    as (Hsound & _ & Hcompl & _).
  fold (helper_map mutex_stack_depth_ reg) in Hsound, Hcompl.
  destruct (Hcompl X (info_of w X) 0 HX) as [[t o] Hv].
  { unfold size, capacity. lia. }
  { unfold bottom. rewrite HtopX. simpl. by rewrite HatX. }
  { done. }
  rewrite Hv. f_equal.
  destruct (Hsound _ Hv) as [Hempty|(_ & info & j & Hin & Hj & Hd)].
  { simpl in Hempty. by rewrite lookup_empty in Hempty. }
  simpl in Hin, Hd. rewrite (Hsnap t info Hin) in Hj, Hd. unfold size, capacity in Hj.
  destruct (decide (t = X)) as [->|HtX].
  - rewrite HtopX in Hj. assert (j = 0) as -> by lia.
    unfold bottom in Hd. rewrite HtopX in Hd. simpl in Hd. rewrite HatX in Hd. congruence.
  - destruct (decide (t = Y)) as [->|HtY].
    + rewrite HtopY in Hj. assert (j = 0) as -> by lia.
      unfold bottom in Hd. rewrite HtopY in Hd. simpl in Hd. rewrite HatY in Hd. congruence.
    + rewrite <- !held_of_info_of in Hj. rewrite (Hothers t HtX HtY) in Hj. lia.
Qed.

Section blocked.
Context {Attr : Attributes}.

Lemma lock_blocked_info tid m e w ls w' :
  lock_blocked tid m e w = Done ls w' →
  info_updated tid
    (λ t, if mutex_tracking_enabled_ then reset_waiter t (handle_of m) else t) w w'.
Proof using Type.
  intros Hrun. unfold lock_blocked in Hrun.
  pose proof (pre_lock_infos tid m w) as Hinfo1.
  destruct (pre_lock tid m w) as [[] w1|w1] eqn:Hpre;
    [|by rewrite (bind_Fatal _ _ _ _ Hpre) in Hrun].
  rewrite (bind_Done _ _ _ _ _ Hpre) in Hrun. simpl in Hinfo1.
  destruct (native_infos (std_mutex_try_lock (handle_of m)) w1)
    as (w2 & Hrun2 & _ & _ & Hinfo2).
  rewrite (bind_Done _ _ _ _ _ Hrun2) in Hrun.
  destruct (lock_scoped_stat_ctor_info tid m e w2) as (ls' & w3 & Hrun3 & Hinfo3).
  rewrite (bind_Done _ _ _ _ _ Hrun3) in Hrun.
  destruct (native_infos (std_mutex_lock (handle_of m)) w3)
    as (w4 & Hrun4 & _ & _ & Hinfo4).
  rewrite (bind_Done _ _ _ _ _ Hrun4) in Hrun. injection Hrun as _ <-.
  eapply info_updated_same_r; [|exact Hinfo4].
  eapply info_updated_same_l; [|exact Hinfo3]. by eapply same_infos_trans.
Qed.

(** [lock] on a mutex it cannot take at once is [lock_blocked] followed by
    what it does once the blocking call has returned. *)
Lemma lock_resumes tid m e w :
  try_lock_result e = false →
  lock tid m e w =
    (ls ← lock_blocked tid m e; lock_scoped_stat_dtor tid m e ls;; post_lock tid m) w.
Proof using Type.
  intros Hres. unfold lock, lock_blocked. rewrite Hres. simpl negb. cbv iota.
  unfold mbind, M_bind.
  destruct (pre_lock tid m w) as [[] w1|w1]; [|done].
  destruct (native (std_mutex_try_lock (handle_of m)) w1) as [[] w2|w2]; [|done].
  destruct (lock_scoped_stat_ctor tid m e w2) as [ls w3|w3]; [|done].
  destruct (native (std_mutex_lock (handle_of m)) w3) as [[] w4|w4]; [|done].
  done.
Qed.
End blocked.

(** X25. A deadlock of two threads is detected: when thread [A] holds one
    mutex and thread [B] another, and each then blocks in [lock] on the
    mutex of the other, [deadlock_detection] for [A] on a copy of the
    registry returns [has_cycle] set and the chain of [B] under the name of
    the mutex [A] waits for followed by [A] under the name of the mutex [B]
    waits for. *)
Theorem mutual_wait_is_detected `{Attr : Attributes}
    (A B : Z) (ma mb : mutex) (e1 e2 e3 e4 : oracle) (w : world)
    (mutex_names : list string) (registry_map : registry_map_t) :
  mutex_tracking_enabled_ = true →
  0 < mutex_stack_depth_ ≤ SIZE_MAX →
  A ≠ B → address ma ≠ address mb →
  (lock A ma e1;; lock B mb e2;;
   lock_blocked A mb e3;; lock_blocked B ma e4;; mret ()) world_init = Done () w →
  snapshot_of w registry_map [A; B] →
  ∃ d, deadlock_detection mutex_stack_depth_ mutex_names registry_map A = Some d ∧
       has_cycle d = true ∧
       chain d = [(B, chain_label mutex_names other_wait_reason_t.none (order_ mb));
                  (A, chain_label mutex_names other_wait_reason_t.none (order_ ma))].
Proof.
  intros Htrack Hdepth HAB Hab Hrun [Hsnap Hlive].
  destruct (lock A ma e1 world_init) as [[] w1|w1] eqn:H1;
    [|by rewrite (bind_Fatal _ _ _ _ H1) in Hrun].
  rewrite (bind_Done _ _ _ _ _ H1) in Hrun.
  destruct (lock B mb e2 w1) as [[] w2|w2] eqn:H2;
    [|by rewrite (bind_Fatal _ _ _ _ H2) in Hrun].
  rewrite (bind_Done _ _ _ _ _ H2) in Hrun.
  destruct (lock_blocked A mb e3 w2) as [ls3 w3|w3] eqn:H3;
    [|by rewrite (bind_Fatal _ _ _ _ H3) in Hrun].
  rewrite (bind_Done _ _ _ _ _ H3) in Hrun.
  destruct (lock_blocked B ma e4 w3) as [ls4 w4|w4] eqn:H4;
    [|by rewrite (bind_Fatal _ _ _ _ H4) in Hrun].
  rewrite (bind_Done _ _ _ _ _ H4) in Hrun. injection Hrun as <-.
  pose proof (lock_info _ _ _ _ _ H1) as I1. pose proof (lock_info _ _ _ _ _ H2) as I2.
  pose proof (lock_blocked_info _ _ _ _ _ _ H3) as I3.
  pose proof (lock_blocked_info _ _ _ _ _ _ H4) as I4.
  rewrite Htrack in I1, I2, I3, I4.
  assert (info_of w4 A
          = reset_waiter (info_step (op_lock A ma e1)
                            (thread_mutex_info_init mutex_stack_depth_ A))
              (handle_of mb)) as HA.
  { rewrite (I4 A), bool_decide_eq_false_2 by done.
    rewrite (I3 A), bool_decide_eq_true_2 by done.
    rewrite (I2 A), bool_decide_eq_false_2 by done.
    by rewrite (I1 A), bool_decide_eq_true_2. }
  assert (info_of w4 B
          = reset_waiter (info_step (op_lock B mb e2)
                            (thread_mutex_info_init mutex_stack_depth_ B))
              (handle_of ma)) as HB.
  { rewrite (I4 B), bool_decide_eq_true_2 by done.
    rewrite (I3 B), bool_decide_eq_false_2 by done.
    rewrite (I2 B), bool_decide_eq_true_2 by done.
    by rewrite (I1 B), bool_decide_eq_false_2. }
  assert (∀ t, t ≠ A → t ≠ B → top_ (held_of w4 t) = 0) as Hothers.
  { intros t HtA HtB. rewrite held_of_info_of.
    rewrite (I4 t), bool_decide_eq_false_2 by done.
    rewrite (I3 t), bool_decide_eq_false_2 by done.
    rewrite (I2 t), bool_decide_eq_false_2 by done.
    by rewrite (I1 t), bool_decide_eq_false_2. }
  assert (held_of w4 A = push mutex_stack_depth_ (atomic_stack_init mutex_stack_depth_)
                           (handle_of ma) (order_ ma)) as HheldA.
  { rewrite held_of_info_of, HA. simpl. by destruct (try_lock_result e1). }
  assert (held_of w4 B = push mutex_stack_depth_ (atomic_stack_init mutex_stack_depth_)
                           (handle_of mb) (order_ mb)) as HheldB.
  { rewrite held_of_info_of, HB. simpl. by destruct (try_lock_result e2). }
  destruct (single_entry mutex_stack_depth_ (handle_of ma) (order_ ma) Hdepth)
    as [HtopA HatA].
  destruct (single_entry mutex_stack_depth_ (handle_of mb) (order_ mb) Hdepth)
    as [HtopB HatB].
  rewrite <- HheldA in HtopA, HatA. rewrite <- HheldB in HtopB, HatB.
  assert (handle_of ma ≠ handle_of mb) as Hh by (unfold handle_of; congruence).
  pose proof (Hlive A ltac:(left)) as HliveA.
  pose proof (Hlive B ltac:(right; left)) as HliveB.
  pose proof (helper_map_owner w4 registry_map A B _ _ _ _ (proj1 Hdepth) Hsnap
                (tid_to_info_elem _ _ _ HliveA) HtopA HatA HtopB HatB Hothers
                Hh ltac:(done)) as HmA.
  pose proof (helper_map_owner w4 registry_map B A _ _ _ _ (proj1 Hdepth) Hsnap
                (tid_to_info_elem _ _ _ HliveB) HtopB HatB HtopA HatA
                (λ t HtB HtA, Hothers t HtA HtB)
                ltac:(congruence) ltac:(done)) as HmB.
  set (eB := (B, chain_label mutex_names other_wait_reason_t.none (order_ mb))).
  set (eA := (A, chain_label mutex_names other_wait_reason_t.none (order_ ma))).
  assert (wait_edge_of mutex_names registry_map
            (helper_map mutex_stack_depth_ registry_map) A = Some eB) as HedgeA.
  { unfold wait_edge_of. rewrite HliveA. unfold wait_edge. rewrite HA. simpl.
    by rewrite HmB. }
  assert (wait_edge_of mutex_names registry_map
            (helper_map mutex_stack_depth_ registry_map) B = Some eA) as HedgeB.
  { unfold wait_edge_of. rewrite HliveB. unfold wait_edge. rewrite HB. simpl.
    by rewrite HmA. }
  destruct (deadlock_detection_spec mutex_stack_depth_ mutex_names registry_map A)
    as (d & Hd & Hpath & Hshape).
  exists d. split; [done|].
  destruct Hshape as [(_ & _ & Hnone)|(pre & last & Hpre & Hnd & _ & Hend)];
    [congruence|].
  destruct (chain d) as [|e [|e' c]] eqn:Hchain.
  - by destruct pre.
  - destruct Hpath as [He _]. assert (e = eB) as -> by congruence.
    destruct pre as [|p pre]; [|by destruct pre]. simpl in Hpre. injection Hpre as <-.
    destruct Hend as [[_ Hlast]|(_ & _ & Hnone)]; [|congruence].
    apply list_elem_of_singleton in Hlast. done.
  - destruct Hpath as (He & He' & _).
    assert (e = eB) as -> by congruence. simpl in He'.
    assert (e' = eA) as -> by congruence.
    destruct pre as [|p1 [|p2 pre]]; simpl in Hpre.
    + discriminate Hpre.
    + injection Hpre as <- <- Hc. apply fmap_nil_inv in Hc as ->.
      split; [|done].
      destruct Hend as [[Hcyc _]|(_ & Hlast & _)]; [done|].
      exfalso. apply Hlast. left.
    + injection Hpre as <- <- _. exfalso.
      apply NoDup_cons in Hnd as [Hnot _]. apply Hnot. right. left.
Qed.

Lemma mutual_wait_is_detected_witness :
  let free := {| try_lock_result := true; timedlock_result := 0;
                 realtime_now := 0; time_begin := 0; time_end := 0 |} in
  let busy := {| try_lock_result := false; timedlock_result := 0;
                 realtime_now := 0; time_begin := 10; time_end := 0 |} in
  let ma := {| address := 4096; order_ := MutexOrder.kThreadBase_Mutex |} in
  let mb := {| address := 4160; order_ := MutexOrder.kThreadBase_Mutex |} in
  let w := world_of ((lock 7 ma free;; lock 8 mb free;;
                      lock_blocked 7 mb busy;; lock_blocked 8 ma busy;; mret ())
                       world_init) in
  let registry_map := [(8, Some (info_of w 8)); (7, Some (info_of w 7))] in
  ∃ d, deadlock_detection mutex_stack_depth_ gMutexNames registry_map 7 = Some d ∧
       has_cycle d = true ∧
       chain d = [(8, chain_label gMutexNames other_wait_reason_t.none (order_ mb));
                  (7, chain_label gMutexNames other_wait_reason_t.none (order_ ma))].
Proof.
  intros free busy ma mb w registry_map.
  apply (mutual_wait_is_detected 7 8 ma mb free free busy busy w gMutexNames registry_map).
  - reflexivity.
  - unfold SIZE_MAX, size_modulus. simpl. lia.
  - discriminate.
  - discriminate.
  - vm_compute. reflexivity.
  - split.
    + intros t info Hin. subst registry_map.
      apply elem_of_cons in Hin as [Heq|Hin]; [by injection Heq as -> ->|].
      apply list_elem_of_singleton in Hin. by injection Hin as -> ->.
    + intros t Hin.
      apply elem_of_cons in Hin as [->|Hin]; [reflexivity|].
      apply list_elem_of_singleton in Hin as ->. reflexivity.
Defined.

(** X26. The order check leaves room for a deadlock only within one
    order: when the abort on order inversion is configured and two threads,
    each holding one mutex, both get as far as blocking in [lock] on the
    mutex of the other, the two mutexes have the same order. *)
Theorem mutual_wait_needs_equal_orders `{Attr : Attributes}
    (A B : Z) (ma mb : mutex) (e1 e2 e3 e4 : oracle) (w : world) :
  mutex_tracking_enabled_ = true →
  abort_on_order_check_ = true →
  0 < mutex_stack_depth_ ≤ INT64_MAX →
  A ≠ B →
  (lock A ma e1;; lock B mb e2;;
   lock_blocked A mb e3;; lock_blocked B ma e4;; mret ()) world_init = Done () w →
  order_ ma = order_ mb.
Proof.
  intros Htrack Horder Hdepth HAB Hrun.
  assert (0 < mutex_stack_depth_ ≤ SIZE_MAX) as Hdepth'
    by (pose proof INT64_MAX_le_SIZE_MAX; lia).
  destruct (lock A ma e1 world_init) as [[] w1|w1] eqn:H1;
    [|by rewrite (bind_Fatal _ _ _ _ H1) in Hrun].
  rewrite (bind_Done _ _ _ _ _ H1) in Hrun.
  destruct (lock B mb e2 w1) as [[] w2|w2] eqn:H2;
    [|by rewrite (bind_Fatal _ _ _ _ H2) in Hrun].
  rewrite (bind_Done _ _ _ _ _ H2) in Hrun.
  destruct (lock_blocked A mb e3 w2) as [ls3 w3|w3] eqn:H3;
    [|by rewrite (bind_Fatal _ _ _ _ H3) in Hrun].
  rewrite (bind_Done _ _ _ _ _ H3) in Hrun.
  destruct (lock_blocked B ma e4 w3) as [ls4 w4|w4] eqn:H4;
    [|by rewrite (bind_Fatal _ _ _ _ H4) in Hrun].
  clear Hrun.
  pose proof (lock_info _ _ _ _ _ H1) as I1. pose proof (lock_info _ _ _ _ _ H2) as I2.
  pose proof (lock_blocked_info _ _ _ _ _ _ H3) as I3.
  rewrite Htrack in I1, I2, I3.
  (* the stacks when each thread comes to its second [lock] *)
  assert (held_of w2 A = push mutex_stack_depth_ (atomic_stack_init mutex_stack_depth_)
                           (handle_of ma) (order_ ma)) as HheldA.
  { rewrite held_of_info_of, (I2 A), bool_decide_eq_false_2 by done.
    rewrite (I1 A), bool_decide_eq_true_2 by done.
    simpl. by destruct (try_lock_result e1). }
  assert (∀ t, held_of w3 t = held_of w2 t) as Hsame.
  { intros t. rewrite !held_of_info_of, (I3 t). by case_bool_decide; subst. }
  assert (held_of w3 B = push mutex_stack_depth_ (atomic_stack_init mutex_stack_depth_)
                           (handle_of mb) (order_ mb)) as HheldB.
  { rewrite Hsame, held_of_info_of, (I2 B), bool_decide_eq_true_2 by done.
    rewrite (I1 B), bool_decide_eq_false_2 by done.
    simpl. by destruct (try_lock_result e2). }
  (* both are in order *)
  assert (world_ok (tracked_ok mutex_stack_depth_) w2) as Hok2.
  { apply (lock_ok _ (tracked_push_after_pre_lock Hdepth Horder) B mb e2 w1 w2); [|done].
    apply (lock_ok _ (tracked_push_after_pre_lock Hdepth Horder) A ma e1 world_init w1);
      [|done].
    intros t. apply (world_init_ok Hdepth t). }
  assert (world_ok (tracked_ok mutex_stack_depth_) w3) as Hok3.
  { intros t. rewrite Hsame. apply Hok2. }
  (* what [pre_lock] has let through *)
  assert (∀ tid m e w ls w' h o,
            world_ok (tracked_ok mutex_stack_depth_) w →
            lock_blocked tid m e w = Done ls w' →
            held_of w tid = push mutex_stack_depth_ (atomic_stack_init mutex_stack_depth_) h o →
            o ≤ order_ m) as Hpassed.
  { intros tid m e w0 ls w' h o Hok Hblocked Hheld. unfold lock_blocked in Hblocked.
    destruct (pre_lock tid m w0) as [[] w0'|w0'] eqn:Hpre;
      [|by rewrite (bind_Fatal _ _ _ _ Hpre) in Hblocked].
    assert (fits (held_of w0 tid) (order_ m)) as Hfits.
    { apply (checked_fits mutex_stack_depth_ _ (handle_of m)); [lia|apply Hok|].
      destruct (pre_lock_checked tid m w0 w0' Hpre Htrack) as [Hnull|[Hinv _]];
        [by left|]. right. by apply Hinv. }
    destruct (single_entry mutex_stack_depth_ h o Hdepth') as [Htop Hat].
    rewrite <- Hheld in Htop, Hat.
    specialize (Hfits 0 ltac:(lia)). by rewrite Hat in Hfits. }
  pose proof (Hpassed _ _ _ _ _ _ _ _ Hok2 H3 HheldA).
  pose proof (Hpassed _ _ _ _ _ _ _ _ Hok3 H4 HheldB).
  lia.
Qed.

Lemma mutual_wait_needs_equal_orders_witness :
  let free := {| try_lock_result := true; timedlock_result := 0;
                 realtime_now := 0; time_begin := 0; time_end := 0 |} in
  let busy := {| try_lock_result := false; timedlock_result := 0;
                 realtime_now := 0; time_begin := 10; time_end := 0 |} in
  let ma := {| address := 4096; order_ := MutexOrder.kThreadBase_Mutex |} in
  let mb := {| address := 4160; order_ := MutexOrder.kThreadBase_Mutex |} in
  ∃ w, (lock 7 ma free;; lock 8 mb free;;
        lock_blocked 7 mb busy;; lock_blocked 8 ma busy;; mret ()) world_init
         = Done () w ∧
       order_ ma = order_ mb.
Proof.
  intros free busy ma mb. eexists. split; [vm_compute; reflexivity|].
  eapply (mutual_wait_needs_equal_orders 7 8 ma mb free free busy busy).
  - reflexivity.
  - reflexivity.
  - unfold INT64_MAX. simpl. lia.
  - discriminate.
  - vm_compute. reflexivity.
Defined.
